(** * VoxelGridPartition: a shallow embedding of
      [smartbot/src/L_SLAM/src/util/voxel_grid_partition.hpp]

    [pcl::VoxelGridPartition<PointT>::applyPartition] lays a uniform grid
    over the bounding box of a point cloud, computes for every candidate
    point the linear index of the cell it falls in, sorts the
    (cell, point) pairs by cell, cuts the sorted vector into runs of equal
    cell index, drops the runs shorter than [min_points_per_voxel_] and
    copies the points of every surviving run into a cloud of its own.

    Conventions of the embedding.
    - [int], [unsigned int] and [int64_t] values are integers of [Z]; every
      arithmetic operation of the source is followed by the wrap-around of
      its type ([i32], [u32], [i64]): signed arithmetic is taken as the
      two's complement arithmetic of the targets the code is built for.
    - [float] is IEEE-754 binary32 and [double] binary64, as [spec_float]
      values with the operations of [SpecFloat] at precision 24 (53).
      [floor] is taken at the type of its argument.  A conversion from
      floating point to an integer type truncates; out of the range of the
      target type (and for NaN) it yields the smallest integer of that type,
      as the conversion instructions of x86-64 do.
    - Subscripting a [std::vector] out of its range has no defined
      behaviour: the embedding stops with [Undefined] there.  A loop whose
      counter wraps around never ends: the embedding of the loops carries
      fuel and stops with [Diverges] when it runs out.
    - [PCL_INFO] appends a [diagnostic] to a log that is returned with the
      result.
    - The bounding-box scan [getMinMax3D] and [std::sort] are library
      routines: the former is a parameter of the embedding, the latter an
      interface ([IndexSort]) with the contract of the C++ standard.
      [initCompute] and [deinitCompute], which [compute] calls, are PCL's
      and parameters too. *)

From Stdlib Require Import String.
From Stdlib Require Import ZArith List Bool Lia Permutation Sorted.
From Stdlib Require Import Floats.SpecFloat.
Import ListNotations.

Local Open Scope Z_scope.

(** ** Machine integers *)

Module Mach.

Definition INT32_MAX : Z := 2147483647.

(** [unsigned int]: reduction modulo 2^32. *)
Definition u32 (z : Z) : Z := z mod 2 ^ 32.

(** [int]: two's complement on 32 bits. *)
Definition i32 (z : Z) : Z := (z + 2 ^ 31) mod 2 ^ 32 - 2 ^ 31.

(** [int64_t]: two's complement on 64 bits. *)
Definition i64 (z : Z) : Z := (z + 2 ^ 63) mod 2 ^ 64 - 2 ^ 63.

Lemma u32_range z : 0 <= u32 z < 2 ^ 32.
Proof. unfold u32. apply Z.mod_pos_bound. lia. Qed.

Lemma u32_small z : 0 <= z < 2 ^ 32 -> u32 z = z.
Proof. intros H. unfold u32. apply Z.mod_small. exact H. Qed.


Lemma i64_small z : - 2 ^ 63 <= z < 2 ^ 63 -> i64 z = z.
Proof. intros H. unfold i64. rewrite Z.mod_small; lia. Qed.

Lemma i32_range z : - 2 ^ 31 <= i32 z < 2 ^ 31.
Proof.
  unfold i32.
  assert (H := Z.mod_pos_bound (z + 2 ^ 31) (2 ^ 32)). lia.
Qed.

Lemma u32_i32 z : u32 (i32 z) = u32 z.
Proof.
  unfold u32, i32.
  rewrite Zminus_mod_idemp_l.
  f_equal. lia.
Qed.

End Mach.

(** ** Floating point *)

Module F32.

Definition t : Type := spec_float.

Definition prec : Z := 24.
Definition emax : Z := 128.

Definition mul : t -> t -> t := SFmul prec emax.
Definition sub : t -> t -> t := SFsub prec emax.

(** [static_cast<float>(n)] for an integer [n]: rounding to nearest, ties
    to even. *)
Definition of_int (n : Z) : t := binary_normalize prec emax n 0 false.

(** [pcl_isfinite] *)
Definition is_finite (x : t) : bool :=
  match x with
  | S754_zero _ | S754_finite _ _ _ => true
  | S754_infinity _ | S754_nan => false
  end.

(** The integer part of [m * 2^e], rounded towards minus infinity. *)
Definition scale_floor (m e : Z) : Z :=
  if 0 <=? e then m * 2 ^ e else m / 2 ^ (- e).

(** [floor] *)
Definition floor (x : t) : t :=
  match x with
  | S754_finite s m e =>
      binary_normalize prec emax (scale_floor (cond_Zopp s (Zpos m)) e) 0 s
  | _ => x
  end.

(** The integer part of a finite value, rounded towards zero. *)
Definition trunc (x : t) : option Z :=
  match x with
  | S754_zero _ => Some 0
  | S754_finite s m e => Some (cond_Zopp s (scale_floor (Zpos m) e))
  | S754_infinity _ | S754_nan => None
  end.

(** [static_cast<int>(x)] *)
Definition to_int32 (x : t) : Z :=
  match trunc x with
  | Some z => if (- 2 ^ 31 <=? z) && (z <? 2 ^ 31) then z else - 2 ^ 31
  | None => - 2 ^ 31
  end.

(** [static_cast<int64_t>(x)] *)
Definition to_int64 (x : t) : Z :=
  match trunc x with
  | Some z => if (- 2 ^ 63 <=? z) && (z <? 2 ^ 63) then z else - 2 ^ 63
  | None => - 2 ^ 63
  end.

(** A [float] promoted to [double]: the same value in binary64. *)
Definition to_double (x : t) : spec_float :=
  match x with
  | S754_finite s m e => binary_normalize 53 1024 (cond_Zopp s (Zpos m)) e s
  | _ => x
  end.

(** Literals: [lit m e] is the float nearest to [m * 2^e]. *)
Definition lit (m e : Z) : t := binary_normalize prec emax m e false.

Definition nan : t := S754_nan.

End F32.

(** [double] comparisons of the admission filter. *)
Module F64.

Definition t : Type := spec_float.

Definition ltb : t -> t -> bool := SFltb.
Definition gtb (x y : t) : bool := SFltb y x.

Definition lit (m e : Z) : t := binary_normalize 53 1024 m e false.

End F64.

(** [static_cast<float>(d)] for a [double] [d]. *)
Definition float_of_double (d : F64.t) : F32.t :=
  match d with
  | S754_finite s m e =>
      binary_normalize F32.prec F32.emax (cond_Zopp s (Zpos m)) e s
  | _ => d
  end.

(** ** Outcomes of a run *)

(** The subscripts of the source; each names the vector that was indexed
    out of its range. *)
Inductive fault : Type :=
| PointsSubscript (i : Z)        (* input_->points[i] *)
| FieldsSubscript (i : Z)        (* fields[i] *)
| IndexVectorSubscript (i : Z)   (* index_vector[i] *)
| ClustersSubscript (i : Z)      (* pc_vector[i] *)
| LeafLayoutSubscript (i : Z).   (* leaf_layout_[i] *)

Inductive outcome (A : Type) : Type :=
| Ok (a : A)
| Undefined (f : fault)
| Diverges.

Arguments Ok {A} a.
Arguments Undefined {A} f.
Arguments Diverges {A}.

Definition bind {A B : Type} (c : outcome A) (k : A -> outcome B) : outcome B :=
  match c with
  | Ok a => k a
  | Undefined f => Undefined f
  | Diverges => Diverges
  end.

Notation "x <- c ;; k" := (bind c (fun x => k))
  (at level 61, c at next level, right associativity).

(** [v[i]] on a [std::vector]. *)
Definition vec_get {A : Type} (v : list A) (i : Z) : option A :=
  if i <? 0 then None else nth_error v (Z.to_nat i).

Definition subscript {A : Type} (who : Z -> fault) (v : list A) (i : Z) : outcome A :=
  match vec_get v i with
  | Some a => Ok a
  | None => Undefined (who i)
  end.

(** [v[i] = a] on a [std::vector], for [i] in range. *)
Fixpoint vec_set {A : Type} (v : list A) (i : nat) (a : A) : list A :=
  match v, i with
  | [], _ => []
  | _ :: v', O => a :: v'
  | b :: v', S i' => b :: vec_set v' i' a
  end.

Definition store {A : Type} (who : Z -> fault) (v : list A) (i : Z) (a : A) : outcome (list A) :=
  match vec_get v i with
  | Some _ => Ok (vec_set v (Z.to_nat i) a)
  | None => Undefined (who i)
  end.

(** [v.resize(n, a)] *)
Definition vec_resize {A : Type} (v : list A) (n : Z) (a : A) : list A :=
  firstn (Z.to_nat n) v ++ repeat a (Z.to_nat n - length v)%nat.

Definition vec_size {A : Type} (v : list A) : Z := Z.of_nat (length v).

(** ** Data *)

(** [Eigen::Vector4f], [Eigen::Array4f], [Eigen::Vector4i] *)
Record Vector4 (A : Type) : Type := mkVector4 { c0 : A; c1 : A; c2 : A; c3 : A }.

Arguments mkVector4 {A} _ _ _ _.
Arguments c0 {A} _.
Arguments c1 {A} _.
Arguments c2 {A} _.
Arguments c3 {A} _.

Definition Vector4f : Type := Vector4 F32.t.
Definition Vector4i : Type := Vector4 Z.

(** [pcl::PCLPointField]: the name of a field of the point type and the
    byte offset of its value in a point record. *)
Record PCLPointField : Type := mkField { name : String.string; offset : Z }.

(** The point type [PointT] of the template: its coordinates, its field
    list ([pcl::traits::fieldList]) and the [float] stored at a byte offset
    of a point record ([memcpy (&v, pt_data + offset, sizeof (float))]). *)
Class PointType (PointT : Type) : Type := {
  pt_x : PointT -> F32.t;
  pt_y : PointT -> F32.t;
  pt_z : PointT -> F32.t;
  point_fields : list PCLPointField;
  read_float : PointT -> Z -> F32.t
}.

(** Modelled from the spec: [pcl::cloud_point_index_idx] is declared in
    PCL's [voxel_grid.h]; the spec gives it as the pair (linear cell index:
    unsigned 32-bit, source point index) and orders it by the cell index
    alone. *)
Record cloud_point_index_idx : Type := mkEntry {
  idx : Z;
  cloud_point_index : Z
}.

(** [operator<] of [cloud_point_index_idx], the order handed to
    [std::sort] through [std::less]. *)
Definition entry_lt (a b : cloud_point_index_idx) : bool := idx a <? idx b.

(** [std::sort (first, last, comp)]: the result is a rearrangement of the
    input in which no element is less than one before it.  The order of
    equivalent elements is not specified. *)
Class IndexSort : Type := {
  sort : list cloud_point_index_idx -> list cloud_point_index_idx;
  sort_perm : forall v, Permutation v (sort v);
  sort_sorted : forall v, StronglySorted (fun a b => entry_lt b a = false) (sort v)
}.

Inductive diagnostic : Type :=
| NoInputDataset
| LeafSizeTooSmall
| InvalidFilterFieldName (distance_idx : Z).

(** Modelled from the spec: [pcl::getFieldIndex (cloud, name, fields)] is a
    PCL routine; it fills [fields] with the field list of the point type and
    returns the position of the field called [name], or -1 when the point
    type has no such field. *)
Fixpoint getFieldIndex (field_name : String.string) (fields : list PCLPointField) (i : Z) : Z :=
  match fields with
  | [] => -1
  | f :: fields' =>
      if String.eqb (name f) field_name then i
      else getFieldIndex field_name fields' (i + 1)
  end.

Import Mach.

(** ** The partition *)

Section Partition.

Context {PointT : Type} {point_type : PointType PointT}.
Context {std_sort : IndexSort}.

(** [pcl::PointCloud<PointT>]; [width] and [height] follow the size of
    [points] and are left out. *)
Record PointCloud : Type := mkCloud {
  points : list PointT;
  is_dense : bool
}.

(** [new PointCloud] *)
Definition new_PointCloud : PointCloud := mkCloud [] true.

(** [cloud->push_back (p)] *)
Definition push_back (cloud : PointCloud) (p : PointT) : PointCloud :=
  mkCloud (points cloud ++ [p]) (is_dense cloud).

(** The two overloads of [pcl::getMinMax3D] the source calls: the bounding
    box of the candidate points, and the bounding box of the candidate
    points a field filter keeps.  Each returns [(min_p, max_p)]. *)
Variable getMinMax3D : PointCloud -> list Z -> Vector4f * Vector4f.
Variable getMinMax3D_field :
  PointCloud -> list Z -> String.string -> F32.t -> F32.t -> bool ->
  Vector4f * Vector4f.

(** The members of [VoxelGrid<PointT>] that [applyPartition] reads or
    writes.  [indices_] is a vector of [int]: its elements are read through
    [i32], the identity on the values an [int] holds.
    [downsample_all_data_] only feeds [centroid_size], which is computed and
    never used, like [rgba_index]; both are left out. *)
Record VoxelGridPartition : Type := mkFilter {
  input_ : option PointCloud;
  indices_ : list Z;
  inverse_leaf_size_ : Vector4f;
  save_leaf_layout_ : bool;
  leaf_layout_ : list Z;
  min_b_ : Vector4i;
  max_b_ : Vector4i;
  div_b_ : Vector4i;
  divb_mul_ : Vector4i;
  filter_field_name_ : String.string;
  filter_limit_min_ : F64.t;
  filter_limit_max_ : F64.t;
  filter_limit_negative_ : bool;
  min_points_per_voxel_ : Z
}.

(** What a call leaves behind: the object, the vector passed by reference
    and the diagnostics printed. *)
Record returned : Type := mkReturned {
  self : VoxelGridPartition;
  pc_vector : list PointCloud;
  log : list diagnostic
}.

(** *** Grid shape (lines 102-130) *)

(** [static_cast<int64_t>((max_p[k] - min_p[k]) * inverse_leaf_size_[k]) + 1] *)
Definition candidate_divisions (min_k max_k inv_k : F32.t) : Z :=
  i64 (F32.to_int64 (F32.mul (F32.sub max_k min_k) inv_k) + 1).

(** [(dx * dy * dz) > std::numeric_limits<int32_t>::max ()] *)
Definition indices_would_overflow (dx dy dz : Z) : bool :=
  i64 (i64 (dx * dy) * dz) >? INT32_MAX.

(** [static_cast<int>(floor (p[k] * inverse_leaf_size_[k]))] *)
Definition cell_bound (p_k inv_k : F32.t) : Z :=
  F32.to_int32 (F32.floor (F32.mul p_k inv_k)).

(** [max_b_ - min_b_ + Eigen::Vector4i::Ones ()], one component *)
Definition divisions (min_b_k max_b_k : Z) : Z :=
  i32 (i32 (max_b_k - min_b_k) + 1).

(** *** First pass: cell assignment (lines 151-240) *)

Definition point_is_finite (p : PointT) : bool :=
  F32.is_finite (pt_x p) && F32.is_finite (pt_y p) && F32.is_finite (pt_z p).

(** [static_cast<int>(floor (c * inverse_leaf_size_[k]) -
    static_cast<float>(min_b_[k]))] *)
Definition cell_coordinate (c inv_k : F32.t) (min_b_k : Z) : Z :=
  F32.to_int32 (F32.sub (F32.floor (F32.mul c inv_k)) (F32.of_int min_b_k)).

(** [ijk0 * divb_mul_[0] + ijk1 * divb_mul_[1] + ijk2 * divb_mul_[2]] *)
Definition leaf_index (inv : Vector4f) (min_b divb_mul : Vector4i) (p : PointT) : Z :=
  let ijk0 := cell_coordinate (pt_x p) (c0 inv) (c0 min_b) in
  let ijk1 := cell_coordinate (pt_y p) (c1 inv) (c1 min_b) in
  let ijk2 := cell_coordinate (pt_z p) (c2 inv) (c2 min_b) in
  i32 (i32 (i32 (ijk0 * c0 divb_mul) + i32 (ijk1 * c1 divb_mul))
       + i32 (ijk2 * c2 divb_mul)).

(** [cloud_point_index_idx (static_cast<unsigned int>(idx), *it)] *)
Definition make_entry (cell it : Z) : cloud_point_index_idx :=
  mkEntry (u32 cell) (u32 it).

(** The test of the admission filter: [true] when the point is skipped. *)
Definition filter_rejects (negative : bool) (lo hi : F64.t) (distance_value : F32.t) : bool :=
  let v := F32.to_double distance_value in
  if negative then F64.ltb v hi && F64.gtb v lo
  else F64.gtb v hi || F64.ltb v lo.

(** The body of the loop without admission filter (lines 218-238). *)
Definition visit_all (cloud : PointCloud) (inv : Vector4f) (min_b divb_mul : Vector4i)
    (raw : Z) : outcome (option cloud_point_index_idx) :=
  let it := i32 raw in
  p <- subscript PointsSubscript (points cloud) it ;;
  if negb (is_dense cloud) && negb (point_is_finite p) then Ok None
  else Ok (Some (make_entry (leaf_index inv min_b divb_mul p) it)).

(** The body of the loop with admission filter (lines 167-206). *)
Definition visit_filtered (cloud : PointCloud) (inv : Vector4f) (min_b divb_mul : Vector4i)
    (fields : list PCLPointField) (distance_idx : Z)
    (negative : bool) (lo hi : F64.t)
    (raw : Z) : outcome (option cloud_point_index_idx) :=
  let it := i32 raw in
  p <- subscript PointsSubscript (points cloud) it ;;
  if negb (is_dense cloud) && negb (point_is_finite p) then Ok None
  else
    field <- subscript FieldsSubscript fields distance_idx ;;
    let distance_value := read_float p (offset field) in
    if filter_rejects negative lo hi distance_value then Ok None
    else Ok (Some (make_entry (leaf_index inv min_b divb_mul p) it)).

(** [for (it = indices_->begin (); it != indices_->end (); ++it)] *)
Fixpoint for_each_index (visit : Z -> outcome (option cloud_point_index_idx))
    (its : list Z) : outcome (list cloud_point_index_idx) :=
  match its with
  | [] => Ok []
  | it :: rest =>
      r <- visit it ;;
      index_vector <- for_each_index visit rest ;;
      Ok (match r with
          | Some e => e :: index_vector
          | None => index_vector
          end)
  end.

(** *** Third pass: runs of equal cell index (lines 250-272) *)

(** [while (i < index_vector.size () &&
            index_vector[i].idx == index_vector[index].idx) ++i;] *)
Fixpoint run_end (fuel : nat) (index_vector : list cloud_point_index_idx)
    (index i : Z) : outcome Z :=
  match fuel with
  | O => Diverges
  | S fuel' =>
      if i <? vec_size index_vector then
        a <- subscript IndexVectorSubscript index_vector i ;;
        b <- subscript IndexVectorSubscript index_vector index ;;
        if idx a =? idx b then run_end fuel' index_vector index (u32 (i + 1))
        else Ok i
      else Ok i
  end.

(** [while (index < index_vector.size ()) { ... }]; the result is [total]
    and [first_and_last_indices_vector]. *)
Fixpoint third_pass (fuel : nat) (index_vector : list cloud_point_index_idx)
    (min_points : Z) (index total : Z) (first_and_last : list (Z * Z))
    : outcome (Z * list (Z * Z)) :=
  match fuel with
  | O => Diverges
  | S fuel' =>
      if index <? vec_size index_vector then
        i <- run_end (S (length index_vector)) index_vector index (u32 (index + 1)) ;;
        if u32 (i - index) >=? min_points then
          third_pass fuel' index_vector min_points i (u32 (total + 1))
            (first_and_last ++ [(index, i)])
        else
          third_pass fuel' index_vector min_points i total first_and_last
      else Ok (total, first_and_last)
  end.

(** *** Fourth pass: the clusters and the leaf layout (lines 275-320) *)

(** [pc_vector.resize (total)] followed by the loop that resets every
    element to a new cloud. *)
Definition fresh_clusters (pc : list PointCloud) (total : Z) : list PointCloud :=
  map (fun _ => new_PointCloud) (vec_resize pc total new_PointCloud).

(** [for (i = 0; i < reinit_size; i++) leaf_layout_[i] = -1;] *)
Fixpoint reinit (n : nat) (layout : list Z) : list Z :=
  match n, layout with
  | S n', _ :: layout' => -1 :: reinit n' layout'
  | _, _ => layout
  end.

(** Lines 283-291.  An allocation that fails throws; memory is not bounded
    here. *)
Definition reset_leaf_layout (div_b : Vector4i) (layout : list Z) : list Z :=
  let new_layout_size := u32 (i32 (i32 (c0 div_b * c1 div_b) * c2 div_b)) in
  let reinit_size := Z.min new_layout_size (u32 (vec_size layout)) in
  vec_resize (reinit (Z.to_nat reinit_size) layout) new_layout_size (-1).

(** [for (i = first_index; i < last_index; ++i)
       pc_vector[cp]->push_back (input_->points[index_vector[i].cloud_point_index]);]
    with [n] iterations left. *)
Fixpoint copy_run (cloud : PointCloud) (index_vector : list cloud_point_index_idx)
    (n : nat) (i : Z) (cluster : PointCloud) : outcome PointCloud :=
  match n with
  | O => Ok cluster
  | S n' =>
      e <- subscript IndexVectorSubscript index_vector i ;;
      p <- subscript PointsSubscript (points cloud) (cloud_point_index e) ;;
      copy_run cloud index_vector n' (u32 (i + 1)) (push_back cluster p)
  end.

(** [for (cp = 0; cp < first_and_last_indices_vector.size (); ++cp)] *)
Fixpoint fourth_pass (cloud : PointCloud) (index_vector : list cloud_point_index_idx)
    (save_leaf_layout : bool) (first_and_last : list (Z * Z)) (cp index : Z)
    (pc : list PointCloud) (layout : list Z)
    : outcome (list PointCloud * list Z) :=
  match first_and_last with
  | [] => Ok (pc, layout)
  | (first_index, last_index) :: rest =>
      cluster <- subscript ClustersSubscript pc cp ;;
      cluster' <- copy_run cloud index_vector
                    (Z.to_nat (last_index - first_index)) first_index cluster ;;
      pc' <- store ClustersSubscript pc cp cluster' ;;
      layout' <- (if save_leaf_layout then
                    e <- subscript IndexVectorSubscript index_vector first_index ;;
                    store LeafLayoutSubscript layout (idx e) (i32 index)
                  else Ok layout) ;;
      fourth_pass cloud index_vector save_leaf_layout rest
        (u32 (cp + 1)) (u32 (index + 1)) pc' layout'
  end.

(** *** [applyPartition] *)

Definition is_empty (s : String.string) : bool :=
  match s with
  | String.EmptyString => true
  | _ => false
  end.

Definition bounding_box (this : VoxelGridPartition) (cloud : PointCloud) : Vector4f * Vector4f :=
  if negb (is_empty (filter_field_name_ this)) then
    getMinMax3D_field cloud (indices_ this) (filter_field_name_ this)
      (float_of_double (filter_limit_min_ this))
      (float_of_double (filter_limit_max_ this))
      (filter_limit_negative_ this)
  else getMinMax3D cloud (indices_ this).

(** The grid members as lines 118-130 set them. *)
Definition set_grid (this : VoxelGridPartition) (min_p max_p : Vector4f) : VoxelGridPartition :=
  let inv := inverse_leaf_size_ this in
  let min_b := mkVector4 (cell_bound (c0 min_p) (c0 inv)) (cell_bound (c1 min_p) (c1 inv))
                         (cell_bound (c2 min_p) (c2 inv)) (c3 (min_b_ this)) in
  let max_b := mkVector4 (cell_bound (c0 max_p) (c0 inv)) (cell_bound (c1 max_p) (c1 inv))
                         (cell_bound (c2 max_p) (c2 inv)) (c3 (max_b_ this)) in
  let div_b := mkVector4 (divisions (c0 min_b) (c0 max_b)) (divisions (c1 min_b) (c1 max_b))
                         (divisions (c2 min_b) (c2 max_b)) 0 in
  let divb_mul := mkVector4 1 (c0 div_b) (i32 (c0 div_b * c1 div_b)) 0 in
  mkFilter (input_ this) (indices_ this) (inverse_leaf_size_ this)
    (save_leaf_layout_ this) (leaf_layout_ this)
    min_b max_b div_b divb_mul
    (filter_field_name_ this) (filter_limit_min_ this) (filter_limit_max_ this)
    (filter_limit_negative_ this) (min_points_per_voxel_ this).

Definition set_leaf_layout (this : VoxelGridPartition) (layout : list Z) : VoxelGridPartition :=
  mkFilter (input_ this) (indices_ this) (inverse_leaf_size_ this)
    (save_leaf_layout_ this) layout
    (min_b_ this) (max_b_ this) (div_b_ this) (divb_mul_ this)
    (filter_field_name_ this) (filter_limit_min_ this) (filter_limit_max_ this)
    (filter_limit_negative_ this) (min_points_per_voxel_ this).

(** The first pass on an object whose grid members are set; the
    diagnostic of line 156 comes with it. *)
Definition first_pass (this : VoxelGridPartition) (cloud : PointCloud)
    : list diagnostic * outcome (list cloud_point_index_idx) :=
  if negb (is_empty (filter_field_name_ this)) then
    let fields := point_fields in
    let distance_idx := getFieldIndex (filter_field_name_ this) fields 0 in
    ((if distance_idx =? -1 then [InvalidFilterFieldName distance_idx] else []),
     for_each_index
       (visit_filtered cloud (inverse_leaf_size_ this) (min_b_ this) (divb_mul_ this)
          fields distance_idx (filter_limit_negative_ this)
          (filter_limit_min_ this) (filter_limit_max_ this))
       (indices_ this))
  else
    ([],
     for_each_index
       (visit_all cloud (inverse_leaf_size_ this) (min_b_ this) (divb_mul_ this))
       (indices_ this)).

Definition applyPartition (this : VoxelGridPartition) (pc : list PointCloud)
    : outcome returned :=
  match input_ this with
  | None => Ok (mkReturned this [] [NoInputDataset])
  | Some cloud =>
      let (min_p, max_p) := bounding_box this cloud in
      let inv := inverse_leaf_size_ this in
      let dx := candidate_divisions (c0 min_p) (c0 max_p) (c0 inv) in
      let dy := candidate_divisions (c1 min_p) (c1 max_p) (c1 inv) in
      let dz := candidate_divisions (c2 min_p) (c2 max_p) (c2 inv) in
      if indices_would_overflow dx dy dz then
        Ok (mkReturned this [] [LeafSizeTooSmall])
      else
        let this1 := set_grid this min_p max_p in
        let (messages, assigned) := first_pass this1 cloud in
        index_vector <- assigned ;;
        let index_vector := sort index_vector in
        counted <- third_pass (S (length index_vector)) index_vector
                     (min_points_per_voxel_ this1) 0 0 [] ;;
        let (total, first_and_last) := counted in
        let pc1 := fresh_clusters pc total in
        let layout1 := if save_leaf_layout_ this1
                       then reset_leaf_layout (div_b_ this1) (leaf_layout_ this1)
                       else leaf_layout_ this1 in
        built <- fourth_pass cloud index_vector (save_leaf_layout_ this1)
                   first_and_last 0 0 pc1 layout1 ;;
        let (pc2, layout2) := built in
        Ok (mkReturned (set_leaf_layout this1 layout2) pc2 messages)
  end.

End Partition.

Arguments PointCloud PointT : clear implicits.
Arguments VoxelGridPartition PointT : clear implicits.
Arguments returned PointT : clear implicits.

(** ** An instance: [pcl::PointXYZI], insertion sort, a bounding-box scan *)

Module XYZI.

(** [pcl::PointXYZI]: three coordinates, a padding word and the intensity. *)
Record PointXYZI : Type := mkPoint {
  x : F32.t;
  y : F32.t;
  z : F32.t;
  intensity : F32.t
}.

Definition zero : F32.t := S754_zero false.

#[export] Instance PointXYZI_type : PointType PointXYZI := {|
  pt_x := x;
  pt_y := y;
  pt_z := z;
  point_fields :=
    [ mkField "x"%string 0; mkField "y"%string 4; mkField "z"%string 8;
      mkField "intensity"%string 16 ];
  read_float := fun p off =>
    if off =? 0 then x p
    else if off =? 4 then y p
    else if off =? 8 then z p
    else if off =? 16 then intensity p
    else zero
|}.

(** Insertion sort on the cell index. *)
Fixpoint insert (e : cloud_point_index_idx) (v : list cloud_point_index_idx)
    : list cloud_point_index_idx :=
  match v with
  | [] => [e]
  | a :: v' => if entry_lt a e then a :: insert e v' else e :: a :: v'
  end.

Fixpoint insertion_sort (v : list cloud_point_index_idx) : list cloud_point_index_idx :=
  match v with
  | [] => []
  | e :: v' => insert e (insertion_sort v')
  end.

(** The componentwise minimum and maximum of the candidate points with
    finite coordinates, from [FLT_MAX] and [-FLT_MAX]; the indices are read
    as the call reads them. *)
Definition FLT_MAX : F32.t := S754_finite false 16777215 104.

Definition fmin (a b : F32.t) : F32.t := if SFltb b a then b else a.
Definition fmax (a b : F32.t) : F32.t := if SFltb a b then b else a.

Definition finite3 (p : PointXYZI) : bool :=
  F32.is_finite (x p) && F32.is_finite (y p) && F32.is_finite (z p).

Fixpoint scan_box (pts : list PointXYZI) (its : list Z) (lo hi : Vector4f)
    : Vector4f * Vector4f :=
  match its with
  | [] => (lo, hi)
  | it :: rest =>
      match vec_get pts (i32 it) with
      | Some p =>
          if finite3 p then
            scan_box pts rest
              (mkVector4 (fmin (c0 lo) (x p)) (fmin (c1 lo) (y p)) (fmin (c2 lo) (z p)) (c3 lo))
              (mkVector4 (fmax (c0 hi) (x p)) (fmax (c1 hi) (y p)) (fmax (c2 hi) (z p)) (c3 hi))
          else scan_box pts rest lo hi
      | None => scan_box pts rest lo hi
      end
  end.

Definition minmax (cloud : PointCloud PointXYZI) (its : list Z) : Vector4f * Vector4f :=
  scan_box (points cloud) its
    (mkVector4 FLT_MAX FLT_MAX FLT_MAX FLT_MAX)
    (mkVector4 (SFopp FLT_MAX) (SFopp FLT_MAX) (SFopp FLT_MAX) (SFopp FLT_MAX)).

(** The filtered overload: the box of the candidates whose field value the
    [float] limits keep. *)
Definition kept_by (field_name : String.string) (lo hi : F32.t) (negative : bool)
    (p : PointXYZI) : bool :=
  match vec_get point_fields (getFieldIndex field_name point_fields 0) with
  | Some f =>
      let v := read_float p (offset f) in
      if negative then negb (SFltb v hi && SFltb lo v)
      else negb (SFltb hi v || SFltb v lo)
  | None => true
  end.

Definition minmax_field (cloud : PointCloud PointXYZI) (its : list Z)
    (field_name : String.string) (lo hi : F32.t) (negative : bool)
    : Vector4f * Vector4f :=
  scan_box (points cloud)
    (filter (fun it => match vec_get (points cloud) (i32 it) with
                       | Some p => kept_by field_name lo hi negative p
                       | None => false
                       end) its)
    (mkVector4 FLT_MAX FLT_MAX FLT_MAX FLT_MAX)
    (mkVector4 (SFopp FLT_MAX) (SFopp FLT_MAX) (SFopp FLT_MAX) (SFopp FLT_MAX)).

(** A point with coordinates [(a, b, c) / 4] and intensity zero. *)
Definition quarters (a b c : Z) : PointXYZI :=
  mkPoint (F32.lit a (-2)) (F32.lit b (-2)) (F32.lit c (-2)) zero.

Definition ones : Vector4f :=
  mkVector4 (F32.lit 1 0) (F32.lit 1 0) (F32.lit 1 0) (F32.lit 1 0).

Definition zeros : Vector4i := mkVector4 0 0 0 0.

(** A filter object over [pts] with leaf size 1, all points candidates. *)
Definition filter_on (pts : list PointXYZI) (dense : bool) (min_points : Z)
    (save_layout : bool) (field_name : String.string) : VoxelGridPartition PointXYZI :=
  mkFilter (Some (mkCloud pts dense))
    (map Z.of_nat (seq 0 (length pts)))
    ones save_layout [] zeros zeros zeros zeros
    field_name (F64.lit 0 0) (F64.lit 1 0) false min_points.

End XYZI.

(** ** Insertion sort meets the contract of [std::sort] *)

Module InsertionSort.

Import XYZI.

Lemma insert_perm e v : Permutation (e :: v) (insert e v).
Proof.
  induction v as [|a v IH]; simpl.
  - apply Permutation_refl.
  - destruct (entry_lt a e).
    + apply perm_trans with (a :: e :: v).
      * apply perm_swap.
      * apply perm_skip. exact IH.
    + apply Permutation_refl.
Qed.

Lemma insertion_sort_perm v : Permutation v (insertion_sort v).
Proof.
  induction v as [|e v IH]; simpl.
  - apply perm_nil.
  - apply perm_trans with (e :: insertion_sort v).
    + apply perm_skip. exact IH.
    + apply insert_perm.
Qed.

Lemma insert_sorted e v :
  StronglySorted (fun a b => entry_lt b a = false) v ->
  StronglySorted (fun a b => entry_lt b a = false) (insert e v).
Proof.
  induction v as [|a v IH]; intros Hs; simpl.
  - constructor; [constructor | constructor].
  - inversion Hs as [|? ? Hv Ha]; subst.
    destruct (entry_lt a e) eqn:Hae; unfold entry_lt in *.
    + constructor.
      * apply IH. exact Hv.
      * apply Forall_forall. intros b Hb.
        apply (Permutation_in _ (Permutation_sym (insert_perm e v))) in Hb.
        destruct Hb as [<- | Hb].
        -- apply Z.ltb_ge. apply Z.ltb_lt in Hae. lia.
        -- rewrite Forall_forall in Ha. apply Ha. exact Hb.
    + constructor.
      * exact Hs.
      * constructor.
        -- apply Z.ltb_ge. apply Z.ltb_ge in Hae. lia.
        -- apply Forall_forall. intros b Hb.
           rewrite Forall_forall in Ha. specialize (Ha b Hb). simpl in Ha.
           apply Z.ltb_ge. apply Z.ltb_ge in Ha. apply Z.ltb_ge in Hae. lia.
Qed.

Lemma insertion_sort_sorted v :
  StronglySorted (fun a b => entry_lt b a = false) (insertion_sort v).
Proof.
  induction v as [|e v IH]; simpl.
  - constructor.
  - apply insert_sorted. exact IH.
Qed.

#[export] Instance insertion : IndexSort := {|
  sort := insertion_sort;
  sort_perm := insertion_sort_perm;
  sort_sorted := insertion_sort_sorted
|}.

End InsertionSort.

(** * The passes, on lists *)

(** ** Runs of equal key, on lists *)

Section Blocks.

Context {A : Type} (key : A -> Z).

(** The maximal blocks of adjacent elements with one key. *)
Fixpoint blocks (v : list A) : list (list A) :=
  match v with
  | [] => []
  | a :: v' =>
      match blocks v' with
      | (b :: bl) :: bs =>
          if key a =? key b then (a :: b :: bl) :: bs
          else [a] :: (b :: bl) :: bs
      | _ => [[a]]
      end
  end.

(** The elements at the front of [v] whose key is [k]. *)
Fixpoint same_prefix (k : Z) (v : list A) : list A :=
  match v with
  | a :: v' => if key a =? k then a :: same_prefix k v' else []
  | [] => []
  end.

(** The key of a block: that of its first element. *)
Definition block_key (b : list A) : Z :=
  match b with
  | a :: _ => key a
  | [] => 0
  end.

(** The keys of [v] without adjacent repetitions. *)
Fixpoint ukeys (v : list A) : list Z :=
  match v with
  | [] => []
  | a :: v' =>
      match v' with
      | b :: _ => if key a =? key b then ukeys v' else key a :: ukeys v'
      | [] => [key a]
      end
  end.

Definition has_key (k : Z) (a : A) : bool := key a =? k.

Definition key_sorted (v : list A) : Prop :=
  StronglySorted (fun a b => key a <= key b) v.

Lemma blocks_cons_split a v :
  blocks (a :: v) =
  (a :: same_prefix (key a) v) ::
  blocks (skipn (length (same_prefix (key a) v)) v).
Proof.
  revert a. induction v as [|b v IH]; intros a.
  - reflexivity.
  - change (blocks (a :: b :: v)) with
      (match blocks (b :: v) with
       | (x :: bl) :: bs =>
           if key a =? key x then (a :: x :: bl) :: bs
           else [a] :: (x :: bl) :: bs
       | _ => [[a]]
       end).
    rewrite (IH b). simpl same_prefix.
    rewrite (Z.eqb_sym (key b) (key a)).
    destruct (key a =? key b) eqn:E.
    + apply Z.eqb_eq in E. rewrite E. reflexivity.
    + simpl. rewrite <- (IH b). reflexivity.
Qed.

Lemma concat_blocks v : concat (blocks v) = v.
Proof.
  induction v as [|a v IH]; [reflexivity|].
  simpl. destruct (blocks v) as [|[|b bl] bs] eqn:E.
  - simpl in IH. subst v. reflexivity.
  - simpl in IH. simpl.
    assert (H : blocks v <> [] :: bs).
    { clear. induction v as [|a v IH]; [discriminate|].
      simpl. destruct (blocks v) as [|[|b bl] bs']; try discriminate.
      destruct (key a =? key b); discriminate. }
    congruence.
  - destruct (key a =? key b); simpl in *; rewrite IH; reflexivity.
Qed.

Lemma ukeys_in k v : In k (ukeys v) <-> exists a, In a v /\ key a = k.
Proof.
  induction v as [|a v IH].
  - simpl. split; [tauto | intros (? & [] & _)].
  - change (ukeys (a :: v)) with
      (match v with
       | b :: _ => if key a =? key b then ukeys v else key a :: ukeys v
       | [] => [key a]
       end).
    destruct v as [|b v].
    + simpl. split.
      * intros [<- | []]. exists a. auto.
      * intros (x & [<- | []] & <-). auto.
    + destruct (key a =? key b) eqn:E.
      * rewrite IH. apply Z.eqb_eq in E. split.
        -- intros (x & Hx & <-). exists x. split; [right; exact Hx | reflexivity].
        -- intros (x & [<- | Hx] & <-).
           ++ exists b. split; [left; reflexivity | symmetry; exact E].
           ++ exists x. split; [exact Hx | reflexivity].
      * split.
        -- intros [<- | H].
           ++ exists a. split; [left; reflexivity | reflexivity].
           ++ apply IH in H. destruct H as (x & Hx & <-).
              exists x. split; [right; exact Hx | reflexivity].
        -- intros (x & [<- | Hx] & <-).
           ++ left. reflexivity.
           ++ right. apply IH. exists x. split; [exact Hx | reflexivity].
Qed.

Lemma key_sorted_inv a v :
  key_sorted (a :: v) -> key_sorted v /\ forall b, In b v -> key a <= key b.
Proof.
  intros H. inversion H as [|? ? Hv Ha]; subst.
  split; [exact Hv | apply Forall_forall; exact Ha].
Qed.

Lemma ukeys_lower_bound a v k :
  key_sorted (a :: v) -> In k (ukeys v) -> key a <= k.
Proof.
  intros H Hk. apply ukeys_in in Hk. destruct Hk as (x & Hx & <-).
  apply key_sorted_inv in H. apply H. exact Hx.
Qed.

Lemma ukeys_strictly_sorted v :
  key_sorted v -> StronglySorted Z.lt (ukeys v).
Proof.
  induction v as [|a v IH]; intros Hs.
  - constructor.
  - change (ukeys (a :: v)) with
      (match v with
       | b :: _ => if key a =? key b then ukeys v else key a :: ukeys v
       | [] => [key a]
       end).
    destruct (key_sorted_inv _ _ Hs) as [Hv Ha].
    destruct v as [|b v].
    + constructor; constructor.
    + destruct (key a =? key b) eqn:E.
      * apply IH. exact Hv.
      * constructor.
        -- apply IH. exact Hv.
        -- apply Forall_forall. intros k Hk.
           apply Z.eqb_neq in E.
           assert (key b <= k) by
             (apply ukeys_in in Hk; destruct Hk as (x & Hx & <-);
              destruct Hx as [<- | Hx]; [lia |];
              apply (key_sorted_inv _ _ Hv); exact Hx).
           assert (key a <= key b) by (apply Ha; left; reflexivity).
           lia.
Qed.

Lemma filter_none (f : A -> bool) v :
  (forall a, In a v -> f a = false) -> filter f v = [].
Proof.
  induction v as [|a v IH]; intros H; [reflexivity|].
  simpl. rewrite (H a (or_introl eq_refl)). apply IH.
  intros b Hb. apply H. right. exact Hb.
Qed.

Lemma filter_has_key_cons k a v :
  filter (has_key k) (a :: v) =
  if key a =? k then a :: filter (has_key k) v else filter (has_key k) v.
Proof. reflexivity. Qed.

(** On a list sorted by key, the blocks are the classes of the keys, in the
    order of the keys. *)
Lemma blocks_sorted v :
  key_sorted v ->
  blocks v = map (fun k => filter (has_key k) v) (ukeys v).
Proof.
  induction v as [|a v IH]; intros Hs; [reflexivity|].
  destruct (key_sorted_inv _ _ Hs) as [Hv Ha].
  specialize (IH Hv).
  change (ukeys (a :: v)) with
      (match v with
       | b :: _ => if key a =? key b then ukeys v else key a :: ukeys v
       | [] => [key a]
       end).
  simpl blocks.
  destruct v as [|b v].
  - simpl. unfold has_key. rewrite Z.eqb_refl. reflexivity.
  - assert (Hu : exists ks, ukeys (b :: v) = key b :: ks).
    { clear. revert b. induction v as [|c v IH]; intros b.
      - exists []. reflexivity.
      - change (ukeys (b :: c :: v)) with
          (if key b =? key c then ukeys (c :: v) else key b :: ukeys (c :: v)).
        destruct (key b =? key c) eqn:E.
        + apply Z.eqb_eq in E. rewrite E. apply IH.
        + eexists. reflexivity. }
    destruct Hu as (ks & Hu).
    assert (Hks : forall k, In k ks -> key b < k).
    { pose proof (ukeys_strictly_sorted _ Hv) as Hss. rewrite Hu in Hss.
      inversion Hss as [|? ? _ Hall]; subst.
      apply Forall_forall. exact Hall. }
    rewrite IH, Hu.
    cbn [map].
    assert (Hb : filter (has_key (key b)) (b :: v) = b :: filter (has_key (key b)) v).
    { simpl. unfold has_key at 1. rewrite Z.eqb_refl. reflexivity. }
    rewrite Hb.
    assert (Hab : key a <= key b) by (apply Ha; left; reflexivity).
    assert (Hrest : map (fun k => filter (has_key k) (a :: b :: v)) ks =
                    map (fun k => filter (has_key k) (b :: v)) ks).
    { apply map_ext_in. intros k Hk. specialize (Hks k Hk).
      cbn [filter]. unfold has_key at 1.
      destruct (key a =? k) eqn:E; [apply Z.eqb_eq in E; lia | reflexivity]. }
    destruct (key a =? key b) eqn:E.
    + apply Z.eqb_eq in E. cbn [map]. rewrite Hrest. f_equal.
      rewrite (filter_has_key_cons (key b) a), Hb, E, Z.eqb_refl. reflexivity.
    + apply Z.eqb_neq in E. cbn [map]. rewrite Hrest. f_equal.
      * rewrite (filter_has_key_cons (key a) a), Z.eqb_refl. f_equal.
        symmetry. apply filter_none. intros x Hx. unfold has_key.
        apply Z.eqb_neq.
        assert (key b <= key x).
        { destruct Hx as [<- | Hx]; [lia|]. apply (key_sorted_inv _ _ Hv). exact Hx. }
        lia.
      * f_equal.
        rewrite (filter_has_key_cons (key b) a), Hb.
        destruct (key a =? key b) eqn:E'; [apply Z.eqb_eq in E'; lia | reflexivity].
Qed.

Lemma strictly_sorted_ext (l1 l2 : list Z) :
  StronglySorted Z.lt l1 -> StronglySorted Z.lt l2 ->
  (forall k, In k l1 <-> In k l2) -> l1 = l2.
Proof.
  revert l2. induction l1 as [|x l1 IH]; intros l2 H1 H2 Hin.
  - destruct l2 as [|y l2]; [reflexivity|].
    exfalso. apply (proj2 (Hin y)). left. reflexivity.
  - destruct l2 as [|y l2].
    + exfalso. apply (proj1 (Hin x)). left. reflexivity.
    + inversion H1 as [|? ? H1' Hx]; subst.
      inversion H2 as [|? ? H2' Hy]; subst.
      rewrite Forall_forall in Hx, Hy.
      assert (x = y).
      { destruct (proj1 (Hin x) (or_introl eq_refl)) as [E | Hx2]; [auto|].
        destruct (proj2 (Hin y) (or_introl eq_refl)) as [E | Hy1]; [auto|].
        specialize (Hx _ Hy1). specialize (Hy _ Hx2). lia. }
      subst y. f_equal. apply IH; [exact H1' | exact H2' |].
      intros k. split; intros Hk.
      * destruct (proj1 (Hin k) (or_intror Hk)) as [E | H]; [|exact H].
        subst k. specialize (Hx _ Hk). lia.
      * destruct (proj2 (Hin k) (or_intror Hk)) as [E | H]; [|exact H].
        subst k. specialize (Hy _ Hk). lia.
Qed.

Lemma filter_has_key_block_key k v :
  In k (ukeys v) -> block_key (filter (has_key k) v) = k.
Proof.
  intros Hk. apply ukeys_in in Hk. destruct Hk as (a & Ha & Hka).
  assert (Hin : In a (filter (has_key k) v)).
  { apply filter_In. split; [exact Ha | apply Z.eqb_eq; exact Hka]. }
  destruct (filter (has_key k) v) as [|x l] eqn:E; [destruct Hin|].
  assert (Hx : In x (filter (has_key k) v)) by (rewrite E; left; reflexivity).
  apply filter_In in Hx. destruct Hx as [_ Hx]. apply Z.eqb_eq in Hx. exact Hx.
Qed.

Lemma block_keys_sorted v :
  key_sorted v -> map block_key (blocks v) = ukeys v.
Proof.
  intros Hs. rewrite (blocks_sorted v Hs), map_map.
  rewrite <- (map_id (ukeys v)) at 2.
  apply map_ext_in. intros k Hk. apply filter_has_key_block_key. exact Hk.
Qed.

(** Every block of a sorted list is the class of its key. *)
Lemma block_is_class v b :
  key_sorted v -> In b (blocks v) ->
  In (block_key b) (ukeys v) /\ b = filter (has_key (block_key b)) v.
Proof.
  intros Hs Hb. rewrite (blocks_sorted v Hs) in Hb.
  apply in_map_iff in Hb. destruct Hb as (k & <- & Hk).
  rewrite (filter_has_key_block_key k v Hk). split; [exact Hk | reflexivity].
Qed.

Lemma class_is_block v k :
  key_sorted v -> In k (ukeys v) -> In (filter (has_key k) v) (blocks v).
Proof.
  intros Hs Hk. rewrite (blocks_sorted v Hs).
  apply in_map_iff. exists k. split; [reflexivity | exact Hk].
Qed.

Lemma filter_permutation (f : A -> bool) v v' :
  Permutation v v' -> Permutation (filter f v) (filter f v').
Proof.
  induction 1 as [| x l l' _ IH | x y l | l l' l'' _ IH1 _ IH2]; simpl.
  - apply perm_nil.
  - destruct (f x); [apply perm_skip|]; exact IH.
  - destruct (f x), (f y); try apply Permutation_refl. apply perm_swap.
  - apply perm_trans with (filter f l'); assumption.
Qed.

Lemma ukeys_permutation v v' :
  key_sorted v -> key_sorted v' -> Permutation v v' -> ukeys v = ukeys v'.
Proof.
  intros Hs Hs' Hp.
  apply strictly_sorted_ext; try (apply ukeys_strictly_sorted; assumption).
  intros k. rewrite !ukeys_in. split; intros (a & Ha & Hk); exists a; split; auto.
  - apply (Permutation_in _ Hp). exact Ha.
  - apply (Permutation_in _ (Permutation_sym Hp)). exact Ha.
Qed.

End Blocks.

(** ** Vectors *)

Lemma vec_size_app {A : Type} (u v : list A) : vec_size (u ++ v) = vec_size u + vec_size v.
Proof. unfold vec_size. rewrite length_app. lia. Qed.

Lemma vec_size_cons {A : Type} (a : A) (v : list A) : vec_size (a :: v) = 1 + vec_size v.
Proof. unfold vec_size. simpl length. lia. Qed.

Lemma vec_size_nil {A : Type} : vec_size (@nil A) = 0.
Proof. reflexivity. Qed.

Lemma vec_size_nonneg {A : Type} (v : list A) : 0 <= vec_size v.
Proof. unfold vec_size. lia. Qed.

Lemma vec_get_middle {A : Type} (pre post : list A) (a : A) :
  vec_get (pre ++ a :: post) (vec_size pre) = Some a.
Proof.
  unfold vec_get, vec_size.
  destruct (Z.of_nat (length pre) <? 0) eqn:E; [apply Z.ltb_lt in E; lia|].
  rewrite Nat2Z.id, nth_error_app2, Nat.sub_diag by lia. reflexivity.
Qed.

Lemma vec_get_range {A : Type} (v : list A) (i : Z) (a : A) :
  vec_get v i = Some a -> 0 <= i < vec_size v.
Proof.
  unfold vec_get, vec_size. destruct (i <? 0) eqn:E; [discriminate|].
  intros H. apply Z.ltb_ge in E.
  assert (Z.to_nat i < length v)%nat by (apply nth_error_Some; congruence).
  lia.
Qed.


Lemma vec_get_some {A : Type} (v : list A) (i : Z) :
  0 <= i < vec_size v -> exists a, vec_get v i = Some a.
Proof.
  unfold vec_get, vec_size. intros H.
  destruct (i <? 0) eqn:E; [apply Z.ltb_lt in E; lia|].
  destruct (nth_error v (Z.to_nat i)) as [a|] eqn:Hn; [exists a; reflexivity|].
  apply nth_error_None in Hn. lia.
Qed.

Lemma subscript_middle {A : Type} who (pre post : list A) (a : A) :
  subscript who (pre ++ a :: post) (vec_size pre) = Ok a.
Proof. unfold subscript. rewrite vec_get_middle. reflexivity. Qed.

Lemma vec_set_middle {A : Type} (pre post : list A) (a b : A) :
  vec_set (pre ++ a :: post) (length pre) b = pre ++ b :: post.
Proof. induction pre as [|x pre IH]; simpl; [reflexivity | rewrite IH; reflexivity]. Qed.

Lemma store_middle {A : Type} who (pre post : list A) (a b : A) :
  store who (pre ++ a :: post) (vec_size pre) b = Ok (pre ++ b :: post).
Proof.
  unfold store. rewrite vec_get_middle. unfold vec_size.
  rewrite Nat2Z.id, vec_set_middle. reflexivity.
Qed.

Create Rewrite HintDb vsize.
#[local] Hint Rewrite @vec_size_app @vec_size_cons @vec_size_nil : vsize.

Ltac vsize_nonneg :=
  repeat match goal with
  | |- context [vec_size ?v] =>
      lazymatch goal with
      | _ : 0 <= vec_size v |- _ => fail
      | _ => pose proof (vec_size_nonneg v)
      end
  | _ : context [vec_size ?v] |- _ =>
      lazymatch goal with
      | _ : 0 <= vec_size v |- _ => fail
      | _ => pose proof (vec_size_nonneg v)
      end
  end.

Ltac vsize := autorewrite with vsize in *; vsize_nonneg; try lia.

Section Scan.

Abbreviation entry := cloud_point_index_idx (only parsing).

(** The pairs (first, last) of the blocks [bs] laid out from position
    [pos], for the blocks that hold at least [min_points] entries. *)
Definition survives (min_points : Z) (b : list entry) : bool :=
  vec_size b >=? min_points.

Fixpoint runs_from (min_points pos : Z) (bs : list (list entry)) : list (Z * Z) :=
  match bs with
  | [] => []
  | b :: bs' =>
      let last := pos + vec_size b in
      (if survives min_points b then [(pos, last)] else [])
        ++ runs_from min_points last bs'
  end.

Lemma same_prefix_split (k : Z) (v : list entry) :
  same_prefix idx k v ++ skipn (length (same_prefix idx k v)) v = v.
Proof.
  induction v as [|a v IH]; [reflexivity|].
  simpl. destruct (idx a =? k); simpl; [rewrite IH|]; reflexivity.
Qed.

Lemma run_end_spec (iv : list entry) :
  vec_size iv < 2 ^ 32 ->
  forall todo done pre e fuel,
    iv = pre ++ e :: done ++ todo ->
    (length todo < fuel)%nat ->
    run_end fuel iv (vec_size pre) (vec_size pre + 1 + vec_size done) =
    Ok (vec_size pre + 1 + vec_size done + vec_size (same_prefix idx (idx e) todo)).
Proof.
  intros Hsz. induction todo as [|a todo IH]; intros done pre e fuel Hiv Hfuel.
  - destruct fuel as [|fuel]; [simpl in Hfuel; lia|].
    simpl run_end.
    assert (vec_size iv = vec_size pre + 1 + vec_size done).
    { rewrite Hiv. vsize. }
    destruct (_ <? vec_size iv) eqn:E; [apply Z.ltb_lt in E; lia|].
    simpl same_prefix. f_equal. vsize.
  - destruct fuel as [|fuel]; [simpl in Hfuel; lia|].
    simpl run_end.
    assert (Hlen : vec_size iv = vec_size pre + 1 + vec_size done + 1 + vec_size todo).
    { rewrite Hiv. vsize. }
    pose proof (vec_size_nonneg todo) as Ht.
    pose proof (vec_size_nonneg pre) as Hp.
    pose proof (vec_size_nonneg done) as Hd.
    destruct (_ <? vec_size iv) eqn:E; [|apply Z.ltb_ge in E; lia].
    assert (Ha : subscript IndexVectorSubscript iv (vec_size pre + 1 + vec_size done) = Ok a).
    { replace (vec_size pre + 1 + vec_size done) with (vec_size (pre ++ e :: done))
        by (rewrite vec_size_app, vec_size_cons; lia).
      replace iv with ((pre ++ e :: done) ++ a :: todo)
        by (rewrite Hiv, <- app_assoc; reflexivity).
      apply subscript_middle. }
    assert (He : subscript IndexVectorSubscript iv (vec_size pre) = Ok e).
    { rewrite Hiv. apply subscript_middle. }
    rewrite Ha, He. simpl bind. simpl same_prefix.
    destruct (idx a =? idx e) eqn:Eae.
    + rewrite u32_small by lia.
      replace (vec_size pre + 1 + vec_size done + 1)
        with (vec_size pre + 1 + vec_size (done ++ [a])) by vsize.
      rewrite (IH (done ++ [a]) pre e fuel).
      * f_equal. vsize.
      * rewrite Hiv, <- app_assoc. reflexivity.
      * simpl in Hfuel. lia.
    + f_equal. vsize.
Qed.

Lemma third_pass_spec (iv : list entry) (min_points : Z) :
  vec_size iv < 2 ^ 32 ->
  forall n rest pre fuel total acc,
    (length rest <= n)%nat ->
    iv = pre ++ rest ->
    (length rest < fuel)%nat ->
    total = vec_size acc ->
    vec_size acc <= vec_size pre ->
    third_pass fuel iv min_points (vec_size pre) total acc =
    Ok (vec_size (acc ++ runs_from min_points (vec_size pre) (blocks idx rest)),
        acc ++ runs_from min_points (vec_size pre) (blocks idx rest)).
Proof.
  intros Hsz. induction n as [|n IH]; intros rest pre fuel total acc Hn Hiv Hfuel Htot Hacc.
  - destruct rest; [|simpl in Hn; lia].
    destruct fuel as [|fuel]; [simpl in Hfuel; lia|].
    simpl third_pass. rewrite app_nil_r in Hiv. subst iv.
    rewrite Z.ltb_irrefl. simpl. rewrite app_nil_r. subst total. reflexivity.
  - destruct rest as [|e rest0].
    + destruct fuel as [|fuel]; [simpl in Hfuel; lia|].
      simpl third_pass. rewrite app_nil_r in Hiv. subst iv.
      rewrite Z.ltb_irrefl. simpl. rewrite app_nil_r. subst total. reflexivity.
    + destruct fuel as [|fuel]; [simpl in Hfuel; lia|].
      pose proof (vec_size_nonneg pre) as Hp.
      pose proof (vec_size_nonneg rest0) as Hr.
      pose proof (vec_size_nonneg acc) as Hacc0.
      assert (Hlen : vec_size iv = vec_size pre + 1 + vec_size rest0).
      { rewrite Hiv, vec_size_app, vec_size_cons. lia. }
      cbn [third_pass].
      destruct (vec_size pre <? vec_size iv) eqn:E; [|apply Z.ltb_ge in E; lia].
      rewrite u32_small by lia.
      pose proof (run_end_spec iv Hsz rest0 [] pre e (S (length iv))) as Hrun.
      rewrite vec_size_nil, Z.add_0_r in Hrun. rewrite Hrun; clear Hrun.
      2:{ exact Hiv. }
      2:{ rewrite Hiv, length_app. simpl. lia. }
      cbn [bind].
      set (sp := same_prefix idx (idx e) rest0).
      set (rest' := skipn (length sp) rest0).
      assert (Hsplit : rest0 = sp ++ rest') by (symmetry; apply same_prefix_split).
      assert (Hsp : vec_size rest0 = vec_size sp + vec_size rest').
      { rewrite Hsplit at 1. apply vec_size_app. }
      pose proof (vec_size_nonneg sp) as Hsp0.
      pose proof (vec_size_nonneg rest') as Hr0.
      rewrite (blocks_cons_split idx e rest0). fold sp. fold rest'.
      cbn [runs_from]. unfold survives at 1 2.
      replace (vec_size pre + 1 + vec_size sp - vec_size pre) with (vec_size (e :: sp))
        by (rewrite vec_size_cons; lia).
      rewrite (u32_small (vec_size (e :: sp))) by (rewrite vec_size_cons; lia).
      replace (vec_size pre + 1 + vec_size sp) with (vec_size (pre ++ e :: sp))
        by (rewrite vec_size_app, vec_size_cons; lia).
      replace (vec_size pre + vec_size (e :: sp)) with (vec_size (pre ++ e :: sp))
        by (rewrite vec_size_app; lia).
      assert (Hiv' : iv = (pre ++ e :: sp) ++ rest').
      { rewrite Hiv, Hsplit at 1. rewrite <- app_assoc. reflexivity. }
      assert (Hn' : (length rest' <= n)%nat).
      { assert (length rest0 = length sp + length rest')%nat
          by (rewrite Hsplit at 1; apply length_app).
        simpl in Hn. lia. }
      assert (Hfuel' : (length rest' < fuel)%nat).
      { assert (length rest0 = length sp + length rest')%nat
          by (rewrite Hsplit at 1; apply length_app).
        simpl in Hfuel. lia. }
      destruct (vec_size (e :: sp) >=? min_points).
      * rewrite u32_small by (subst total; lia).
        rewrite (IH rest' (pre ++ e :: sp) fuel (total + 1)
                   (acc ++ [(vec_size pre, vec_size (pre ++ e :: sp))]) Hn' Hiv' Hfuel').
        -- rewrite <- !app_assoc. reflexivity.
        -- vsize.
        -- vsize.
      * rewrite (IH rest' (pre ++ e :: sp) fuel total acc Hn' Hiv' Hfuel' Htot).
        -- reflexivity.
        -- rewrite vec_size_app, vec_size_cons. lia.
Qed.

(** A vector of 2^32 entries or more: the counters of the third pass
    wrap around before they reach its size, and the pass never ends. *)
Lemma run_end_wrapped (iv : list entry) (index : Z) :
  2 ^ 32 <= vec_size iv -> 0 <= index < 2 ^ 32 ->
  forall fuel i, 0 <= i < 2 ^ 32 ->
    run_end fuel iv index i = Diverges \/
    exists i', run_end fuel iv index i = Ok i' /\ 0 <= i' < 2 ^ 32.
Proof.
  intros Hsz Hindex. induction fuel as [|fuel IH]; intros i Hi.
  - left. reflexivity.
  - simpl run_end.
    destruct (i <? vec_size iv) eqn:E; [|apply Z.ltb_ge in E; lia].
    destruct (vec_get_some iv i) as (a & Ha); [lia|].
    destruct (vec_get_some iv index) as (b & Hb); [lia|].
    unfold subscript. rewrite Ha, Hb. simpl bind.
    destruct (idx a =? idx b).
    + apply IH. apply u32_range.
    + right. exists i. split; [reflexivity | exact Hi].
Qed.

Lemma third_pass_wrapped (iv : list entry) (min_points : Z) :
  2 ^ 32 <= vec_size iv ->
  forall fuel index total acc, 0 <= index < 2 ^ 32 ->
    third_pass fuel iv min_points index total acc = Diverges.
Proof.
  intros Hsz. induction fuel as [|fuel IH]; intros index total acc Hindex.
  - reflexivity.
  - cbn [third_pass].
    destruct (index <? vec_size iv) eqn:E; [|apply Z.ltb_ge in E; lia].
    destruct (run_end_wrapped iv index Hsz Hindex (S (length iv)) (u32 (index + 1)))
      as [Hd | (i' & Hi' & Hrange)]; [apply u32_range | |].
    + rewrite Hd. reflexivity.
    + rewrite Hi'. cbn [bind].
      destruct (u32 (i' - index) >=? min_points); apply IH; exact Hrange.
Qed.

End Scan.

(** ** The clusters of the fourth pass *)

Section Build.

Context {PointT : Type}.
Variable cloud : PointCloud PointT.

Abbreviation entry := cloud_point_index_idx (only parsing).

(** The source point an entry refers to. *)
Definition point_of (e : entry) : option PointT :=
  vec_get (points cloud) (cloud_point_index e).

Definition points_of (b : list entry) : list PointT :=
  flat_map (fun e => match point_of e with Some p => [p] | None => [] end) b.

(** The cloud built from a run: its points, in the order of the run. *)
Definition cluster_of (b : list entry) : PointCloud PointT :=
  mkCloud (points_of b) true.

Definition refers (e : entry) : Prop := exists p, point_of e = Some p.

(** The writes of the fourth pass to the leaf layout, one per cluster. *)
Fixpoint leaf_layout_writes (save_leaf_layout : bool) (kept : list (list entry))
    (index : Z) (layout : list Z) : outcome (list Z) :=
  match kept with
  | [] => Ok layout
  | b :: kept' =>
      layout' <- (if save_leaf_layout
                  then store LeafLayoutSubscript layout (block_key idx b) (i32 index)
                  else Ok layout) ;;
      leaf_layout_writes save_leaf_layout kept' (u32 (index + 1)) layout'
  end.

Lemma points_of_app b b' : points_of (b ++ b') = points_of b ++ points_of b'.
Proof. unfold points_of. apply flat_map_app. Qed.

Lemma copy_run_spec (iv : list entry) :
  vec_size iv < 2 ^ 32 ->
  forall b pre post cluster,
    iv = pre ++ b ++ post ->
    Forall refers b ->
    copy_run cloud iv (length b) (vec_size pre) cluster =
    Ok (mkCloud (points cluster ++ points_of b) (is_dense cluster)).
Proof.
  intros Hsz. induction b as [|e b IH]; intros pre post cluster Hiv Hb.
  - simpl. rewrite app_nil_r. destruct cluster; reflexivity.
  - apply Forall_cons_iff in Hb. destruct Hb as [(p & Hp) Hb'].
    cbn [length copy_run].
    assert (He : subscript IndexVectorSubscript iv (vec_size pre) = Ok e).
    { rewrite Hiv. apply subscript_middle. }
    rewrite He. cbn [bind].
    unfold subscript at 1. fold (point_of e). rewrite Hp. cbn [bind].
    assert (Hlen : vec_size iv = vec_size pre + 1 + vec_size b + vec_size post).
    { rewrite Hiv. vsize. }
    pose proof (vec_size_nonneg pre). pose proof (vec_size_nonneg b).
    pose proof (vec_size_nonneg post).
    rewrite u32_small by lia.
    replace (vec_size pre + 1) with (vec_size (pre ++ [e])) by vsize.
    rewrite (IH (pre ++ [e]) post (push_back cluster p)).
    + unfold push_back. cbn [points is_dense]. f_equal. f_equal.
      rewrite <- app_assoc. f_equal.
      change (e :: b) with ([e] ++ b). rewrite points_of_app.
      unfold points_of at 2. simpl. rewrite Hp. reflexivity.
    + rewrite Hiv, <- app_assoc. reflexivity.
    + exact Hb'.
Qed.

Lemma fourth_pass_spec (iv : list entry) (save : bool) (min_points : Z) :
  vec_size iv < 2 ^ 32 ->
  Forall refers iv ->
  forall bs pre done index layout,
    iv = pre ++ concat bs ->
    Forall (fun b => b <> []) bs ->
    vec_size done <= vec_size pre ->
    fourth_pass cloud iv save (runs_from min_points (vec_size pre) bs)
      (vec_size done) index
      (done ++ repeat new_PointCloud (length (filter (survives min_points) bs)))
      layout =
    (layout' <- leaf_layout_writes save (filter (survives min_points) bs) index layout ;;
     Ok (done ++ map cluster_of (filter (survives min_points) bs), layout')).
Proof.
  intros Hsz Hvalid. induction bs as [|b bs IH]; intros pre done index layout Hiv Hne Hdone.
  - simpl. rewrite !app_nil_r. reflexivity.
  - apply Forall_cons_iff in Hne. destruct Hne as [Hb Hne'].
    simpl concat in Hiv.
    assert (Hiv' : iv = (pre ++ b) ++ concat bs) by (rewrite Hiv, app_assoc; reflexivity).
    assert (Hlen : vec_size iv = vec_size pre + vec_size b + vec_size (concat bs)).
    { rewrite Hiv. vsize. }
    pose proof (vec_size_nonneg pre). pose proof (vec_size_nonneg b).
    pose proof (vec_size_nonneg (concat bs)). pose proof (vec_size_nonneg done).
    cbn [runs_from filter].
    replace (vec_size pre + vec_size b) with (vec_size (pre ++ b)) by vsize.
    destruct (survives min_points b) eqn:Hs.
    + cbn [app length repeat fourth_pass map leaf_layout_writes].
      rewrite subscript_middle. cbn [bind].
      replace (vec_size (pre ++ b) - vec_size pre) with (vec_size b) by vsize.
      replace (Z.to_nat (vec_size b)) with (length b) by (unfold vec_size; lia).
      rewrite (copy_run_spec iv Hsz b pre (concat bs) new_PointCloud Hiv).
      2:{ rewrite Hiv in Hvalid. apply Forall_app in Hvalid. destruct Hvalid as [_ Hv].
          apply Forall_app in Hv. apply Hv. }
      cbn [bind]. rewrite store_middle. cbn [bind].
      change (mkCloud (points new_PointCloud ++ points_of b) (is_dense new_PointCloud))
        with (cluster_of b).
      destruct b as [|e b]; [congruence|].
      assert (He : subscript IndexVectorSubscript iv (vec_size pre) = Ok e).
      { rewrite Hiv. simpl. apply subscript_middle. }
      rewrite He.
      assert (Hbind : (if save
                       then e0 <- Ok e;; store LeafLayoutSubscript layout (idx e0) (i32 index)
                       else Ok layout) =
                      (if save
                       then store LeafLayoutSubscript layout (block_key idx (e :: b)) (i32 index)
                       else Ok layout)) by reflexivity.
      rewrite Hbind. clear Hbind.
      destruct (if save
                then store LeafLayoutSubscript layout (block_key idx (e :: b)) (i32 index)
                else Ok layout) as [layout' | f |]; cbn [bind]; try reflexivity.
      rewrite u32_small by vsize.
      replace (vec_size done + 1) with (vec_size (done ++ [cluster_of (e :: b)])) by vsize.
      replace (done ++ cluster_of (e :: b) :: repeat new_PointCloud (length (filter (survives min_points) bs)))
        with ((done ++ [cluster_of (e :: b)]) ++ repeat new_PointCloud (length (filter (survives min_points) bs)))
        by (rewrite <- app_assoc; reflexivity).
      rewrite (IH (pre ++ e :: b) (done ++ [cluster_of (e :: b)]) (u32 (index + 1)) layout' Hiv' Hne').
      * rewrite <- app_assoc. reflexivity.
      * vsize.
    + cbn [app]. apply (IH (pre ++ b) done index layout Hiv' Hne'). vsize.
Qed.

End Build.

(** ** The call as a whole *)

Section Whole.

Context {PointT : Type} {point_type : PointType PointT}.
Context {std_sort : IndexSort}.
Variable getMinMax3D : PointCloud PointT -> list Z -> Vector4f * Vector4f.
Variable getMinMax3D_field :
  PointCloud PointT -> list Z -> String.string -> F32.t -> F32.t -> bool ->
  Vector4f * Vector4f.

Abbreviation entry := cloud_point_index_idx (only parsing).
Abbreviation applyPartition' := (applyPartition getMinMax3D getMinMax3D_field) (only parsing).

(** What the first pass does with a candidate point, whichever its place
    in the cloud: it is skipped ([None]) or gets the cell index of its
    entry; with an admission filter the field table is subscripted
    first. *)
Definition classify (this : VoxelGridPartition PointT) (cloud : PointCloud PointT)
    (p : PointT) : outcome (option Z) :=
  let cell := u32 (leaf_index (inverse_leaf_size_ this) (min_b_ this) (divb_mul_ this) p) in
  if negb (is_dense cloud) && negb (point_is_finite p) then Ok None
  else if negb (is_empty (filter_field_name_ this)) then
    field <- subscript FieldsSubscript point_fields
               (getFieldIndex (filter_field_name_ this) point_fields 0) ;;
    if filter_rejects (filter_limit_negative_ this) (filter_limit_min_ this)
         (filter_limit_max_ this) (read_float p (offset field))
    then Ok None
    else Ok (Some cell)
  else Ok (Some cell).

(** The candidate points, in the order of [indices_]. *)
Definition candidates (this : VoxelGridPartition PointT) (cloud : PointCloud PointT)
    : list (option PointT) :=
  map (fun raw => vec_get (points cloud) (i32 raw)) (indices_ this).

(** The points of [ps] the first pass puts in cell [k]. *)
Definition class_points (this : VoxelGridPartition PointT) (cloud : PointCloud PointT)
    (k : Z) (ps : list PointT) : list PointT :=
  flat_map (fun p => match classify this cloud p with
                     | Ok (Some c) => if c =? k then [p] else []
                     | _ => []
                     end) ps.

(** The object and the cloud the first pass works on, when the call gets
    that far. *)
Definition reaches_first_pass (this : VoxelGridPartition PointT)
    : option (VoxelGridPartition PointT * PointCloud PointT) :=
  match input_ this with
  | None => None
  | Some cloud =>
      let (min_p, max_p) := bounding_box getMinMax3D getMinMax3D_field this cloud in
      let inv := inverse_leaf_size_ this in
      if indices_would_overflow
           (candidate_divisions (c0 min_p) (c0 max_p) (c0 inv))
           (candidate_divisions (c1 min_p) (c1 max_p) (c1 inv))
           (candidate_divisions (c2 min_p) (c2 max_p) (c2 inv))
      then None
      else Some (set_grid this min_p max_p, cloud)
  end.

(** The passes after the first, on the [index_vector] it filled. *)
Definition later_passes (this1 : VoxelGridPartition PointT) (cloud : PointCloud PointT)
    (messages : list diagnostic) (index_vector : list entry) : outcome (returned PointT) :=
  let sorted := sort index_vector in
  if vec_size sorted <? 2 ^ 32 then
    let kept := filter (survives (min_points_per_voxel_ this1)) (blocks idx sorted) in
    let layout1 := if save_leaf_layout_ this1
                   then reset_leaf_layout (div_b_ this1) (leaf_layout_ this1)
                   else leaf_layout_ this1 in
    layout2 <- leaf_layout_writes (save_leaf_layout_ this1) kept 0 layout1 ;;
    Ok (mkReturned (set_leaf_layout this1 layout2) (map (cluster_of cloud) kept) messages)
  else Diverges.

(** The loop body of the first pass, for either branch. *)
Definition visit (this : VoxelGridPartition PointT) (cloud : PointCloud PointT) (raw : Z)
    : outcome (option entry) :=
  p <- subscript PointsSubscript (points cloud) (i32 raw) ;;
  c <- classify this cloud p ;;
  Ok (option_map (fun c => mkEntry c (u32 (i32 raw))) c).

Lemma visit_all_classify this cloud raw :
  is_empty (filter_field_name_ this) = true ->
  visit_all cloud (inverse_leaf_size_ this) (min_b_ this) (divb_mul_ this) raw =
  (p <- subscript PointsSubscript (points cloud) (i32 raw) ;;
   c <- classify this cloud p ;;
   Ok (option_map (fun c => mkEntry c (u32 (i32 raw))) c)).
Proof.
  intros He. unfold visit_all, classify. rewrite He.
  destruct (subscript PointsSubscript (points cloud) (i32 raw)) as [p| |]; try reflexivity.
  cbn [bind negb].
  destruct (negb (is_dense cloud) && negb (point_is_finite p)); reflexivity.
Qed.

Lemma visit_filtered_classify this cloud raw :
  is_empty (filter_field_name_ this) = false ->
  visit_filtered cloud (inverse_leaf_size_ this) (min_b_ this) (divb_mul_ this)
    point_fields (getFieldIndex (filter_field_name_ this) point_fields 0)
    (filter_limit_negative_ this) (filter_limit_min_ this) (filter_limit_max_ this) raw =
  (p <- subscript PointsSubscript (points cloud) (i32 raw) ;;
   c <- classify this cloud p ;;
   Ok (option_map (fun c => mkEntry c (u32 (i32 raw))) c)).
Proof.
  intros He. unfold visit_filtered, classify. rewrite He.
  destruct (subscript PointsSubscript (points cloud) (i32 raw)) as [p| |]; try reflexivity.
  cbn [bind negb].
  destruct (negb (is_dense cloud) && negb (point_is_finite p)); [reflexivity|].
  destruct (subscript FieldsSubscript point_fields _) as [f| |]; try reflexivity.
  cbn [bind]. destruct (filter_rejects _ _ _ _); reflexivity.
Qed.

Lemma for_each_index_ext f g its :
  (forall raw, f raw = g raw) -> for_each_index f its = for_each_index g its.
Proof.
  intros H. induction its as [|raw its IH]; [reflexivity|].
  simpl. rewrite H, IH. reflexivity.
Qed.

Lemma first_pass_visit this cloud :
  snd (first_pass this cloud) = for_each_index (visit this cloud) (indices_ this).
Proof.
  unfold first_pass.
  destruct (is_empty (filter_field_name_ this)) eqn:He; cbn [negb snd].
  - apply for_each_index_ext. intros raw. apply visit_all_classify. exact He.
  - apply for_each_index_ext. intros raw. apply visit_filtered_classify. exact He.
Qed.

Lemma visit_some this cloud raw e :
  visit this cloud raw = Ok (Some e) ->
  exists p, vec_get (points cloud) (i32 raw) = Some p /\
            point_of cloud e = Some p /\
            classify this cloud p = Ok (Some (idx e)).
Proof.
  unfold visit, subscript.
  destruct (vec_get (points cloud) (i32 raw)) as [p|] eqn:Hp; [|discriminate].
  cbn [bind].
  destruct (classify this cloud p) as [[c|]| |] eqn:Hc; try discriminate.
  cbn [bind option_map]. intros H. injection H as <-.
  exists p. split; [reflexivity|]. split; [|exact Hc].
  unfold point_of. cbn [cloud_point_index].
  rewrite u32_small; [exact Hp|].
  apply vec_get_range in Hp. pose proof (i32_range raw). lia.
Qed.

Lemma visit_none this cloud raw :
  visit this cloud raw = Ok None ->
  exists p, vec_get (points cloud) (i32 raw) = Some p /\
            classify this cloud p = Ok None.
Proof.
  unfold visit, subscript.
  destruct (vec_get (points cloud) (i32 raw)) as [p|] eqn:Hp; [|discriminate].
  cbn [bind].
  destruct (classify this cloud p) as [[c|]| |] eqn:Hc; try discriminate.
  intros _. exists p. split; [reflexivity | exact Hc].
Qed.

(** What the first pass leaves in [index_vector]. *)
Lemma for_each_index_visit this cloud its iv :
  for_each_index (visit this cloud) its = Ok iv ->
  Forall (fun e => exists p, point_of cloud e = Some p /\
                             classify this cloud p = Ok (Some (idx e))) iv /\
  exists ps,
    map (fun raw => vec_get (points cloud) (i32 raw)) its = map Some ps /\
    forall k, points_of cloud (filter (has_key idx k) iv) = class_points this cloud k ps.
Proof.
  revert iv. induction its as [|raw its IH]; intros iv H.
  - simpl in H. injection H as <-. split; [constructor|].
    exists []. split; reflexivity.
  - simpl in H.
    destruct (visit this cloud raw) as [r| |] eqn:Hv; try discriminate.
    cbn [bind] in H.
    destruct (for_each_index (visit this cloud) its) as [iv'| |]; try discriminate.
    cbn [bind] in H. injection H as <-.
    destruct (IH iv' eq_refl) as (Hall & ps & Hps & Hclass).
    destruct r as [e|].
    + destruct (visit_some _ _ _ _ Hv) as (p & Hp & Hpe & Hc).
      split.
      * constructor; [exists p; split; assumption | exact Hall].
      * exists (p :: ps). split; [simpl; rewrite Hp, Hps; reflexivity|].
        intros k. cbn [filter class_points flat_map]. rewrite Hc.
        unfold has_key at 1. fold (class_points this cloud k ps).
        destruct (idx e =? k).
        -- cbn [points_of flat_map]. rewrite Hpe. fold (points_of cloud (filter (has_key idx k) iv')).
           rewrite Hclass. reflexivity.
        -- apply Hclass.
    + destruct (visit_none _ _ _ Hv) as (p & Hp & Hc).
      split; [exact Hall|].
      exists (p :: ps). split; [simpl; rewrite Hp, Hps; reflexivity|].
      intros k. cbn [class_points flat_map]. rewrite Hc. apply Hclass.
Qed.

Lemma runs_from_length min_points pos bs :
  length (runs_from min_points pos bs) = length (filter (survives min_points) bs).
Proof.
  revert pos. induction bs as [|b bs IH]; intros pos; [reflexivity|].
  simpl. rewrite length_app, IH. destruct (survives min_points b); reflexivity.
Qed.

Lemma fresh_clusters_repeat (pc : list (PointCloud PointT)) (n : nat) :
  fresh_clusters pc (Z.of_nat n) = repeat new_PointCloud n.
Proof.
  unfold fresh_clusters, vec_resize. rewrite Nat2Z.id.
  assert (H : forall (v : list (PointCloud PointT)),
             map (fun _ => new_PointCloud) v = repeat (@new_PointCloud PointT) (length v)).
  { induction v as [|a v IH]; simpl; [reflexivity | rewrite IH; reflexivity]. }
  rewrite H. f_equal.
  rewrite length_app, length_firstn, repeat_length. lia.
Qed.

Lemma blocks_nonempty (v : list entry) : Forall (fun b => b <> []) (blocks idx v).
Proof.
  induction v as [|a v IH]; [constructor|].
  simpl. destruct (blocks idx v) as [|[|b bl] bs].
  - constructor; [discriminate | constructor].
  - constructor; [discriminate | constructor].
  - apply Forall_cons_iff in IH. destruct IH as [_ IH].
    destruct (idx a =? idx b).
    + constructor; [discriminate | exact IH].
    + constructor; [discriminate|]. constructor; [discriminate | exact IH].
Qed.

(** The passes after the first compute [later_passes]. *)
Lemma later_passes_run this1 cloud messages iv pc :
  Forall (refers cloud) iv ->
  (let index_vector := sort iv in
   counted <- third_pass (S (length index_vector)) index_vector
                (min_points_per_voxel_ this1) 0 0 [] ;;
   let (total, first_and_last) := counted in
   let pc1 := fresh_clusters pc total in
   let layout1 := if save_leaf_layout_ this1
                  then reset_leaf_layout (div_b_ this1) (leaf_layout_ this1)
                  else leaf_layout_ this1 in
   built <- fourth_pass cloud index_vector (save_leaf_layout_ this1)
              first_and_last 0 0 pc1 layout1 ;;
   let (pc2, layout2) := built in
   Ok (mkReturned (set_leaf_layout this1 layout2) pc2 messages)) =
  later_passes this1 cloud messages iv.
Proof.
  intros Hiv. unfold later_passes. cbv zeta.
  set (sv := sort iv).
  assert (Hsv : Forall (refers cloud) sv).
  { rewrite Forall_forall in *. intros e He. apply Hiv.
    apply (Permutation_in _ (Permutation_sym (sort_perm iv))). exact He. }
  destruct (vec_size sv <? 2 ^ 32) eqn:Hsz.
  - apply Z.ltb_lt in Hsz.
    pose proof (third_pass_spec sv (min_points_per_voxel_ this1) Hsz
                  (length sv) sv [] (S (length sv)) 0 []) as H3.
    specialize (H3 (le_n _) eq_refl (Nat.lt_succ_diag_r _) eq_refl (Z.le_refl _)).
    change (vec_size (@nil cloud_point_index_idx)) with 0 in H3.
    rewrite H3. clear H3.
    cbn [bind app].
    set (bs := blocks idx sv).
    unfold vec_size at 1. rewrite runs_from_length, fresh_clusters_repeat.
    pose proof (fourth_pass_spec cloud sv (save_leaf_layout_ this1)
                  (min_points_per_voxel_ this1) Hsz Hsv bs [] [] 0
                  (if save_leaf_layout_ this1
                   then reset_leaf_layout (div_b_ this1) (leaf_layout_ this1)
                   else leaf_layout_ this1)
                  (eq_sym (concat_blocks idx sv)) (blocks_nonempty sv) (Z.le_refl _)) as H4.
    change (vec_size (@nil cloud_point_index_idx)) with 0 in H4.
    change (vec_size (@nil (PointCloud PointT))) with 0 in H4.
    cbn [app] in H4. fold bs in H4. rewrite H4; clear H4.
    destruct (leaf_layout_writes _ _ _ _); reflexivity.
  - apply Z.ltb_ge in Hsz.
    rewrite (third_pass_wrapped sv (min_points_per_voxel_ this1) Hsz); [reflexivity | lia].
Qed.

Lemma applyPartition_spec this pc :
  applyPartition' this pc =
  match input_ this with
  | None => Ok (mkReturned this [] [NoInputDataset])
  | Some cloud =>
      match reaches_first_pass this with
      | None => Ok (mkReturned this [] [LeafSizeTooSmall])
      | Some (this1, _) =>
          index_vector <- snd (first_pass this1 cloud) ;;
          later_passes this1 cloud (fst (first_pass this1 cloud)) index_vector
      end
  end.
Proof.
  unfold applyPartition, reaches_first_pass.
  destruct (input_ this) as [cloud|]; [|reflexivity].
  destruct (bounding_box getMinMax3D getMinMax3D_field this cloud) as [min_p max_p].
  destruct (indices_would_overflow _ _ _); [reflexivity|].
  destruct (first_pass (set_grid this min_p max_p) cloud) as [messages assigned] eqn:Hfp.
  cbn [fst snd].
  assert (Ha : assigned = snd (first_pass (set_grid this min_p max_p) cloud))
    by (rewrite Hfp; reflexivity).
  destruct assigned as [iv| |]; try reflexivity.
  cbn [bind]. apply later_passes_run.
  rewrite first_pass_visit in Ha. symmetry in Ha.
  apply for_each_index_visit in Ha. destruct Ha as [Hall _].
  eapply Forall_impl; [|exact Hall].
  intros e (p & Hp & _). exists p. exact Hp.
Qed.

End Whole.

(** * Properties of the call *)

(** ** Lists *)

Lemma strongly_sorted_filter_map {A B : Type} (R : B -> B -> Prop) (f : A -> B)
    (g : A -> bool) (l : list A) :
  StronglySorted R (map f l) -> StronglySorted R (map f (filter g l)).
Proof.
  induction l as [|a l IH]; intros H; [constructor|].
  simpl in H. inversion H as [|? ? Hl Ha]; subst.
  simpl. destruct (g a).
  - simpl. constructor; [apply IH; exact Hl|].
    rewrite Forall_forall in *. intros b Hb.
    apply Ha. apply in_map_iff in Hb. destruct Hb as (x & <- & Hx).
    apply in_map. apply filter_In in Hx. apply Hx.
  - apply IH. exact Hl.
Qed.

Lemma strictly_sorted_nodup (l : list Z) : StronglySorted Z.lt l -> NoDup l.
Proof.
  induction 1 as [|a l _ IH Ha]; constructor; [|exact IH].
  intros Hin. rewrite Forall_forall in Ha. specialize (Ha a Hin). lia.
Qed.

Lemma filter_map_swap {A B : Type} (f : A -> B) (g : B -> bool) (l : list A) :
  filter g (map f l) = map f (filter (fun a => g (f a)) l).
Proof.
  induction l as [|a l IH]; [reflexivity|].
  simpl. destruct (g (f a)); simpl; rewrite IH; reflexivity.
Qed.





Lemma Forall2_map_both {A B C : Type} (R : B -> C -> Prop) (f : A -> B) (g : A -> C)
    (l : list A) :
  (forall x, In x l -> R (f x) (g x)) -> Forall2 R (map f l) (map g l).
Proof.
  induction l as [|a l IH]; intros H; [constructor|].
  simpl. constructor; [apply H; left; reflexivity|].
  apply IH. intros x Hx. apply H. right. exact Hx.
Qed.

Lemma Forall2_join {K A B : Type} (R1 : K -> A -> Prop) (R2 : K -> B -> Prop)
    (R : A -> B -> Prop) (ks : list K) (l : list A) (l' : list B) :
  (forall k a b, R1 k a -> R2 k b -> R a b) ->
  Forall2 R1 ks l -> Forall2 R2 ks l' -> Forall2 R l l'.
Proof.
  intros HR H1. revert l'. induction H1 as [|k a ks l Hka _ IH]; intros l' H2.
  - inversion H2. constructor.
  - inversion H2 as [|? b ? l2 Hkb H2']; subst.
    constructor; [exact (HR _ _ _ Hka Hkb) | apply IH; exact H2'].
Qed.

Lemma map_some_inj {A : Type} (l l' : list A) : map Some l = map Some l' -> l = l'.
Proof.
  revert l'. induction l as [|a l IH]; intros [|a' l'] H; try discriminate; [reflexivity|].
  simpl in H. injection H as -> H. f_equal. apply IH. exact H.
Qed.

(** ** Stores *)

Lemma length_vec_set {A : Type} (v : list A) (i : nat) (a : A) :
  length (vec_set v i a) = length v.
Proof.
  revert i. induction v as [|b v IH]; intros i; [reflexivity|].
  destruct i; simpl; [reflexivity | rewrite IH; reflexivity].
Qed.



Lemma store_size {A : Type} who (v v' : list A) (i : Z) (a : A) :
  store who v i a = Ok v' -> vec_size v' = vec_size v.
Proof.
  unfold store. destruct (vec_get v i); [|discriminate].
  intros H. injection H as <-. unfold vec_size. rewrite length_vec_set. reflexivity.
Qed.



(** ** The leaf layout *)

(** [div_b_[0] * div_b_[1] * div_b_[2]] as a [uint32_t]. *)
Lemma layout_size_mod (a b c : Z) : u32 (i32 (i32 (a * b) * c)) = (a * b * c) mod 2 ^ 32.
Proof.
  rewrite u32_i32. unfold u32.
  rewrite <- Zmult_mod_idemp_l.
  change (i32 (a * b) mod 2 ^ 32) with (u32 (i32 (a * b))).
  rewrite u32_i32. unfold u32. rewrite Zmult_mod_idemp_l. reflexivity.
Qed.

Lemma length_reinit (n : nat) (layout : list Z) : length (reinit n layout) = length layout.
Proof.
  revert layout. induction n as [|n IH]; intros [|a layout]; simpl; try reflexivity.
  rewrite IH. reflexivity.
Qed.

Lemma resize_reinit (n : nat) (layout : list Z) :
  firstn n (reinit (Nat.min n (length layout)) layout)
    ++ repeat (-1) (n - length layout) = repeat (-1) n.
Proof.
  revert layout. induction n as [|n IH]; intros layout; [reflexivity|].
  destruct layout as [|a layout].
  - reflexivity.
  - cbn [length Nat.min reinit firstn app Nat.sub repeat].
    rewrite IH. reflexivity.
Qed.

(** Lines 283-291 leave a table of the new size with -1 everywhere,
    whatever it held, when its old size fits an [unsigned int]. *)
Lemma reset_leaf_layout_fresh (div_b : Vector4i) (layout : list Z) :
  vec_size layout < 2 ^ 32 ->
  reset_leaf_layout div_b layout =
  repeat (-1) (Z.to_nat ((c0 div_b * c1 div_b * c2 div_b) mod 2 ^ 32)).
Proof.
  intros Hsz. unfold reset_leaf_layout. cbv zeta.
  rewrite layout_size_mod.
  set (n := (c0 div_b * c1 div_b * c2 div_b) mod 2 ^ 32).
  assert (Hn : 0 <= n < 2 ^ 32) by (apply Z.mod_pos_bound; lia).
  pose proof (vec_size_nonneg layout) as H0.
  rewrite (u32_small (vec_size layout)) by lia.
  replace (Z.to_nat (Z.min n (vec_size layout)))
    with (Nat.min (Z.to_nat n) (length layout)) by (unfold vec_size; lia).
  unfold vec_resize. rewrite length_reinit. apply resize_reinit.
Qed.


(** The writes of the fourth pass keep the size of the table, leave the
    cells of other runs alone, and put at the cell of the run at position
    [j] the value of the counter there. *)
Lemma leaf_layout_writes_size kept index layout layout' :
  leaf_layout_writes true kept index layout = Ok layout' ->
  vec_size layout' = vec_size layout.
Proof.
  revert index layout. induction kept as [|b kept IH]; intros index layout H.
  - simpl in H. injection H as <-. reflexivity.
  - simpl in H.
    destruct (store LeafLayoutSubscript layout (block_key idx b) (i32 index))
      as [layout1| |] eqn:Hs; try discriminate.
    cbn [bind] in H. rewrite (IH _ _ H). apply (store_size _ _ _ _ _ Hs).
Qed.




(** ** Floats up to the sign of zero *)

(** Two floats that are the same, or are both a zero. *)
Definition same_number (x y : F32.t) : Prop :=
  x = y \/ exists s s', x = S754_zero s /\ y = S754_zero s'.

(** Two bounding boxes whose coordinates are the same numbers. *)
Definition same_box (b b' : Vector4f * Vector4f) : Prop :=
  (same_number (c0 (fst b)) (c0 (fst b')) /\
   same_number (c1 (fst b)) (c1 (fst b')) /\
   same_number (c2 (fst b)) (c2 (fst b'))) /\
  (same_number (c0 (snd b)) (c0 (snd b')) /\
   same_number (c1 (snd b)) (c1 (snd b')) /\
   same_number (c2 (snd b)) (c2 (snd b'))).

Ltac order_cases :=
  unfold SFltb, SFcompare;
  repeat match goal with
  | s : bool |- _ => destruct s
  end;
  repeat match goal with
  | |- context [Z.compare ?a ?b] => destruct (Z.compare_spec a b)
  | |- context [Pcompare ?a ?b Eq] => change (Pcompare a b Eq) with (Pos.compare a b)
  | |- context [Pos.compare ?a ?b] => destruct (Pos.compare_spec a b)
  end;
  cbn [CompOpp] in *; try discriminate; try reflexivity; try lia.

Lemma SFltb_irrefl x : SFltb x x = false.
Proof. destruct x as [s|s| |s m e]; order_cases. Qed.

Lemma SFltb_asym x y : SFltb x y = true -> SFltb y x = false.
Proof. destruct x as [s|s| |s m e], y as [s'|s'| |s' m' e']; order_cases. Qed.

Lemma SFleb_trans x y z :
  F32.is_finite x = true -> F32.is_finite y = true -> F32.is_finite z = true ->
  SFltb y x = false -> SFltb z y = false -> SFltb z x = false.
Proof.
  destruct x as [s|s| |s m e], y as [s'|s'| |s' m' e'], z as [s''|s''| |s'' m'' e''];
    cbn [F32.is_finite]; intros Hx Hy Hz; try discriminate; order_cases.
Qed.

Lemma SFleb_antisym x y :
  F32.is_finite x = true -> F32.is_finite y = true ->
  SFltb x y = false -> SFltb y x = false -> same_number x y.
Proof.
  destruct x as [s|s| |s m e], y as [s'|s'| |s' m' e'];
    cbn [F32.is_finite]; intros Hx Hy; try discriminate.
  - intros _ _. right. eauto.
  - order_cases.
  - order_cases.
  - order_cases; intros _ _; left; subst; try reflexivity;
      try (assert (m = m') by lia; subst; reflexivity).
Qed.

(** The sign of a zero does not show in the grid. *)
Lemma cell_bound_same_number a a' inv :
  same_number a a' -> cell_bound a inv = cell_bound a' inv.
Proof.
  intros [-> | (s & s' & -> & ->)]; [reflexivity|].
  destruct inv as [si|si| |si mi ei], s, s'; reflexivity.
Qed.

Lemma candidate_divisions_same_number a a' b b' inv :
  same_number a a' -> same_number b b' ->
  candidate_divisions a b inv = candidate_divisions a' b' inv.
Proof.
  intros [-> | (s & s' & -> & ->)] [-> | (t & t' & -> & ->)].
  - reflexivity.
  - destruct a' as [sa|sa| |sa ma ea], inv as [si|si| |si mi ei], t, t';
      try destruct sa; try destruct si; reflexivity.
  - destruct b' as [sb|sb| |sb mb eb], inv as [si|si| |si mi ei], s, s';
      try destruct sb; try destruct si; reflexivity.
  - destruct inv as [si|si| |si mi ei], s, s', t, t'; try destruct si; reflexivity.
Qed.

Section Properties.

Context {PointT : Type} {point_type : PointType PointT}.
Context {std_sort : IndexSort}.
Variable getMinMax3D : PointCloud PointT -> list Z -> Vector4f * Vector4f.
Variable getMinMax3D_field :
  PointCloud PointT -> list Z -> String.string -> F32.t -> F32.t -> bool ->
  Vector4f * Vector4f.

Abbreviation entry := cloud_point_index_idx (only parsing).
Abbreviation applyPartition' := (applyPartition getMinMax3D getMinMax3D_field) (only parsing).
Abbreviation reaches_first_pass' := (reaches_first_pass getMinMax3D getMinMax3D_field) (only parsing).

(** The runs of the sorted [index_vector] that become clusters. *)
Definition kept_blocks (min_points : Z) (index_vector : list entry) : list (list entry) :=
  filter (survives min_points) (blocks idx (sort index_vector)).

(** The leaf layout the fourth pass starts from. *)
Definition initial_layout (this1 : VoxelGridPartition PointT) : list Z :=
  if save_leaf_layout_ this1
  then reset_leaf_layout (div_b_ this1) (leaf_layout_ this1)
  else leaf_layout_ this1.

(** The first pass puts the candidate [raw] in cell [k]. *)
Definition goes_to (this : VoxelGridPartition PointT) (cloud : PointCloud PointT)
    (k raw : Z) : bool :=
  match vec_get (points cloud) (i32 raw) with
  | Some p =>
      match classify this cloud p with
      | Ok (Some c) => c =? k
      | _ => false
      end
  | None => false
  end.

(** The number of candidates the first pass puts in cell [k]. *)
Definition occupancy (this1 : VoxelGridPartition PointT) (cloud : PointCloud PointT)
    (k : Z) : Z :=
  vec_size (filter (goes_to this1 cloud k) (indices_ this1)).

(** An entry the first pass made: it refers to a point of the cloud by an
    index an [int] holds, and carries the cell of that point. *)
Definition entry_of_pass (this1 : VoxelGridPartition PointT) (cloud : PointCloud PointT)
    (e : entry) : Prop :=
  0 <= cloud_point_index e < 2 ^ 31 /\
  exists p, point_of cloud e = Some p /\ classify this1 cloud p = Ok (Some (idx e)).

Lemma reaches_first_pass_input this this1 cloud :
  reaches_first_pass' this = Some (this1, cloud) ->
  input_ this = Some cloud /\
  this1 = set_grid this (fst (bounding_box getMinMax3D getMinMax3D_field this cloud))
                        (snd (bounding_box getMinMax3D getMinMax3D_field this cloud)).
Proof.
  unfold reaches_first_pass.
  destruct (input_ this) as [cloud0|]; [|discriminate].
  destruct (bounding_box getMinMax3D getMinMax3D_field this cloud0) as [min_p max_p] eqn:Hb.
  destruct (indices_would_overflow _ _ _); [discriminate|].
  intros H. injection H as <- <-. rewrite Hb. split; reflexivity.
Qed.

Lemma sort_size (v : list entry) : vec_size (sort v) = vec_size v.
Proof. unfold vec_size. rewrite <- (Permutation_length (sort_perm v)). reflexivity. Qed.

Lemma sort_key_sorted (v : list entry) : key_sorted idx (sort v).
Proof.
  unfold key_sorted.
  pose proof (sort_sorted v) as H.
  induction H as [|a l _ IH Ha]; constructor; [exact IH|].
  eapply Forall_impl; [|exact Ha].
  intros b Hb. unfold entry_lt in Hb. apply Z.ltb_ge in Hb. exact Hb.
Qed.

(** The call, when it gets to the first pass and returns. *)
Lemma applyPartition_returns this pc r this1 cloud :
  applyPartition' this pc = Ok r ->
  reaches_first_pass' this = Some (this1, cloud) ->
  exists iv layout2,
    for_each_index (visit this1 cloud) (indices_ this1) = Ok iv /\
    vec_size iv < 2 ^ 32 /\
    leaf_layout_writes (save_leaf_layout_ this1)
      (kept_blocks (min_points_per_voxel_ this1) iv) 0 (initial_layout this1) = Ok layout2 /\
    r = mkReturned (set_leaf_layout this1 layout2)
          (map (cluster_of cloud) (kept_blocks (min_points_per_voxel_ this1) iv))
          (fst (first_pass this1 cloud)).
Proof.
  intros Hrun Hreach.
  destruct (reaches_first_pass_input _ _ _ Hreach) as [Hin _].
  rewrite applyPartition_spec, Hin, Hreach in Hrun.
  rewrite first_pass_visit in Hrun.
  destruct (for_each_index (visit this1 cloud) (indices_ this1)) as [iv| |] eqn:Hiv;
    try discriminate.
  cbn [bind] in Hrun. unfold later_passes in Hrun. cbv zeta in Hrun.
  rewrite sort_size in Hrun.
  destruct (vec_size iv <? 2 ^ 32) eqn:Hsz; [|discriminate].
  apply Z.ltb_lt in Hsz.
  fold (kept_blocks (min_points_per_voxel_ this1) iv) in Hrun.
  fold (initial_layout this1) in Hrun.
  destruct (leaf_layout_writes _ _ _ _) as [layout2| |] eqn:Hw; try discriminate.
  cbn [bind] in Hrun. injection Hrun as <-.
  exists iv, layout2. repeat split; auto.
Qed.

(** The converse: the conditions under which the call returns. *)
Lemma applyPartition_runs this pc this1 cloud iv layout2 :
  reaches_first_pass' this = Some (this1, cloud) ->
  for_each_index (visit this1 cloud) (indices_ this1) = Ok iv ->
  vec_size iv < 2 ^ 32 ->
  leaf_layout_writes (save_leaf_layout_ this1)
    (kept_blocks (min_points_per_voxel_ this1) iv) 0 (initial_layout this1) = Ok layout2 ->
  applyPartition' this pc =
  Ok (mkReturned (set_leaf_layout this1 layout2)
        (map (cluster_of cloud) (kept_blocks (min_points_per_voxel_ this1) iv))
        (fst (first_pass this1 cloud))).
Proof.
  intros Hreach Hiv Hsz Hw.
  destruct (reaches_first_pass_input _ _ _ Hreach) as [Hin _].
  rewrite applyPartition_spec, Hin, Hreach, first_pass_visit, Hiv.
  cbn [bind]. unfold later_passes. cbv zeta.
  rewrite sort_size.
  destruct (vec_size iv <? 2 ^ 32) eqn:E; [|apply Z.ltb_ge in E; lia].
  fold (kept_blocks (min_points_per_voxel_ this1) iv).
  fold (initial_layout this1). rewrite Hw. reflexivity.
Qed.

(** *** What the first pass leaves in [index_vector] *)

Lemma visit_entry this cloud raw e :
  visit this cloud raw = Ok (Some e) -> entry_of_pass this cloud e.
Proof.
  intros Hv. destruct (visit_some _ _ _ _ Hv) as (p & Hp & Hpe & Hc).
  split; [|exists p; split; assumption].
  unfold visit, subscript in Hv. rewrite Hp in Hv. cbn [bind] in Hv.
  rewrite Hc in Hv. cbn [bind option_map] in Hv. injection Hv as <-.
  cbn [cloud_point_index].
  apply vec_get_range in Hp. pose proof (i32_range raw).
  rewrite u32_small; lia.
Qed.

Lemma first_pass_entries this cloud its iv :
  for_each_index (visit this cloud) its = Ok iv ->
  Forall (entry_of_pass this cloud) iv.
Proof.
  revert iv. induction its as [|raw its IH]; intros iv H.
  - simpl in H. injection H as <-. constructor.
  - simpl in H.
    destruct (visit this cloud raw) as [r| |] eqn:Hv; try discriminate.
    cbn [bind] in H.
    destruct (for_each_index (visit this cloud) its) as [iv'| |]; try discriminate.
    cbn [bind] in H. injection H as <-.
    specialize (IH iv' eq_refl).
    destruct r as [e|]; [|exact IH].
    constructor; [exact (visit_entry _ _ _ _ Hv) | exact IH].
Qed.

Lemma first_pass_occupancy this cloud its iv k :
  for_each_index (visit this cloud) its = Ok iv ->
  vec_size (filter (has_key idx k) iv) = vec_size (filter (goes_to this cloud k) its).
Proof.
  revert iv. induction its as [|raw its IH]; intros iv H.
  - simpl in H. injection H as <-. reflexivity.
  - simpl in H.
    destruct (visit this cloud raw) as [r| |] eqn:Hv; try discriminate.
    cbn [bind] in H.
    destruct (for_each_index (visit this cloud) its) as [iv'| |]; try discriminate.
    cbn [bind] in H. injection H as <-.
    specialize (IH iv' eq_refl).
    destruct r as [e|].
    + destruct (visit_some _ _ _ _ Hv) as (p & Hp & _ & Hc).
      rewrite filter_has_key_cons. cbn [filter].
      unfold goes_to at 1. rewrite Hp, Hc.
      destruct (idx e =? k); [rewrite !vec_size_cons, IH; reflexivity | exact IH].
    + destruct (visit_none _ _ _ Hv) as (p & Hp & Hc).
      cbn [filter]. unfold goes_to at 1. rewrite Hp, Hc. exact IH.
Qed.

Lemma first_pass_covers this cloud its iv raw p k :
  for_each_index (visit this cloud) its = Ok iv ->
  In raw its ->
  vec_get (points cloud) (i32 raw) = Some p ->
  classify this cloud p = Ok (Some k) ->
  exists e, In e iv /\ idx e = k /\ point_of cloud e = Some p.
Proof.
  revert iv. induction its as [|raw' its IH]; intros iv H Hin Hp Hc; [destruct Hin|].
  simpl in H.
  destruct (visit this cloud raw') as [r| |] eqn:Hv; try discriminate.
  cbn [bind] in H.
  destruct (for_each_index (visit this cloud) its) as [iv'| |]; try discriminate.
  cbn [bind] in H. injection H as <-.
  destruct Hin as [-> | Hin].
  - unfold visit, subscript in Hv. rewrite Hp in Hv. cbn [bind] in Hv.
    rewrite Hc in Hv. cbn [bind option_map] in Hv. injection Hv as <-.
    eexists. split; [left; reflexivity|]. split; [reflexivity|].
    unfold point_of. cbn [cloud_point_index].
    pose proof (vec_get_range _ _ _ Hp). pose proof (i32_range raw).
    rewrite u32_small by lia. exact Hp.
  - destruct (IH iv' eq_refl Hin Hp Hc) as (e & He & Hk & Hpe).
    exists e. split; [|split; assumption].
    destruct r; [right|]; exact He.
Qed.

(** *** The runs kept and their clusters *)

Lemma in_cluster_of (cloud : PointCloud PointT) (b : list entry) (p : PointT) :
  In p (points (cluster_of cloud b)) <-> exists e, In e b /\ point_of cloud e = Some p.
Proof.
  unfold cluster_of, points_of. cbn [points]. rewrite in_flat_map.
  split; intros (e & He & H); exists e; (split; [exact He|]).
  - destruct (point_of cloud e) as [q|]; [|destruct H].
    destruct H as [<- | []]. reflexivity.
  - rewrite H. left. reflexivity.
Qed.

Lemma class_size (iv : list entry) k :
  vec_size (filter (has_key idx k) (sort iv)) = vec_size (filter (has_key idx k) iv).
Proof.
  unfold vec_size. f_equal. symmetry. apply Permutation_length.
  apply filter_permutation. apply sort_perm.
Qed.

Lemma kept_blocks_in min_points (iv b : list entry) :
  In b (kept_blocks min_points iv) <->
  In (block_key idx b) (ukeys idx (sort iv)) /\
  b = filter (has_key idx (block_key idx b)) (sort iv) /\
  survives min_points b = true.
Proof.
  unfold kept_blocks. rewrite filter_In. split.
  - intros [Hb Hs]. destruct (block_is_class idx _ _ (sort_key_sorted iv) Hb) as [Hk Hbk].
    auto.
  - intros (Hk & Hbk & Hs). split; [|exact Hs].
    rewrite Hbk. apply class_is_block; [apply sort_key_sorted | exact Hk].
Qed.

Lemma kept_blocks_keys_sorted min_points (iv : list entry) :
  StronglySorted Z.lt (map (block_key idx) (kept_blocks min_points iv)).
Proof.
  unfold kept_blocks. apply strongly_sorted_filter_map.
  rewrite (block_keys_sorted idx _ (sort_key_sorted iv)).
  apply ukeys_strictly_sorted. apply sort_key_sorted.
Qed.

Lemma kept_block_entry min_points (iv b : list entry) e :
  In b (kept_blocks min_points iv) -> In e b -> In e iv /\ idx e = block_key idx b.
Proof.
  intros Hb He. apply kept_blocks_in in Hb. destruct Hb as (_ & Hbk & _).
  rewrite Hbk in He. apply filter_In in He. destruct He as [He Hk].
  split; [|apply Z.eqb_eq; exact Hk].
  apply (Permutation_in _ (Permutation_sym (sort_perm iv))). exact He.
Qed.

(** The entries of a cell form a kept run when there are enough of them. *)
Lemma kept_blocks_class min_points (iv : list entry) e :
  In e iv ->
  min_points <= vec_size (filter (has_key idx (idx e)) iv) ->
  In (filter (has_key idx (idx e)) (sort iv)) (kept_blocks min_points iv) /\
  In e (filter (has_key idx (idx e)) (sort iv)).
Proof.
  intros He Hs.
  assert (Hes : In e (sort iv)) by (apply (Permutation_in _ (sort_perm iv)); exact He).
  assert (Hin : In e (filter (has_key idx (idx e)) (sort iv))).
  { apply filter_In. split; [exact Hes | apply Z.eqb_refl]. }
  split; [|exact Hin].
  assert (Hk : In (idx e) (ukeys idx (sort iv))).
  { apply ukeys_in. exists e. split; [exact Hes | reflexivity]. }
  unfold kept_blocks. apply filter_In. split.
  - apply class_is_block; [apply sort_key_sorted | exact Hk].
  - unfold survives. rewrite class_size. apply Z.geb_le. exact Hs.
Qed.

(** Every point of a cluster was put by the first pass in the cell of the
    cluster's run. *)
Lemma cluster_point_cell this1 (cloud : PointCloud PointT) min_points
    (iv b : list entry) (p : PointT) :
  Forall (entry_of_pass this1 cloud) iv ->
  In b (kept_blocks min_points iv) ->
  In p (points (cluster_of cloud b)) ->
  classify this1 cloud p = Ok (Some (block_key idx b)).
Proof.
  intros Hall Hb Hp. apply in_cluster_of in Hp. destruct Hp as (e & He & Hpe).
  destruct (kept_block_entry _ _ _ _ Hb He) as [Hiv Hk].
  rewrite Forall_forall in Hall. destruct (Hall e Hiv) as (_ & q & Hq & Hc).
  rewrite Hpe in Hq. injection Hq as <-. rewrite <- Hk. exact Hc.
Qed.

Lemma reaches_first_pass_frame this this1 cloud :
  reaches_first_pass' this = Some (this1, cloud) ->
  indices_ this1 = indices_ this /\
  min_points_per_voxel_ this1 = min_points_per_voxel_ this /\
  save_leaf_layout_ this1 = save_leaf_layout_ this /\
  leaf_layout_ this1 = leaf_layout_ this /\
  inverse_leaf_size_ this1 = inverse_leaf_size_ this /\
  input_ this1 = input_ this.
Proof.
  intros H. destruct (reaches_first_pass_input _ _ _ H) as [_ ->].
  repeat split.
Qed.

(** C1 (as amended): when the call gets to the first pass and returns, a
    candidate point
    the first pass admits (it passes the finiteness check and the admission
    filter, and gets cell [k]) is in at most one output cluster, and it is
    in one exactly when the number of admitted candidates of cell [k] is at
    least [min_points_per_voxel_]; the points of shorter runs are in no
    cluster. *)
Theorem partition_covers_admitted_points_once this pc r this1 cloud raw p k :
  applyPartition' this pc = Ok r ->
  reaches_first_pass' this = Some (this1, cloud) ->
  In raw (indices_ this) ->
  vec_get (points cloud) (i32 raw) = Some p ->
  classify this1 cloud p = Ok (Some k) ->
  (forall i j ci cj,
     nth_error (pc_vector r) i = Some ci -> nth_error (pc_vector r) j = Some cj ->
     In p (points ci) -> In p (points cj) -> i = j) /\
  ((exists c, In c (pc_vector r) /\ In p (points c)) <->
   min_points_per_voxel_ this <= occupancy this1 cloud k).
Proof.
  intros Hrun Hreach Hraw Hp Hc.
  destruct (applyPartition_returns _ _ _ _ _ Hrun Hreach) as (iv & layout2 & Hiv & _ & _ & ->).
  destruct (reaches_first_pass_frame _ _ _ Hreach) as (Hind & Hmin & _).
  pose proof (first_pass_entries _ _ _ _ Hiv) as Hall.
  cbn [pc_vector]. rewrite <- Hmin.
  set (kept := kept_blocks (min_points_per_voxel_ this1) iv).
  assert (Hkey : forall b, In b kept -> In p (points (cluster_of cloud b)) ->
                           block_key idx b = k).
  { intros b Hb Hpb.
    pose proof (cluster_point_cell _ _ _ _ _ _ Hall Hb Hpb) as Hcb.
    rewrite Hc in Hcb. injection Hcb as ->. reflexivity. }
  split.
  - intros i j ci cj Hi Hj Hpi Hpj.
    rewrite nth_error_map in Hi, Hj.
    destruct (nth_error kept i) as [bi|] eqn:Hbi; [|discriminate].
    destruct (nth_error kept j) as [bj|] eqn:Hbj; [|discriminate].
    cbn [option_map] in Hi, Hj. injection Hi as <-. injection Hj as <-.
    pose proof (strictly_sorted_nodup _ (kept_blocks_keys_sorted (min_points_per_voxel_ this1) iv))
      as Hnd.
    fold kept in Hnd.
    apply (proj1 (NoDup_nth_error _) Hnd).
    + rewrite length_map. apply nth_error_Some. congruence.
    + rewrite !nth_error_map, Hbi, Hbj. cbn [option_map]. f_equal.
      rewrite (Hkey bi (nth_error_In _ _ Hbi) Hpi).
      rewrite (Hkey bj (nth_error_In _ _ Hbj) Hpj). reflexivity.
  - unfold occupancy. rewrite <- (first_pass_occupancy _ _ _ _ k Hiv). split.
    + intros (c & Hcin & Hpc). apply in_map_iff in Hcin. destruct Hcin as (b & <- & Hb).
      pose proof (Hkey b Hb Hpc) as Hk.
      apply kept_blocks_in in Hb. destruct Hb as (_ & Hbk & Hs).
      rewrite <- class_size, <- Hk, <- Hbk.
      unfold survives in Hs. apply Z.geb_le. exact Hs.
    + intros Hocc.
      rewrite <- Hind in Hraw.
      destruct (first_pass_covers _ _ _ _ _ _ _ Hiv Hraw Hp Hc) as (e & He & Hk & Hpe).
      rewrite <- Hk in Hocc.
      destruct (kept_blocks_class _ _ _ He Hocc) as [Hb Heb].
      exists (cluster_of cloud (filter (has_key idx (idx e)) (sort iv))).
      split; [apply in_map; exact Hb|].
      apply in_cluster_of. exists e. split; assumption.
Qed.

(** The points of a run whose entries refer to the cloud are the points
    referred to, one per entry and in the order of the run. *)
Lemma points_of_verbatim (cloud : PointCloud PointT) (b : list entry) :
  Forall (refers cloud) b ->
  map Some (points_of cloud b) = map (point_of cloud) b.
Proof.
  induction 1 as [|e b (p & Hp) _ IH]; [reflexivity|].
  unfold points_of. cbn [flat_map map]. rewrite Hp. cbn [app map].
  f_equal. exact IH.
Qed.

(** C7: when the call gets to the first pass and returns, the clusters are,
    in this order, those of the runs of equal cell index of the sorted
    [index_vector] that hold at least [min_points_per_voxel_] entries: the
    cell indices of the runs are strictly ascending, and the points of a
    cluster are the points of the cloud its run refers to, one for each
    entry of the run, unchanged and in the order of the run. *)
Theorem clusters_follow_ascending_cells this pc r this1 cloud :
  applyPartition' this pc = Ok r ->
  reaches_first_pass' this = Some (this1, cloud) ->
  exists iv runs,
    snd (first_pass this1 cloud) = Ok iv /\
    runs = filter (survives (min_points_per_voxel_ this)) (blocks idx (sort iv)) /\
    StronglySorted Z.lt (map (block_key idx) runs) /\
    Forall (fun b => Forall (fun e => idx e = block_key idx b) b) runs /\
    Forall2 (fun b c => map Some (points c) = map (point_of cloud) b) runs (pc_vector r).
Proof.
  intros Hrun Hreach.
  destruct (applyPartition_returns _ _ _ _ _ Hrun Hreach) as (iv & layout2 & Hiv & _ & _ & ->).
  destruct (reaches_first_pass_frame _ _ _ Hreach) as (_ & Hmin & _).
  pose proof (first_pass_entries _ _ _ _ Hiv) as Hall.
  exists iv, (kept_blocks (min_points_per_voxel_ this1) iv).
  split; [rewrite first_pass_visit; exact Hiv|].
  split; [rewrite Hmin; reflexivity|].
  split; [apply kept_blocks_keys_sorted|].
  split.
  - apply Forall_forall. intros b Hb. apply Forall_forall. intros e He.
    apply (kept_block_entry _ _ _ _ Hb He).
  - cbn [pc_vector].
    assert (Hrefers : forall b, In b (kept_blocks (min_points_per_voxel_ this1) iv) ->
                                Forall (refers cloud) b).
    { intros b Hb. apply Forall_forall. intros e He.
      destruct (kept_block_entry _ _ _ _ Hb He) as [Hin _].
      rewrite Forall_forall in Hall. destruct (Hall e Hin) as (_ & p & Hp & _).
      exists p. exact Hp. }
    revert Hrefers. generalize (kept_blocks (min_points_per_voxel_ this1) iv) as bs.
    induction bs as [|b bs IH]; intros Hrefers; [constructor|].
    cbn [map]. constructor.
    + cbn [cluster_of points]. apply points_of_verbatim. apply Hrefers. left. reflexivity.
    + apply IH. intros b' Hb'. apply Hrefers. right. exact Hb'.
Qed.

(** *** Candidates the first pass skips *)

(** Whether a point is skipped does not depend on the grid. *)
Lemma classify_skip_grid this min_p max_p (cloud : PointCloud PointT) (p : PointT) :
  classify (set_grid this min_p max_p) cloud p = Ok None <->
  classify this cloud p = Ok None.
Proof.
  unfold classify. cbn [set_grid filter_field_name_ filter_limit_negative_
                         filter_limit_min_ filter_limit_max_].
  destruct (negb (is_dense cloud) && negb (point_is_finite p)); [tauto|].
  destruct (negb (is_empty (filter_field_name_ this))).
  - destruct (subscript FieldsSubscript point_fields _) as [f| |]; cbn [bind]; try tauto.
    destruct (filter_rejects _ _ _ _); [tauto|].
    split; discriminate.
  - split; discriminate.
Qed.

Lemma first_pass_all_skipped this (cloud : PointCloud PointT) its :
  Forall (fun raw => exists p, vec_get (points cloud) (i32 raw) = Some p /\
                               classify this cloud p = Ok None) its ->
  for_each_index (visit this cloud) its = Ok [].
Proof.
  induction 1 as [|raw its (p & Hp & Hc) _ IH]; [reflexivity|].
  simpl. unfold visit at 1, subscript. rewrite Hp. cbn [bind]. rewrite Hc.
  cbn [bind option_map]. rewrite IH. reflexivity.
Qed.

Lemma sort_nil : sort [] = [].
Proof. apply Permutation_nil. apply sort_perm. Qed.

(** C6: without an input cloud the call returns no cluster, the object as
    it was and the diagnostic; with an input cloud all of whose candidates
    the first pass skips (none at all included) it returns no cluster
    either.  Neither is an error. *)
Theorem nothing_to_partition_is_no_error this pc :
  input_ this = None \/
  (exists cloud, input_ this = Some cloud /\
     Forall (fun raw => exists p, vec_get (points cloud) (i32 raw) = Some p /\
                                  classify this cloud p = Ok None) (indices_ this)) ->
  exists r, applyPartition' this pc = Ok r /\ pc_vector r = [] /\
            (input_ this = None -> self r = this /\ log r = [NoInputDataset]).
Proof.
  intros [Hin | (cloud & Hin & Hall)].
  - exists (mkReturned this [] [NoInputDataset]).
    rewrite applyPartition_spec, Hin. auto.
  - rewrite applyPartition_spec, Hin.
    destruct (reaches_first_pass' this) as [[this1 cloud1]|] eqn:Hreach.
    + destruct (reaches_first_pass_input _ _ _ Hreach) as [Hin1 Hthis1].
      destruct (reaches_first_pass_frame _ _ _ Hreach) as (Hind & _).
      rewrite first_pass_visit, Hind.
      rewrite (first_pass_all_skipped this1 cloud (indices_ this)).
      * cbn [bind]. unfold later_passes. cbv zeta. rewrite sort_nil.
        cbn [vec_size length blocks filter map]. 
        change (Z.of_nat 0 <? 2 ^ 32) with true. cbn [leaf_layout_writes bind].
        eexists. split; [reflexivity|]. split; [reflexivity|].
        intros H. discriminate.
      * eapply Forall_impl; [|exact Hall].
        intros raw (p & Hp & Hc). exists p. split; [exact Hp|].
        rewrite Hthis1. apply classify_skip_grid. exact Hc.
    + eexists. split; [reflexivity|]. split; [reflexivity|].
      intros H. discriminate.
Qed.

(** A candidate with a coordinate that is not finite, in a cloud that is
    not dense. *)
Definition not_finite (cloud : PointCloud PointT) (raw : Z) : bool :=
  match vec_get (points cloud) (i32 raw) with
  | Some p => negb (point_is_finite p)
  | None => false
  end.

Lemma for_each_index_skip visit its (raw : Z) :
  visit raw = Ok None ->
  for_each_index visit (raw :: its) = for_each_index visit its.
Proof.
  intros H. simpl. rewrite H. cbn [bind].
  destruct (for_each_index visit its); reflexivity.
Qed.

(** C8: in a cloud that is not dense, the loop body of the first pass, with
    or without admission filter, skips a candidate with a coordinate that is
    not finite before it reads anything else (an invalid field index is
    not used for it); either loop gives what it gives without those
    candidates; and every point of every cluster returned has finite
    coordinates.  The bounding-box scan is PCL's and not part of this. *)
Theorem non_dense_clouds_skip_non_finite_points this pc (cloud : PointCloud PointT) :
  input_ this = Some cloud ->
  is_dense cloud = false ->
  (forall inv min_b divb_mul fields distance_idx negative lo hi raw p,
     vec_get (points cloud) (i32 raw) = Some p -> point_is_finite p = false ->
     visit_all cloud inv min_b divb_mul raw = Ok None /\
     visit_filtered cloud inv min_b divb_mul fields distance_idx negative lo hi raw
       = Ok None) /\
  (forall inv min_b divb_mul fields distance_idx negative lo hi its,
     let finite_ones := filter (fun raw => negb (not_finite cloud raw)) its in
     for_each_index (visit_all cloud inv min_b divb_mul) its =
     for_each_index (visit_all cloud inv min_b divb_mul) finite_ones /\
     for_each_index
       (visit_filtered cloud inv min_b divb_mul fields distance_idx negative lo hi) its =
     for_each_index
       (visit_filtered cloud inv min_b divb_mul fields distance_idx negative lo hi)
       finite_ones) /\
  (forall r, applyPartition' this pc = Ok r ->
     Forall (fun c => Forall (fun p => point_is_finite p = true) (points c))
       (pc_vector r)).
Proof.
  intros Hin Hdense. split; [|split].
  - intros inv min_b divb_mul fields distance_idx negative lo hi raw p Hp Hfin.
    unfold visit_all, visit_filtered, subscript. rewrite Hp. cbn [bind].
    rewrite Hdense, Hfin. split; reflexivity.
  - intros inv min_b divb_mul fields distance_idx negative lo hi its finite_ones.
    subst finite_ones.
    assert (Hloop : forall visit,
              (forall raw, not_finite cloud raw = true -> visit raw = Ok None) ->
              for_each_index visit its =
              for_each_index visit (filter (fun raw => negb (not_finite cloud raw)) its)).
    { intros visit Hv. induction its as [|raw its IH]; [reflexivity|].
      cbn [filter]. destruct (not_finite cloud raw) eqn:Hnf; cbn [negb].
      - rewrite (for_each_index_skip _ _ _ (Hv raw Hnf)). exact IH.
      - simpl. rewrite IH. reflexivity. }
    split; apply Hloop;
      intros raw Hnf; unfold not_finite in Hnf;
      destruct (vec_get (points cloud) (i32 raw)) as [p|] eqn:Hp; try discriminate;
      unfold visit_all, visit_filtered, subscript; rewrite Hp; cbn [bind];
      rewrite Hdense, Hnf; reflexivity.
  - intros r Hrun.
    destruct (reaches_first_pass' this) as [[this1 cloud1]|] eqn:Hreach.
    + destruct (reaches_first_pass_input _ _ _ Hreach) as [Hin1 _].
      rewrite Hin in Hin1. injection Hin1 as <-.
      destruct (applyPartition_returns _ _ _ _ _ Hrun Hreach)
        as (iv & layout2 & Hiv & _ & _ & ->).
      pose proof (first_pass_entries _ _ _ _ Hiv) as Hall.
      cbn [pc_vector]. apply Forall_forall. intros c Hc.
      apply in_map_iff in Hc. destruct Hc as (b & <- & Hb).
      apply Forall_forall. intros p Hp.
      pose proof (cluster_point_cell _ _ _ _ _ _ Hall Hb Hp) as Hcell.
      unfold classify in Hcell. rewrite Hdense in Hcell. cbn [negb andb] in Hcell.
      destruct (point_is_finite p); [reflexivity | discriminate].
    + rewrite applyPartition_spec, Hin, Hreach in Hrun. injection Hrun as <-.
      constructor.
Qed.


(** C3: with a filter field name the point type does not have, the lookup
    gives -1, the diagnostic is printed, and the first candidate that gets
    past the finiteness check makes the loop subscript [fields] with -1:
    the call has no defined outcome. *)
Theorem invalid_filter_field_name_is_subscripted this pc this1 cloud raw rest p :
  reaches_first_pass' this = Some (this1, cloud) ->
  is_empty (filter_field_name_ this) = false ->
  getFieldIndex (filter_field_name_ this) point_fields 0 = -1 ->
  indices_ this = raw :: rest ->
  vec_get (points cloud) (i32 raw) = Some p ->
  is_dense cloud = true \/ point_is_finite p = true ->
  fst (first_pass this1 cloud) = [InvalidFilterFieldName (-1)] /\
  applyPartition' this pc = Undefined (FieldsSubscript (-1)).
Proof.
  intros Hreach Hname Hidx Hind Hp Hchecked.
  destruct (reaches_first_pass_input _ _ _ Hreach) as [Hin Hthis1].
  assert (Hname1 : filter_field_name_ this1 = filter_field_name_ this)
    by (rewrite Hthis1; reflexivity).
  assert (Hind1 : indices_ this1 = raw :: rest) by (rewrite Hthis1; exact Hind).
  split.
  - unfold first_pass. rewrite Hname1, Hname, Hidx. reflexivity.
  - rewrite applyPartition_spec, Hin, Hreach.
    unfold first_pass. rewrite Hname1, Hname, Hidx, Hind1. cbn [negb snd for_each_index].
    unfold visit_filtered at 1, subscript at 1. rewrite Hp. cbn [bind].
    assert (Hskip : negb (is_dense cloud) && negb (point_is_finite p) = false).
    { destruct Hchecked as [-> | ->]; [reflexivity | apply andb_false_r]. }
    rewrite Hskip. reflexivity.
Qed.

(** *** The number of clusters *)

(** The source point index of the first entry of a run. *)
Definition head_index (b : list entry) : Z :=
  match b with
  | e :: _ => cloud_point_index e
  | [] => 0
  end.

Lemma kept_block_head min_points (iv b : list entry) :
  In b (kept_blocks min_points iv) ->
  exists e, In e iv /\ idx e = block_key idx b /\ cloud_point_index e = head_index b.
Proof.
  intros Hb.
  assert (Hne : b <> []).
  { unfold kept_blocks in Hb. apply filter_In in Hb. destruct Hb as [Hb _].
    pose proof (blocks_nonempty (sort iv)) as Hall.
    rewrite Forall_forall in Hall. apply Hall. exact Hb. }
  destruct b as [|e b]; [congruence|].
  exists e. destruct (kept_block_entry _ _ _ e Hb (or_introl eq_refl)) as [He Hk].
  auto.
Qed.



(** *** The clusters, cell by cell *)

(** The settings two objects share when they are configured alike. *)
Definition same_configuration (this this' : VoxelGridPartition PointT) : Prop :=
  inverse_leaf_size_ this = inverse_leaf_size_ this' /\
  filter_field_name_ this = filter_field_name_ this' /\
  filter_limit_min_ this = filter_limit_min_ this' /\
  filter_limit_max_ this = filter_limit_max_ this' /\
  filter_limit_negative_ this = filter_limit_negative_ this' /\
  min_points_per_voxel_ this = min_points_per_voxel_ this'.

Lemma points_of_length (cloud : PointCloud PointT) (b : list entry) :
  Forall (refers cloud) b -> vec_size (points_of cloud b) = vec_size b.
Proof.
  intros H. unfold vec_size. f_equal.
  rewrite <- (length_map Some), (points_of_verbatim _ _ H). apply length_map.
Qed.

(** The clusters returned are, in ascending order of the cell, those of
    the cells that hold a candidate and at least [min_points_per_voxel_]
    of them; each holds the candidates of its cell, up to their order. *)
Lemma clusters_by_cell this pc r this1 cloud :
  applyPartition' this pc = Ok r ->
  reaches_first_pass' this = Some (this1, cloud) ->
  exists ps cells,
    candidates this cloud = map Some ps /\
    StronglySorted Z.lt cells /\
    (forall k, In k cells <->
       0 < vec_size (class_points this1 cloud k ps) /\
       min_points_per_voxel_ this <= vec_size (class_points this1 cloud k ps)) /\
    Forall2 (fun k c => Permutation (points c) (class_points this1 cloud k ps))
      cells (pc_vector r).
Proof.
  intros Hrun Hreach.
  destruct (applyPartition_returns _ _ _ _ _ Hrun Hreach) as (iv & layout2 & Hiv & _ & _ & ->).
  destruct (reaches_first_pass_frame _ _ _ Hreach) as (Hind & Hmin & _).
  destruct (for_each_index_visit _ _ _ _ Hiv) as (Hall & ps & Hps & Hclass).
  assert (Hrefers : forall f, Forall (refers cloud) (filter f iv)).
  { intros f. apply Forall_forall. intros e He. apply filter_In in He.
    rewrite Forall_forall in Hall. destruct (Hall e (proj1 He)) as (p & Hp & _).
    exists p. exact Hp. }
  assert (Hsize : forall k, vec_size (filter (has_key idx k) iv) =
                            vec_size (class_points this1 cloud k ps)).
  { intros k. rewrite <- Hclass. symmetry. apply points_of_length. apply Hrefers. }
  set (kept := kept_blocks (min_points_per_voxel_ this1) iv).
  exists ps, (map (block_key idx) kept).
  split; [unfold candidates; rewrite <- Hind; exact Hps|].
  split; [apply kept_blocks_keys_sorted|].
  split.
  - intros k. rewrite <- Hsize, <- Hmin. split.
    + intros Hk. apply in_map_iff in Hk. destruct Hk as (b & <- & Hb).
      destruct (kept_block_head _ _ _ Hb) as (e & He & Hk & _).
      apply kept_blocks_in in Hb. destruct Hb as (_ & Hbk & Hs).
      split.
      * assert (Hin : In e (filter (has_key idx (block_key idx b)) iv))
          by (apply filter_In; split; [exact He | apply Z.eqb_eq; exact Hk]).
        destruct (filter (has_key idx (block_key idx b)) iv); [destruct Hin|].
        rewrite vec_size_cons. pose proof (vec_size_nonneg l). lia.
      * rewrite <- class_size, <- Hbk. apply Z.geb_le. exact Hs.
    + destruct (filter (has_key idx k) iv) as [|e l] eqn:Hf; intros [Hpos Hocc];
        [unfold vec_size in Hpos; simpl in Hpos; lia|].
      assert (He : In e (filter (has_key idx k) iv)) by (rewrite Hf; left; reflexivity).
      apply filter_In in He. destruct He as [He Hk]. apply Z.eqb_eq in Hk. subst k.
      rewrite <- Hf in Hocc.
      destruct (kept_blocks_class _ _ _ He Hocc) as [Hb Heb].
      apply in_map_iff. exists (filter (has_key idx (idx e)) (sort iv)).
      split; [|exact Hb].
      apply filter_has_key_block_key. apply ukeys_in. exists e.
      split; [|reflexivity]. apply filter_In in Heb. apply Heb.
  - cbn [pc_vector]. fold kept. apply Forall2_map_both. intros b Hb.
    apply kept_blocks_in in Hb. destruct Hb as (_ & Hbk & _).
    rewrite <- Hclass. cbn [cluster_of points]. rewrite Hbk at 1.
    unfold points_of. apply Permutation_flat_map. apply filter_permutation.
    apply Permutation_sym. apply sort_perm.
Qed.

(** What the theorem on reordering asks of the bounding-box scan, which
    is PCL's: that its result, up to the sign of a zero, does not depend
    on the order of the candidates.  (A minimum and a maximum over
    comparable numbers meet it; [ScanOrder.minmax_ignores_order] shows it
    of the scan of the instance.) *)
Definition scan_ignores_order : Prop :=
  forall (this this' : VoxelGridPartition PointT) (cloud cloud' : PointCloud PointT),
    Permutation (candidates this cloud) (candidates this' cloud') ->
    same_configuration this this' ->
    is_dense cloud = is_dense cloud' ->
    same_box (bounding_box getMinMax3D getMinMax3D_field this cloud)
             (bounding_box getMinMax3D getMinMax3D_field this' cloud').

(** Boxes that are the same up to the sign of zeros trip the guard
    together. *)
Lemma guards_agree this this' cloud cloud' :
  input_ this = Some cloud -> input_ this' = Some cloud' ->
  inverse_leaf_size_ this = inverse_leaf_size_ this' ->
  same_box (bounding_box getMinMax3D getMinMax3D_field this cloud)
           (bounding_box getMinMax3D getMinMax3D_field this' cloud') ->
  (reaches_first_pass' this = None /\ reaches_first_pass' this' = None) \/
  (reaches_first_pass' this =
     Some (set_grid this (fst (bounding_box getMinMax3D getMinMax3D_field this cloud))
                         (snd (bounding_box getMinMax3D getMinMax3D_field this cloud)),
           cloud) /\
   reaches_first_pass' this' =
     Some (set_grid this' (fst (bounding_box getMinMax3D getMinMax3D_field this' cloud'))
                          (snd (bounding_box getMinMax3D getMinMax3D_field this' cloud')),
           cloud')).
Proof.
  intros Hin Hin' Hinv ((H0 & H1 & H2) & (H3 & H4 & H5)).
  unfold reaches_first_pass. rewrite Hin, Hin', <- Hinv.
  destruct (bounding_box getMinMax3D getMinMax3D_field this cloud) as [min_p max_p].
  destruct (bounding_box getMinMax3D getMinMax3D_field this' cloud') as [min_p' max_p'].
  cbn [fst snd] in *.
  rewrite <- (candidate_divisions_same_number _ _ _ _ _ H0 H3).
  rewrite <- (candidate_divisions_same_number _ _ _ _ _ H1 H4).
  rewrite <- (candidate_divisions_same_number _ _ _ _ _ H2 H5).
  destruct (indices_would_overflow _ _ _); [left | right]; split; reflexivity.
Qed.

(** ... and give every point the same cell. *)
Lemma grids_agree this this' (cloud cloud' : PointCloud PointT) box box' p :
  same_configuration this this' ->
  is_dense cloud = is_dense cloud' ->
  same_box box box' ->
  classify (set_grid this (fst box) (snd box)) cloud p =
  classify (set_grid this' (fst box') (snd box')) cloud' p.
Proof.
  intros (Hinv & Hname & Hlo & Hhi & Hneg & _) Hdense ((H0 & H1 & H2) & (H3 & H4 & H5)).
  unfold classify, leaf_index.
  cbn [set_grid inverse_leaf_size_ min_b_ divb_mul_ filter_field_name_
       filter_limit_negative_ filter_limit_min_ filter_limit_max_ c0 c1 c2].
  rewrite <- Hinv, <- Hname, <- Hlo, <- Hhi, <- Hneg, <- Hdense.
  rewrite <- (cell_bound_same_number _ _ (c0 (inverse_leaf_size_ this)) H0).
  rewrite <- (cell_bound_same_number _ _ (c1 (inverse_leaf_size_ this)) H1).
  rewrite <- (cell_bound_same_number _ _ (c2 (inverse_leaf_size_ this)) H2).
  rewrite <- (cell_bound_same_number _ _ (c0 (inverse_leaf_size_ this)) H3).
  rewrite <- (cell_bound_same_number _ _ (c1 (inverse_leaf_size_ this)) H4).
  reflexivity.
Qed.

(** C9: with a bounding-box scan whose result does not depend on the order
    of the candidates (up to the sign of a zero), two calls that return,
    on candidates that are the same up to their order, with the same
    settings and the same [is_dense] flag, give the same number of
    clusters, and the clusters at the same position hold the same points
    up to their order.  Nothing is asked of the two bounding boxes or of
    the guards: both calls stop at the overflow guard or neither does. *)
Theorem reordering_the_candidates_keeps_the_clusters
    this this' pc pc' r r' cloud cloud' :
  scan_ignores_order ->
  input_ this = Some cloud ->
  input_ this' = Some cloud' ->
  Permutation (candidates this cloud) (candidates this' cloud') ->
  same_configuration this this' ->
  is_dense cloud = is_dense cloud' ->
  applyPartition' this pc = Ok r ->
  applyPartition' this' pc' = Ok r' ->
  Forall2 (fun c c' => Permutation (points c) (points c')) (pc_vector r) (pc_vector r').
Proof.
  intros Hscan Hinput Hinput' Hperm Hcfg Hdense Hrun Hrun'.
  pose proof (Hscan this this' cloud cloud' Hperm Hcfg Hdense) as Hbox.
  pose proof Hcfg as (Hinv & _ & _ & _ & _ & Hmin).
  destruct (guards_agree this this' cloud cloud' Hinput Hinput' Hinv Hbox)
    as [[Hnone Hnone'] | [Hreach Hreach']].
  - rewrite applyPartition_spec, Hinput, Hnone in Hrun.
    rewrite applyPartition_spec, Hinput', Hnone' in Hrun'.
    injection Hrun as <-. injection Hrun' as <-. constructor.
  - destruct (clusters_by_cell _ _ _ _ _ Hrun Hreach)
      as (ps & cells & Hps & Hs & Hin & Hall).
    destruct (clusters_by_cell _ _ _ _ _ Hrun' Hreach')
      as (ps' & cells' & Hps' & Hs' & Hin' & Hall').
    assert (Hpp : Permutation ps ps').
    { rewrite Hps, Hps' in Hperm. apply Permutation_map_inv in Hperm.
      destruct Hperm as (l3 & Hl3 & Hp3). apply map_some_inj in Hl3. subst l3.
      apply Permutation_sym. exact Hp3. }
    set (this1 := set_grid this _ _) in *.
    set (this1' := set_grid this' _ _) in *.
    assert (Hcl : forall p, classify this1 cloud p = classify this1' cloud' p)
      by (intros p; apply grids_agree; assumption).
    assert (Hclass : forall k, Permutation (class_points this1 cloud k ps)
                                           (class_points this1' cloud' k ps')).
    { intros k. unfold class_points.
      rewrite (flat_map_ext _ (fun p => match classify this1' cloud' p with
                                        | Ok (Some c) => if c =? k then [p] else []
                                        | _ => []
                                        end)) by (intros p; rewrite Hcl; reflexivity).
      apply Permutation_flat_map. exact Hpp. }
    assert (Hsize : forall k, vec_size (class_points this1 cloud k ps) =
                              vec_size (class_points this1' cloud' k ps')).
    { intros k. unfold vec_size. f_equal. apply Permutation_length. apply Hclass. }
    assert (Hcells : cells = cells').
    { apply strictly_sorted_ext; [exact Hs | exact Hs' |].
      intros k. rewrite Hin, Hin', Hsize, Hmin. reflexivity. }
    subst cells'.
    apply (Forall2_join _ _ _ cells _ _) with (2 := Hall) (3 := Hall').
    intros k c c' Hc Hc'. cbv beta in Hc, Hc'.
    apply (perm_trans Hc). apply (perm_trans (Hclass k)). apply Permutation_sym. exact Hc'.
Qed.

End Properties.

(** * The scan of the instance does not depend on the order *)

Module ScanOrder.

Import XYZI.

(** The points the scan takes into the box. *)
Definition finite_points (cs : list (option PointXYZI)) : list PointXYZI :=
  flat_map (fun c => match c with
                     | Some p => if finite3 p then [p] else []
                     | None => []
                     end) cs.

Lemma scan_box_folds pts its lo hi :
  scan_box pts its lo hi =
  (mkVector4
     (fold_left fmin (map x (finite_points (map (fun it => vec_get pts (i32 it)) its))) (c0 lo))
     (fold_left fmin (map y (finite_points (map (fun it => vec_get pts (i32 it)) its))) (c1 lo))
     (fold_left fmin (map z (finite_points (map (fun it => vec_get pts (i32 it)) its))) (c2 lo))
     (c3 lo),
   mkVector4
     (fold_left fmax (map x (finite_points (map (fun it => vec_get pts (i32 it)) its))) (c0 hi))
     (fold_left fmax (map y (finite_points (map (fun it => vec_get pts (i32 it)) its))) (c1 hi))
     (fold_left fmax (map z (finite_points (map (fun it => vec_get pts (i32 it)) its))) (c2 hi))
     (c3 hi)).
Proof.
  revert lo hi. induction its as [|it its IH]; intros lo hi.
  - destruct lo, hi. reflexivity.
  - cbn [scan_box map]. unfold finite_points. cbn [flat_map].
    fold (finite_points (map (fun it => vec_get pts (i32 it)) its)).
    destruct (vec_get pts (i32 it)) as [p|]; [|apply IH].
    destruct (finite3 p); [|apply IH].
    rewrite IH. reflexivity.
Qed.

(** The least of a list under [SFltb], from a start value. *)
Lemma fold_fmin_least l init :
  Forall (fun v => F32.is_finite v = true) l -> F32.is_finite init = true ->
  In (fold_left fmin l init) (init :: l) /\
  F32.is_finite (fold_left fmin l init) = true /\
  Forall (fun v => SFltb v (fold_left fmin l init) = false) (init :: l).
Proof.
  intros Hl. revert init. induction Hl as [|a l Ha _ IH]; intros init Hinit.
  - simpl. repeat split; [left; reflexivity | exact Hinit |].
    constructor; [apply SFltb_irrefl | constructor].
  - cbn [fold_left].
    assert (Hm : F32.is_finite (fmin init a) = true)
      by (unfold fmin; destruct (SFltb a init); assumption).
    destruct (IH (fmin init a) Hm) as (Hin & Hfin & Hall).
    apply Forall_cons_iff in Hall. destruct Hall as [Hr Hall].
    split; [|split; [exact Hfin|]].
    + destruct Hin as [Hin | Hin]; [|right; right; exact Hin].
      rewrite <- Hin. unfold fmin. destruct (SFltb a init); [right; left | left]; reflexivity.
    + assert (Hbelow : SFltb init (fmin init a) = false /\ SFltb a (fmin init a) = false).
      { unfold fmin. destruct (SFltb a init) eqn:E.
        - split; [apply SFltb_asym; exact E | apply SFltb_irrefl].
        - split; [apply SFltb_irrefl | exact E]. }
      destruct Hbelow as [Hi Ha'].
      constructor; [|constructor; [|exact Hall]].
      * apply (SFleb_trans _ (fmin init a) _ Hfin Hm Hinit Hr Hi).
      * apply (SFleb_trans _ (fmin init a) _ Hfin Hm Ha Hr Ha').
Qed.

Lemma fold_fmax_greatest l init :
  Forall (fun v => F32.is_finite v = true) l -> F32.is_finite init = true ->
  In (fold_left fmax l init) (init :: l) /\
  F32.is_finite (fold_left fmax l init) = true /\
  Forall (fun v => SFltb (fold_left fmax l init) v = false) (init :: l).
Proof.
  intros Hl. revert init. induction Hl as [|a l Ha _ IH]; intros init Hinit.
  - simpl. repeat split; [left; reflexivity | exact Hinit |].
    constructor; [apply SFltb_irrefl | constructor].
  - cbn [fold_left].
    assert (Hm : F32.is_finite (fmax init a) = true)
      by (unfold fmax; destruct (SFltb init a); assumption).
    destruct (IH (fmax init a) Hm) as (Hin & Hfin & Hall).
    apply Forall_cons_iff in Hall. destruct Hall as [Hr Hall].
    split; [|split; [exact Hfin|]].
    + destruct Hin as [Hin | Hin]; [|right; right; exact Hin].
      rewrite <- Hin. unfold fmax. destruct (SFltb init a); [right; left | left]; reflexivity.
    + assert (Habove : SFltb (fmax init a) init = false /\ SFltb (fmax init a) a = false).
      { unfold fmax. destruct (SFltb init a) eqn:E.
        - split; [apply SFltb_asym; exact E | apply SFltb_irrefl].
        - split; [apply SFltb_irrefl | exact E]. }
      destruct Habove as [Hi Ha'].
      constructor; [|constructor; [|exact Hall]].
      * apply (SFleb_trans _ (fmax init a) _ Hinit Hm Hfin Hi Hr).
      * apply (SFleb_trans _ (fmax init a) _ Ha Hm Hfin Ha' Hr).
Qed.

Lemma fold_fmin_permutation l l' init :
  Permutation l l' ->
  Forall (fun v => F32.is_finite v = true) l -> F32.is_finite init = true ->
  same_number (fold_left fmin l init) (fold_left fmin l' init).
Proof.
  intros Hp Hl Hinit.
  assert (Hl' : Forall (fun v => F32.is_finite v = true) l')
    by (apply (Permutation_Forall Hp); exact Hl).
  destruct (fold_fmin_least l init Hl Hinit) as (Hin & Hfin & Hall).
  destruct (fold_fmin_least l' init Hl' Hinit) as (Hin' & Hfin' & Hall').
  rewrite Forall_forall in Hall, Hall'.
  apply SFleb_antisym; [exact Hfin | exact Hfin' | |].
  - apply Hall'. apply (Permutation_in _ (perm_skip init Hp)). exact Hin.
  - apply Hall. apply (Permutation_in _ (perm_skip init (Permutation_sym Hp))). exact Hin'.
Qed.

Lemma fold_fmax_permutation l l' init :
  Permutation l l' ->
  Forall (fun v => F32.is_finite v = true) l -> F32.is_finite init = true ->
  same_number (fold_left fmax l init) (fold_left fmax l' init).
Proof.
  intros Hp Hl Hinit.
  assert (Hl' : Forall (fun v => F32.is_finite v = true) l')
    by (apply (Permutation_Forall Hp); exact Hl).
  destruct (fold_fmax_greatest l init Hl Hinit) as (Hin & Hfin & Hall).
  destruct (fold_fmax_greatest l' init Hl' Hinit) as (Hin' & Hfin' & Hall').
  rewrite Forall_forall in Hall, Hall'.
  apply SFleb_antisym; [exact Hfin | exact Hfin' | |].
  - apply Hall. apply (Permutation_in _ (perm_skip init (Permutation_sym Hp))). exact Hin'.
  - apply Hall'. apply (Permutation_in _ (perm_skip init Hp)). exact Hin.
Qed.

Lemma finite_points_finite cs :
  Forall (fun p => finite3 p = true) (finite_points cs).
Proof.
  apply Forall_forall. intros p Hp. unfold finite_points in Hp.
  apply in_flat_map in Hp. destruct Hp as ([q|] & _ & Hq); [|destruct Hq].
  destruct (finite3 q) eqn:E; [|destruct Hq].
  destruct Hq as [<- | []]. exact E.
Qed.

(** The box of two lists of candidates that are the same up to their
    order: the same up to the sign of zeros. *)
Lemma scan_box_permutation pts pts' its its' :
  Permutation (map (fun it => vec_get pts (i32 it)) its)
              (map (fun it => vec_get pts' (i32 it)) its') ->
  same_box
    (scan_box pts its
       (mkVector4 FLT_MAX FLT_MAX FLT_MAX FLT_MAX)
       (mkVector4 (SFopp FLT_MAX) (SFopp FLT_MAX) (SFopp FLT_MAX) (SFopp FLT_MAX)))
    (scan_box pts' its'
       (mkVector4 FLT_MAX FLT_MAX FLT_MAX FLT_MAX)
       (mkVector4 (SFopp FLT_MAX) (SFopp FLT_MAX) (SFopp FLT_MAX) (SFopp FLT_MAX))).
Proof.
  intros Hp. rewrite !scan_box_folds. cbn [fst snd c0 c1 c2 c3].
  set (ps := finite_points (map (fun it => vec_get pts (i32 it)) its)).
  set (ps' := finite_points (map (fun it => vec_get pts' (i32 it)) its')).
  assert (Hpp : Permutation ps ps') by (apply Permutation_flat_map; exact Hp).
  pose proof (finite_points_finite (map (fun it => vec_get pts (i32 it)) its)) as Hfin.
  fold ps in Hfin. rewrite Forall_forall in Hfin.
  assert (Hx : Forall (fun v => F32.is_finite v = true) (map x ps)).
  { apply Forall_forall. intros v Hv. apply in_map_iff in Hv. destruct Hv as (p & <- & Hpin).
    specialize (Hfin p Hpin). unfold finite3 in Hfin.
    apply andb_prop in Hfin. destruct Hfin as [Hxy _].
    apply andb_prop in Hxy. apply Hxy. }
  assert (Hy : Forall (fun v => F32.is_finite v = true) (map y ps)).
  { apply Forall_forall. intros v Hv. apply in_map_iff in Hv. destruct Hv as (p & <- & Hpin).
    specialize (Hfin p Hpin). unfold finite3 in Hfin.
    apply andb_prop in Hfin. destruct Hfin as [Hxy _].
    apply andb_prop in Hxy. apply Hxy. }
  assert (Hz : Forall (fun v => F32.is_finite v = true) (map z ps)).
  { apply Forall_forall. intros v Hv. apply in_map_iff in Hv. destruct Hv as (p & <- & Hpin).
    specialize (Hfin p Hpin). unfold finite3 in Hfin.
    apply andb_prop in Hfin. apply Hfin. }
  repeat split;
    first [ apply fold_fmin_permutation | apply fold_fmax_permutation ];
    try (apply Permutation_map; exact Hpp); try assumption; reflexivity.
Qed.

(** The scan of the instance, with or without admission filter, meets
    [scan_ignores_order]. *)
Lemma minmax_ignores_order : scan_ignores_order minmax minmax_field.
Proof.
  intros this this' cloud cloud' Hperm (_ & Hname & Hlo & Hhi & Hneg & _) _.
  unfold bounding_box. rewrite <- Hname, <- Hlo, <- Hhi, <- Hneg.
  unfold candidates in Hperm.
  destruct (negb (is_empty (filter_field_name_ this))).
  - unfold minmax_field. apply scan_box_permutation.
    set (keep := fun c : option PointXYZI =>
                   match c with
                   | Some p => kept_by (filter_field_name_ this)
                                 (float_of_double (filter_limit_min_ this))
                                 (float_of_double (filter_limit_max_ this))
                                 (filter_limit_negative_ this) p
                   | None => false
                   end).
    assert (Hswap : forall (pts : list PointXYZI) its,
              map (fun it => vec_get pts (i32 it))
                (filter (fun it => keep (vec_get pts (i32 it))) its) =
              filter keep (map (fun it => vec_get pts (i32 it)) its)).
    { intros pts its. induction its as [|it its IH]; [reflexivity|].
      cbn [filter map]. destruct (keep (vec_get pts (i32 it))); cbn [map]; rewrite IH;
        reflexivity. }
    change (Permutation
              (map (fun it => vec_get (points cloud) (i32 it))
                 (filter (fun it => keep (vec_get (points cloud) (i32 it))) (indices_ this)))
              (map (fun it => vec_get (points cloud') (i32 it))
                 (filter (fun it => keep (vec_get (points cloud') (i32 it)))
                    (indices_ this')))).
    rewrite !Hswap. apply filter_permutation. exact Hperm.
  - unfold minmax. apply scan_box_permutation. exact Hperm.
Qed.

End ScanOrder.

(** * The theorems on concrete clouds *)

Module Examples.

Import XYZI InsertionSort.

Definition run (this : VoxelGridPartition PointXYZI) : outcome (returned PointXYZI) :=
  applyPartition minmax minmax_field this [].

(** The object after the grid members are set, and what the call returns;
    the object itself where the call does not get that far. *)
Definition grid_of (this : VoxelGridPartition PointXYZI) : VoxelGridPartition PointXYZI :=
  match reaches_first_pass minmax minmax_field this with
  | Some (this1, _) => this1
  | None => this
  end.

Definition result_of (this : VoxelGridPartition PointXYZI) : returned PointXYZI :=
  match run this with
  | Ok r => r
  | _ => mkReturned this [] []
  end.

(** Two points in the cell at the origin and one far from it. *)
Definition near_and_far : list PointXYZI :=
  [quarters 1 1 1; quarters 2 2 2; quarters 21 21 21].

Definition pairs_only : VoxelGridPartition PointXYZI :=
  filter_on near_and_far true 2 false EmptyString.

(** Two points that differ in the sign of a zero, and one far from them;
    the same with the first two the other way round.  The scan of the
    instance keeps the first of two equal numbers, so the boxes of the two
    differ in the sign of the least x. *)
Definition plus_zero : PointXYZI :=
  mkPoint (S754_zero false) (F32.lit 1 (-2)) (F32.lit 1 (-2)) zero.

Definition minus_zero : PointXYZI :=
  mkPoint (S754_zero true) (F32.lit 1 (-2)) (F32.lit 1 (-2)) zero.

Definition zeros_first : VoxelGridPartition PointXYZI :=
  filter_on [plus_zero; minus_zero; quarters 21 21 21] true 2 false EmptyString.

Definition zeros_swapped : VoxelGridPartition PointXYZI :=
  filter_on [minus_zero; plus_zero; quarters 21 21 21] true 2 false EmptyString.

Definition with_layout : VoxelGridPartition PointXYZI :=
  filter_on [quarters 5 1 1; quarters 1 1 1; quarters 6 1 1] true 1 true EmptyString.

(** A point whose x is not a number. *)
Definition no_number : PointXYZI := mkPoint F32.nan zero zero zero.

Definition with_nan (dense : bool) : VoxelGridPartition PointXYZI :=
  filter_on [no_number; quarters 1 1 1] dense 1 false EmptyString.

Definition only_nan : VoxelGridPartition PointXYZI :=
  filter_on [no_number] false 1 false EmptyString.

Definition bogus_field : VoxelGridPartition PointXYZI :=
  filter_on [quarters 3 3 3] true 1 false "bogus"%string.


(** Points at 0.75 and 1290.25 on every axis, leaf size 1. *)
Definition off_by_one : VoxelGridPartition PointXYZI :=
  filter_on [quarters 3 3 3; quarters 5161 5161 5161] true 1 false EmptyString.

(** Points at 0 and 2^21 on every axis, leaf size 1. *)
Definition far_apart : VoxelGridPartition PointXYZI :=
  filter_on [quarters 0 0 0; quarters 8388608 8388608 8388608] true 1 false EmptyString.


Definition near_and_far_cloud : PointCloud PointXYZI := mkCloud near_and_far true.

Definition with_nan_cloud (dense : bool) : PointCloud PointXYZI :=
  mkCloud [no_number; quarters 1 1 1] dense.

Lemma partition_covers_admitted_points_once_witness :
  (forall i j ci cj,
     nth_error (pc_vector (result_of pairs_only)) i = Some ci ->
     nth_error (pc_vector (result_of pairs_only)) j = Some cj ->
     In (quarters 1 1 1) (points ci) -> In (quarters 1 1 1) (points cj) -> i = j) /\
  ((exists c, In c (pc_vector (result_of pairs_only)) /\ In (quarters 1 1 1) (points c)) <->
   min_points_per_voxel_ pairs_only <= occupancy (grid_of pairs_only) near_and_far_cloud 0).
Proof.
  apply (partition_covers_admitted_points_once minmax minmax_field pairs_only []
           (result_of pairs_only) (grid_of pairs_only) near_and_far_cloud 0 (quarters 1 1 1) 0).
  - vm_compute. reflexivity.
  - vm_compute. reflexivity.
  - left. reflexivity.
  - reflexivity.
  - vm_compute. reflexivity.
Defined.

Lemma clusters_follow_ascending_cells_witness :
  exists iv runs,
    snd (first_pass (grid_of pairs_only) near_and_far_cloud) = Ok iv /\
    runs = filter (survives (min_points_per_voxel_ pairs_only)) (blocks idx (sort iv)) /\
    StronglySorted Z.lt (map (block_key idx) runs) /\
    Forall (fun b => Forall (fun e => idx e = block_key idx b) b) runs /\
    Forall2 (fun b c => map Some (points c) = map (point_of near_and_far_cloud) b)
      runs (pc_vector (result_of pairs_only)).
Proof.
  apply (clusters_follow_ascending_cells minmax minmax_field pairs_only []
           (result_of pairs_only) (grid_of pairs_only) near_and_far_cloud).
  - vm_compute. reflexivity.
  - vm_compute. reflexivity.
Defined.



Lemma nothing_to_partition_is_no_error_witness :
  exists r, applyPartition minmax minmax_field only_nan [] = Ok r /\ pc_vector r = [] /\
            (input_ only_nan = None -> self r = only_nan /\ log r = [NoInputDataset]).
Proof.
  apply (nothing_to_partition_is_no_error minmax minmax_field only_nan []).
  right. exists (mkCloud [no_number] false). split; [reflexivity|].
  constructor; [|constructor].
  exists no_number. split; reflexivity.
Defined.

Lemma non_dense_clouds_skip_non_finite_points_witness :
  (forall inv min_b divb_mul fields distance_idx negative lo hi raw p,
     vec_get (points (with_nan_cloud false)) (i32 raw) = Some p ->
     point_is_finite p = false ->
     visit_all (with_nan_cloud false) inv min_b divb_mul raw = Ok None /\
     visit_filtered (with_nan_cloud false) inv min_b divb_mul fields distance_idx
       negative lo hi raw = Ok None) /\
  (forall inv min_b divb_mul fields distance_idx negative lo hi its,
     let finite_ones := filter (fun raw => negb (not_finite (with_nan_cloud false) raw)) its in
     for_each_index (visit_all (with_nan_cloud false) inv min_b divb_mul) its =
     for_each_index (visit_all (with_nan_cloud false) inv min_b divb_mul) finite_ones /\
     for_each_index
       (visit_filtered (with_nan_cloud false) inv min_b divb_mul fields distance_idx
          negative lo hi) its =
     for_each_index
       (visit_filtered (with_nan_cloud false) inv min_b divb_mul fields distance_idx
          negative lo hi) finite_ones) /\
  (forall r, applyPartition minmax minmax_field (with_nan false) [] = Ok r ->
     Forall (fun c => Forall (fun p => point_is_finite p = true) (points c))
       (pc_vector r)).
Proof.
  apply (non_dense_clouds_skip_non_finite_points minmax minmax_field (with_nan false) []
           (with_nan_cloud false)); reflexivity.
Defined.

Lemma reordering_the_candidates_keeps_the_clusters_witness :
  Forall2 (fun c c' => Permutation (points c) (points c'))
    (pc_vector (result_of zeros_first)) (pc_vector (result_of zeros_swapped)).
Proof.
  apply (reordering_the_candidates_keeps_the_clusters minmax minmax_field
           zeros_first zeros_swapped [] []
           (result_of zeros_first) (result_of zeros_swapped)
           (mkCloud [plus_zero; minus_zero; quarters 21 21 21] true)
           (mkCloud [minus_zero; plus_zero; quarters 21 21 21] true)).
  - exact ScanOrder.minmax_ignores_order.
  - reflexivity.
  - reflexivity.
  - apply perm_swap.
  - repeat split.
  - reflexivity.
  - vm_compute. reflexivity.
  - vm_compute. reflexivity.
Defined.


Lemma invalid_filter_field_name_is_subscripted_witness :
  fst (first_pass (grid_of bogus_field) (mkCloud [quarters 3 3 3] true))
    = [InvalidFilterFieldName (-1)] /\
  applyPartition minmax minmax_field bogus_field [] = Undefined (FieldsSubscript (-1)).
Proof.
  apply (invalid_filter_field_name_is_subscripted minmax minmax_field bogus_field []
           (grid_of bogus_field) (mkCloud [quarters 3 3 3] true) 0 [] (quarters 3 3 3)).
  - vm_compute. reflexivity.
  - reflexivity.
  - vm_compute. reflexivity.
  - reflexivity.
  - reflexivity.
  - left. reflexivity.
Defined.

(** C2: two points at 0.75 and 1290.25 on every axis, leaf size 1.  The
    check of lines 102-116 counts 1290 divisions an axis and lets the call
    go on; lines 118-126 then set 1291 divisions an axis, whose product is
    above [INT32_MAX], and the linear index of the second point does not
    fit an [int]. *)
Theorem overflow_check_passes_a_grid_too_large :
  indices_would_overflow 1290 1290 1290 = false /\
  reaches_first_pass minmax minmax_field off_by_one =
    Some (grid_of off_by_one, mkCloud [quarters 3 3 3; quarters 5161 5161 5161] true) /\
  div_b_ (grid_of off_by_one) = mkVector4 1291 1291 1291 0 /\
  INT32_MAX < 1291 * 1291 * 1291 /\
  leaf_index (inverse_leaf_size_ (grid_of off_by_one)) (min_b_ (grid_of off_by_one))
    (divb_mul_ (grid_of off_by_one)) (quarters 5161 5161 5161)
  = 1290 + 1290 * 1291 + 1290 * (1291 * 1291) - 2 ^ 32.
Proof. vm_compute. repeat split; reflexivity. Qed.

(** C4: two points at 0 and 2^21 on every axis, leaf size 1.  The three
    counts are 2^21 + 1 each; their product is far above [INT32_MAX] but
    wraps around to a negative [int64_t], the guard does not trip, and the
    call returns two clusters and no diagnostic. *)
Theorem overflow_guard_wraps_around :
  (let (min_p, max_p) :=
     bounding_box minmax minmax_field far_apart
       (mkCloud [quarters 0 0 0; quarters 8388608 8388608 8388608] true) in
   candidate_divisions (c0 min_p) (c0 max_p) (c0 ones) = 2097153 /\
   candidate_divisions (c1 min_p) (c1 max_p) (c1 ones) = 2097153 /\
   candidate_divisions (c2 min_p) (c2 max_p) (c2 ones) = 2097153) /\
  INT32_MAX < 2097153 * 2097153 * 2097153 /\
  indices_would_overflow 2097153 2097153 2097153 = false /\
  run far_apart = Ok (result_of far_apart) /\
  log (result_of far_apart) = [] /\
  vec_size (pc_vector (result_of far_apart)) = 2.
Proof. vm_compute. repeat split; reflexivity. Qed.

End Examples.

(** * More on the call *)

(** ** Sizes *)

Lemma vec_size_concat_filter {A : Type} (f : list A -> bool) (bs : list (list A)) :
  vec_size (concat (filter f bs)) <= vec_size (concat bs).
Proof.
  induction bs as [|b bs IH]; [reflexivity|].
  cbn [filter concat]. pose proof (vec_size_nonneg b).
  destruct (f b); cbn [concat]; rewrite !vec_size_app; lia.
Qed.

Lemma concat_lower_bound {A : Type} (m : Z) (bs : list (list A)) :
  Forall (fun b => m <= vec_size b) bs ->
  vec_size bs * m <= vec_size (concat bs).
Proof.
  induction 1 as [|b bs Hb _ IH]; [reflexivity|].
  cbn [concat]. rewrite vec_size_cons, vec_size_app. lia.
Qed.

Lemma filter_all {A : Type} (f : A -> bool) (l : list A) :
  Forall (fun a => f a = true) l -> filter f l = l.
Proof.
  induction 1 as [|a l Ha _ IH]; [reflexivity|].
  simpl. rewrite Ha, IH. reflexivity.
Qed.

Lemma leaf_layout_writes_off kept index layout :
  leaf_layout_writes false kept index layout = Ok layout.
Proof.
  revert index. induction kept as [|b kept IH]; intros index; [reflexivity|].
  simpl. apply IH.
Qed.

Section Coverage.

Context {PointT : Type} {point_type : PointType PointT}.
Context {std_sort : IndexSort}.
Variable getMinMax3D : PointCloud PointT -> list Z -> Vector4f * Vector4f.
Variable getMinMax3D_field :
  PointCloud PointT -> list Z -> String.string -> F32.t -> F32.t -> bool ->
  Vector4f * Vector4f.

Abbreviation entry := cloud_point_index_idx (only parsing).
Abbreviation applyPartition' := (applyPartition getMinMax3D getMinMax3D_field) (only parsing).
Abbreviation reaches_first_pass' := (reaches_first_pass getMinMax3D getMinMax3D_field) (only parsing).
Abbreviation bounding_box' := (bounding_box getMinMax3D getMinMax3D_field) (only parsing).

(** A call that returns and did not get to the first pass returned at one
    of the two guards. *)
Lemma applyPartition_early this pc r :
  applyPartition' this pc = Ok r ->
  reaches_first_pass' this = None ->
  self r = this /\ pc_vector r = [] /\
  (log r = [NoInputDataset] \/ log r = [LeafSizeTooSmall]).
Proof.
  intros Hrun Hreach. rewrite applyPartition_spec, Hreach in Hrun.
  destruct (input_ this); injection Hrun as <-; auto.
Qed.

Lemma first_pass_length this (cloud : PointCloud PointT) its iv :
  for_each_index (visit this cloud) its = Ok iv -> vec_size iv <= vec_size its.
Proof.
  revert iv. induction its as [|raw its IH]; intros iv H.
  - simpl in H. injection H as <-. reflexivity.
  - simpl in H.
    destruct (visit this cloud raw) as [o| |]; try discriminate. cbn [bind] in H.
    destruct (for_each_index (visit this cloud) its) as [iv'| |]; try discriminate.
    cbn [bind] in H. injection H as <-. specialize (IH iv' eq_refl).
    destruct o; rewrite !vec_size_cons; lia.
Qed.

Lemma first_pass_origin this (cloud : PointCloud PointT) its iv e :
  for_each_index (visit this cloud) its = Ok iv -> In e iv ->
  exists raw, In raw its /\ visit this cloud raw = Ok (Some e).
Proof.
  revert iv. induction its as [|raw its IH]; intros iv H He.
  - simpl in H. injection H as <-. destruct He.
  - simpl in H.
    destruct (visit this cloud raw) as [o| |] eqn:Hv; try discriminate. cbn [bind] in H.
    destruct (for_each_index (visit this cloud) its) as [iv'| |]; try discriminate.
    cbn [bind] in H. injection H as <-.
    assert (Hrest : In e iv' -> exists raw0, In raw0 (raw :: its) /\
                                             visit this cloud raw0 = Ok (Some e)).
    { intros H. destruct (IH iv' eq_refl H) as (raw0 & Hin & Hv0).
      exists raw0. split; [right; exact Hin | exact Hv0]. }
    destruct o as [e0|]; [|exact (Hrest He)].
    destruct He as [<- | He]; [|exact (Hrest He)].
    exists raw. split; [left; reflexivity | exact Hv].
Qed.

Lemma kept_block_refers this1 (cloud : PointCloud PointT) min_points (iv b : list entry) :
  Forall (entry_of_pass this1 cloud) iv ->
  In b (kept_blocks min_points iv) -> Forall (refers cloud) b.
Proof.
  intros Hall Hb. apply Forall_forall. intros e He.
  destruct (kept_block_entry _ _ _ _ Hb He) as [Hin _].
  rewrite Forall_forall in Hall. destruct (Hall e Hin) as (_ & p & Hp & _).
  exists p. exact Hp.
Qed.

Lemma kept_block_size min_points (iv b : list entry) :
  In b (kept_blocks min_points iv) -> 1 <= vec_size b /\ min_points <= vec_size b.
Proof.
  intros Hb. split.
  - destruct (kept_block_head _ _ _ Hb) as (e & _ & _ & _).
    unfold kept_blocks in Hb. apply filter_In in Hb. destruct Hb as [Hb _].
    pose proof (blocks_nonempty (sort iv)) as Hne. rewrite Forall_forall in Hne.
    specialize (Hne b Hb). destruct b; [congruence|].
    rewrite vec_size_cons. pose proof (vec_size_nonneg b). lia.
  - apply kept_blocks_in in Hb. destruct Hb as (_ & _ & Hs).
    unfold survives in Hs. apply Z.geb_le. exact Hs.
Qed.

(** X1: The vector passed in has no part in the outcome: the early returns
    clear it, and the fourth pass resizes it and replaces every element. *)
Theorem result_ignores_the_vector_passed_in this pc pc' :
  applyPartition getMinMax3D getMinMax3D_field this pc =
  applyPartition getMinMax3D getMinMax3D_field this pc'.
Proof. rewrite !applyPartition_spec. reflexivity. Qed.

(** X2: As long as the product of the three counts does not wrap around in
    [int64_t], the guard of lines 102-116 trips exactly when the product
    is above [INT32_MAX]; then the call returns no cluster, the object as
    it was and the diagnostic. *)
Theorem overflow_guard_is_exact_without_wrap this pc cloud :
  input_ this = Some cloud ->
  let box := bounding_box' this cloud in
  let inv := inverse_leaf_size_ this in
  let dx := candidate_divisions (c0 (fst box)) (c0 (snd box)) (c0 inv) in
  let dy := candidate_divisions (c1 (fst box)) (c1 (snd box)) (c1 inv) in
  let dz := candidate_divisions (c2 (fst box)) (c2 (snd box)) (c2 inv) in
  0 < dx -> 0 < dy -> 0 < dz -> dx * dy * dz < 2 ^ 63 ->
  indices_would_overflow dx dy dz = (dx * dy * dz >? INT32_MAX) /\
  (INT32_MAX < dx * dy * dz ->
   applyPartition' this pc = Ok (mkReturned this [] [LeafSizeTooSmall])) /\
  (dx * dy * dz <= INT32_MAX ->
   reaches_first_pass' this = Some (set_grid this (fst box) (snd box), cloud)).
Proof.
  intros Hin box inv dx dy dz Hx Hy Hz Hprod.
  assert (Hguard : indices_would_overflow dx dy dz = (dx * dy * dz >? INT32_MAX)).
  { unfold indices_would_overflow.
    assert (dx * dy <= dx * dy * dz) by nia.
    assert (0 < dx * dy) by nia.
    rewrite (i64_small (dx * dy)) by lia.
    rewrite i64_small by lia. reflexivity. }
  split; [exact Hguard|].
  assert (Hreach : reaches_first_pass' this =
                   if indices_would_overflow dx dy dz then None
                   else Some (set_grid this (fst box) (snd box), cloud)).
  { unfold reaches_first_pass. rewrite Hin. subst dx dy dz inv box.
    destruct (bounding_box' this cloud) as [min_p max_p]. reflexivity. }
  split; intros H.
  - rewrite applyPartition_spec, Hin, Hreach, Hguard.
    destruct (dx * dy * dz >? INT32_MAX) eqn:E; [reflexivity|].
    rewrite Z.gtb_ltb in E. apply Z.ltb_ge in E. lia.
  - rewrite Hreach, Hguard.
    destruct (dx * dy * dz >? INT32_MAX) eqn:E; [|reflexivity].
    rewrite Z.gtb_ltb in E. apply Z.ltb_lt in E. lia.
Qed.

(** X3: A call that returns leaves the input, the indices, the leaf size, the
    admission filter and the threshold as they were; it leaves the leaf
    layout as it was when the layout is not saved. *)
Theorem call_keeps_the_settings this pc r :
  applyPartition getMinMax3D getMinMax3D_field this pc = Ok r ->
  input_ (self r) = input_ this /\
  indices_ (self r) = indices_ this /\
  inverse_leaf_size_ (self r) = inverse_leaf_size_ this /\
  save_leaf_layout_ (self r) = save_leaf_layout_ this /\
  filter_field_name_ (self r) = filter_field_name_ this /\
  filter_limit_min_ (self r) = filter_limit_min_ this /\
  filter_limit_max_ (self r) = filter_limit_max_ this /\
  filter_limit_negative_ (self r) = filter_limit_negative_ this /\
  min_points_per_voxel_ (self r) = min_points_per_voxel_ this /\
  (save_leaf_layout_ this = false -> leaf_layout_ (self r) = leaf_layout_ this).
Proof.
  intros Hrun.
  destruct (reaches_first_pass' this) as [[this1 cloud]|] eqn:Hreach.
  - destruct (applyPartition_returns _ _ _ _ _ _ _ Hrun Hreach)
      as (iv & layout2 & _ & _ & Hw & ->).
    destruct (reaches_first_pass_input _ _ _ _ _ Hreach) as [_ Hthis1].
    subst this1. cbn [self]. repeat split.
    intros Hsave. cbn [set_leaf_layout leaf_layout_].
    unfold initial_layout in Hw. cbn [set_grid save_leaf_layout_ leaf_layout_] in Hw.
    rewrite Hsave, leaf_layout_writes_off in Hw. injection Hw as <-. reflexivity.
  - destruct (applyPartition_early _ _ _ Hrun Hreach) as (-> & _). repeat split.
Qed.

(** X4: Every cluster returned is flagged dense and holds at least one point
    and at least [min_points_per_voxel_] points. *)
Theorem clusters_are_dense_and_long_enough this pc r :
  applyPartition' this pc = Ok r ->
  Forall (fun c => is_dense c = true /\ 1 <= vec_size (points c) /\
                   min_points_per_voxel_ this <= vec_size (points c))
    (pc_vector r).
Proof.
  intros Hrun.
  destruct (reaches_first_pass' this) as [[this1 cloud]|] eqn:Hreach.
  - destruct (applyPartition_returns _ _ _ _ _ _ _ Hrun Hreach)
      as (iv & layout2 & Hiv & _ & _ & ->).
    destruct (reaches_first_pass_frame _ _ _ _ _ Hreach) as (_ & Hmin & _).
    pose proof (first_pass_entries _ _ _ _ Hiv) as Hall.
    cbn [pc_vector]. apply Forall_forall. intros c Hc.
    apply in_map_iff in Hc. destruct Hc as (b & <- & Hb).
    cbn [cluster_of is_dense points].
    rewrite (points_of_length _ _ (kept_block_refers _ _ _ _ _ Hall Hb)).
    rewrite <- Hmin. split; [reflexivity|]. apply (kept_block_size _ _ _ Hb).
  - destruct (applyPartition_early _ _ _ Hrun Hreach) as (_ & -> & _). constructor.
Qed.

(** X5: Every point of a cluster is the point of a candidate: one of
    [indices_] refers to it. *)
Theorem clusters_hold_candidate_points_only this pc r cloud :
  applyPartition' this pc = Ok r ->
  input_ this = Some cloud ->
  Forall (fun c => Forall (fun p => exists raw, In raw (indices_ this) /\
                                     vec_get (points cloud) (i32 raw) = Some p)
                     (points c))
    (pc_vector r).
Proof.
  intros Hrun Hin.
  destruct (reaches_first_pass' this) as [[this1 cloud1]|] eqn:Hreach.
  - destruct (reaches_first_pass_input _ _ _ _ _ Hreach) as [Hin1 _].
    rewrite Hin in Hin1. injection Hin1 as <-.
    destruct (applyPartition_returns _ _ _ _ _ _ _ Hrun Hreach)
      as (iv & layout2 & Hiv & _ & _ & ->).
    destruct (reaches_first_pass_frame _ _ _ _ _ Hreach) as (Hind & _).
    cbn [pc_vector]. apply Forall_forall. intros c Hc.
    apply in_map_iff in Hc. destruct Hc as (b & <- & Hb).
    apply Forall_forall. intros p Hp.
    apply in_cluster_of in Hp. destruct Hp as (e & He & Hpe).
    destruct (kept_block_entry _ _ _ _ Hb He) as [Hiv_e _].
    destruct (first_pass_origin _ _ _ _ _ Hiv Hiv_e) as (raw & Hraw & Hv).
    destruct (visit_some _ _ _ _ Hv) as (q & Hq & Hqe & _).
    rewrite Hpe in Hqe. injection Hqe as ->.
    exists raw. split; [rewrite <- Hind; exact Hraw | exact Hq].
  - destruct (applyPartition_early _ _ _ Hrun Hreach) as (_ & -> & _). constructor.
Qed.

Lemma flat_map_points_clusters (cloud : PointCloud PointT) (bs : list (list entry)) :
  flat_map points (map (cluster_of cloud) bs) = points_of cloud (concat bs).
Proof.
  induction bs as [|b bs IH]; [reflexivity|].
  cbn [map flat_map concat]. rewrite points_of_app, IH. reflexivity.
Qed.

(** X6: With a threshold of at most one point no run is dropped: the clusters
    together hold the points of the entries of [index_vector], each as
    often as it has entries. *)
Theorem no_candidate_is_lost_without_threshold this pc r this1 cloud :
  applyPartition' this pc = Ok r ->
  reaches_first_pass' this = Some (this1, cloud) ->
  min_points_per_voxel_ this <= 1 ->
  exists iv, snd (first_pass this1 cloud) = Ok iv /\
             Permutation (flat_map points (pc_vector r)) (points_of cloud iv).
Proof.
  intros Hrun Hreach Hmin.
  destruct (applyPartition_returns _ _ _ _ _ _ _ Hrun Hreach)
    as (iv & layout2 & Hiv & _ & _ & ->).
  destruct (reaches_first_pass_frame _ _ _ _ _ Hreach) as (_ & Hmin1 & _).
  exists iv. split; [rewrite first_pass_visit; exact Hiv|].
  cbn [pc_vector]. rewrite flat_map_points_clusters.
  unfold kept_blocks. rewrite filter_all.
  - rewrite concat_blocks. unfold points_of. apply Permutation_flat_map.
    apply Permutation_sym. apply sort_perm.
  - pose proof (blocks_nonempty (sort iv)) as Hne.
    eapply Forall_impl; [|exact Hne].
    intros b Hb. unfold survives. apply Z.geb_le.
    destruct b; [congruence|]. rewrite vec_size_cons, Hmin1.
    pose proof (vec_size_nonneg b). lia.
Qed.

(** X7: There are no more clusters than candidates, and no more than the
    candidates divided by the threshold; none at all when there are fewer
    candidates than the threshold. *)
Theorem cluster_count_bound this pc r :
  applyPartition' this pc = Ok r ->
  vec_size (pc_vector r) * Z.max 1 (min_points_per_voxel_ this) <= vec_size (indices_ this) /\
  (vec_size (indices_ this) < min_points_per_voxel_ this -> pc_vector r = []).
Proof.
  intros Hrun.
  assert (Hbound : vec_size (pc_vector r) * Z.max 1 (min_points_per_voxel_ this)
                   <= vec_size (indices_ this)).
  { destruct (reaches_first_pass' this) as [[this1 cloud]|] eqn:Hreach.
    - destruct (applyPartition_returns _ _ _ _ _ _ _ Hrun Hreach)
        as (iv & layout2 & Hiv & _ & _ & ->).
      destruct (reaches_first_pass_frame _ _ _ _ _ Hreach) as (Hind & Hmin & _).
      cbn [pc_vector]. rewrite <- Hind, <- Hmin.
      pose proof (first_pass_length _ _ _ _ Hiv) as Hlen.
      set (kept := kept_blocks (min_points_per_voxel_ this1) iv).
      assert (Hk : vec_size kept * Z.max 1 (min_points_per_voxel_ this1)
                   <= vec_size (concat kept)).
      { apply concat_lower_bound. apply Forall_forall. intros b Hb.
        destruct (kept_block_size _ _ _ Hb). lia. }
      assert (Hc : vec_size (concat kept) <= vec_size iv).
      { unfold kept, kept_blocks.
        replace (vec_size iv) with (vec_size (concat (blocks idx (sort iv))))
          by (rewrite concat_blocks; apply sort_size).
        apply vec_size_concat_filter. }
      unfold vec_size at 1. rewrite length_map. fold (vec_size kept). lia.
    - destruct (applyPartition_early _ _ _ Hrun Hreach) as (_ & -> & _).
      change (vec_size (@nil (PointCloud PointT))) with 0.
      pose proof (vec_size_nonneg (indices_ this)). lia. }
  split; [exact Hbound|].
  intros Hfew. destruct (pc_vector r) as [|c l]; [reflexivity|].
  rewrite vec_size_cons in Hbound. pose proof (vec_size_nonneg l). nia.
Qed.

(** X8: The clusters returned are, in ascending order of the cell, those of
    the cells with a candidate and at least [min_points_per_voxel_]
    candidates, and each holds the candidates the first pass puts in its
    cell, up to their order. *)
Theorem clusters_are_the_cells_with_enough_candidates this pc r this1 cloud :
  applyPartition' this pc = Ok r ->
  reaches_first_pass' this = Some (this1, cloud) ->
  exists ps cells,
    candidates this cloud = map Some ps /\
    StronglySorted Z.lt cells /\
    (forall k, In k cells <->
       0 < vec_size (class_points this1 cloud k ps) /\
       min_points_per_voxel_ this <= vec_size (class_points this1 cloud k ps)) /\
    Forall2 (fun k c => Permutation (points c) (class_points this1 cloud k ps))
      cells (pc_vector r).
Proof. apply clusters_by_cell. Qed.

(** *** When the call returns *)

Lemma visit_total this (cloud : PointCloud PointT) raw :
  0 <= i32 raw < vec_size (points cloud) ->
  is_empty (filter_field_name_ this) = true \/
  0 <= getFieldIndex (filter_field_name_ this) point_fields 0 < vec_size point_fields ->
  exists o, visit this cloud raw = Ok o.
Proof.
  intros Hraw Hfield. unfold visit, subscript.
  destruct (vec_get_some _ _ Hraw) as (p & ->). cbn [bind].
  unfold classify.
  destruct (negb (is_dense cloud) && negb (point_is_finite p)); [eexists; reflexivity|].
  destruct (is_empty (filter_field_name_ this)) eqn:He; cbn [negb].
  - eexists. reflexivity.
  - destruct Hfield as [Hf | Hf]; [discriminate|].
    unfold subscript. destruct (vec_get_some _ _ Hf) as (f & ->). cbn [bind].
    destruct (filter_rejects _ _ _ _); eexists; reflexivity.
Qed.

Lemma first_pass_total this (cloud : PointCloud PointT) its :
  Forall (fun raw => 0 <= i32 raw < vec_size (points cloud)) its ->
  is_empty (filter_field_name_ this) = true \/
  0 <= getFieldIndex (filter_field_name_ this) point_fields 0 < vec_size point_fields ->
  exists iv, for_each_index (visit this cloud) its = Ok iv.
Proof.
  intros Hall Hfield. induction Hall as [|raw its Hraw _ (iv & IH)].
  - exists []. reflexivity.
  - destruct (visit_total this cloud raw Hraw Hfield) as (o & Ho).
    simpl. rewrite Ho, IH. cbn [bind]. eexists. reflexivity.
Qed.

(** X9: With an input cloud, candidate indices that all lie in the cloud and
    are fewer than 2^32, an admission field (if any) the point type has,
    and the leaf layout not saved, the call returns: no subscript is out of
    range and every loop ends. *)
Theorem call_returns_on_valid_input this pc cloud :
  input_ this = Some cloud ->
  Forall (fun raw => 0 <= i32 raw < vec_size (points cloud)) (indices_ this) ->
  vec_size (indices_ this) < 2 ^ 32 ->
  is_empty (filter_field_name_ this) = true \/
  0 <= getFieldIndex (filter_field_name_ this) point_fields 0 < vec_size point_fields ->
  save_leaf_layout_ this = false ->
  exists r, applyPartition' this pc = Ok r.
Proof.
  intros Hin Hall Hsz Hfield Hsave.
  destruct (reaches_first_pass' this) as [[this1 cloud1]|] eqn:Hreach.
  - destruct (reaches_first_pass_input _ _ _ _ _ Hreach) as [Hin1 Hthis1].
    rewrite Hin in Hin1. injection Hin1 as <-.
    destruct (reaches_first_pass_frame _ _ _ _ _ Hreach) as (Hind & _ & Hsave1 & _).
    assert (Hfield1 : is_empty (filter_field_name_ this1) = true \/
              0 <= getFieldIndex (filter_field_name_ this1) point_fields 0
                < vec_size point_fields)
      by (rewrite Hthis1; exact Hfield).
    rewrite <- Hind in Hall, Hsz.
    destruct (first_pass_total this1 cloud _ Hall Hfield1) as (iv & Hiv).
    pose proof (first_pass_length _ _ _ _ Hiv) as Hlen.
    eexists. apply (applyPartition_runs _ _ _ _ _ _ iv (initial_layout this1) Hreach Hiv).
    + lia.
    + rewrite Hsave1, Hsave. apply leaf_layout_writes_off.
  - rewrite applyPartition_spec, Hin, Hreach. eexists. reflexivity.
Qed.

(** X10: An [index_vector] of 2^32 entries or more: the [unsigned int]
    counters of the third pass wrap around before they reach its size, and
    the pass does not end however long it runs. *)
Theorem third_pass_never_ends_past_uint32 (iv : list entry) (min_points : Z) (fuel : nat) :
  2 ^ 32 <= vec_size iv ->
  third_pass fuel iv min_points 0 0 [] = Diverges.
Proof. intros Hsz. apply third_pass_wrapped; [exact Hsz | lia]. Qed.

(** *** A second call *)

Lemma reaches_first_pass_again this this1 cloud layout :
  reaches_first_pass' this = Some (this1, cloud) ->
  reaches_first_pass' (set_leaf_layout this1 layout) =
  Some (set_leaf_layout this1 layout, cloud).
Proof.
  intros Hreach. unfold reaches_first_pass in *.
  destruct (input_ this) as [cloud0|] eqn:Hin; [|discriminate].
  destruct (bounding_box' this cloud0) as [min_p max_p] eqn:Hbox.
  destruct (indices_would_overflow
              (candidate_divisions (c0 min_p) (c0 max_p) (c0 (inverse_leaf_size_ this)))
              (candidate_divisions (c1 min_p) (c1 max_p) (c1 (inverse_leaf_size_ this)))
              (candidate_divisions (c2 min_p) (c2 max_p) (c2 (inverse_leaf_size_ this))))
    eqn:Hguard; [discriminate|].
  injection Hreach as <- <-.
  change (input_ (set_leaf_layout (set_grid this min_p max_p) layout)) with (input_ this).
  rewrite Hin.
  change (bounding_box' (set_leaf_layout (set_grid this min_p max_p) layout) cloud0)
    with (bounding_box' this cloud0).
  rewrite Hbox.
  change (inverse_leaf_size_ (set_leaf_layout (set_grid this min_p max_p) layout))
    with (inverse_leaf_size_ this).
  rewrite Hguard. reflexivity.
Qed.

(** X11: Calling again on the object a call returned gives the same result and
    leaves the object as it is, whatever the vector passed in holds.  (A
    saved leaf layout must have had fewer than 2^32 entries before the
    first call.) *)
Theorem second_call_changes_nothing this pc pc' r :
  applyPartition' this pc = Ok r ->
  (save_leaf_layout_ this = true -> vec_size (leaf_layout_ this) < 2 ^ 32) ->
  applyPartition' (self r) pc' = Ok r.
Proof.
  intros Hrun Hold.
  destruct (reaches_first_pass' this) as [[this1 cloud]|] eqn:Hreach.
  - destruct (applyPartition_returns _ _ _ _ _ _ _ Hrun Hreach)
      as (iv & layout2 & Hiv & Hsz & Hw & ->).
    destruct (reaches_first_pass_frame _ _ _ _ _ Hreach) as (_ & _ & Hsave1 & Hlayout1 & _).
    cbn [self].
    pose proof (applyPartition_runs getMinMax3D getMinMax3D_field
                  (set_leaf_layout this1 layout2) pc' (set_leaf_layout this1 layout2)
                  cloud iv layout2
                  (reaches_first_pass_again _ _ _ layout2 Hreach) Hiv Hsz) as Hagain.
    apply Hagain. clear Hagain.
    unfold initial_layout in *.
    change (save_leaf_layout_ (set_leaf_layout this1 layout2)) with (save_leaf_layout_ this1).
    change (min_points_per_voxel_ (set_leaf_layout this1 layout2))
      with (min_points_per_voxel_ this1).
    change (div_b_ (set_leaf_layout this1 layout2)) with (div_b_ this1).
    change (leaf_layout_ (set_leaf_layout this1 layout2)) with layout2.
    destruct (save_leaf_layout_ this1) eqn:Hon.
    + specialize (Hold (eq_sym Hsave1)).
      rewrite Hlayout1, (reset_leaf_layout_fresh _ _ Hold) in Hw.
      pose proof (leaf_layout_writes_size _ _ _ _ Hw) as Hsize.
      unfold vec_size at 2 in Hsize. rewrite repeat_length in Hsize.
      rewrite Z2Nat.id in Hsize by (apply Z.mod_pos_bound; lia).
      rewrite reset_leaf_layout_fresh; [exact Hw|].
      rewrite Hsize. apply Z.mod_pos_bound. lia.
    + rewrite leaf_layout_writes_off in Hw. injection Hw as <-.
      apply leaf_layout_writes_off.
  - destruct (applyPartition_early _ _ _ Hrun Hreach) as (Hself & _).
    rewrite Hself, <- Hrun, !applyPartition_spec. reflexivity.
Qed.

(** *** The admission filter *)

Lemma nan_is_never_rejected negative lo hi v :
  F32.to_double v = S754_nan -> filter_rejects negative lo hi v = false.
Proof.
  intros Hv. unfold filter_rejects, F64.ltb, F64.gtb. rewrite Hv.
  assert (Hl : forall y, SFltb S754_nan y = false) by reflexivity.
  assert (Hr : forall y, SFltb y S754_nan = false) by (intros y; destruct y; reflexivity).
  rewrite !Hl, !Hr. destruct negative; reflexivity.
Qed.

(** X12: A field value that is not a number is outside no interval and inside
    none: the loop with admission filter gives the candidate an entry,
    with the limits inverted or not. *)
Theorem nan_field_value_passes_the_filter (cloud : PointCloud PointT)
    inv min_b divb_mul fields distance_idx negative lo hi raw p field :
  vec_get (points cloud) (i32 raw) = Some p ->
  is_dense cloud = true \/ point_is_finite p = true ->
  vec_get fields distance_idx = Some field ->
  read_float p (offset field) = F32.nan ->
  visit_filtered cloud inv min_b divb_mul fields distance_idx negative lo hi raw =
  Ok (Some (make_entry (leaf_index inv min_b divb_mul p) (i32 raw))).
Proof.
  intros Hp Hchecked Hfield Hnan.
  unfold visit_filtered, subscript. rewrite Hp. cbn [bind].
  assert (Hskip : negb (is_dense cloud) && negb (point_is_finite p) = false).
  { destruct Hchecked as [-> | ->]; [reflexivity | apply andb_false_r]. }
  rewrite Hskip, Hfield. cbn [bind].
  rewrite Hnan, nan_is_never_rejected; reflexivity.
Qed.

(** *** The keys of the runs kept *)

Lemma kept_keys min_points (iv : list entry) :
  map (block_key idx) (kept_blocks min_points iv) =
  filter (fun k => vec_size (filter (has_key idx k) iv) >=? min_points)
    (ukeys idx (sort iv)).
Proof.
  unfold kept_blocks.
  rewrite (blocks_sorted idx _ (sort_key_sorted iv)), filter_map_swap, map_map.
  rewrite (filter_ext (fun k => survives min_points (filter (has_key idx k) (sort iv)))
             (fun k => vec_size (filter (has_key idx k) iv) >=? min_points))
    by (intros k; unfold survives; rewrite class_size; reflexivity).
  rewrite <- (map_id (filter _ (ukeys idx (sort iv)))) at 2.
  apply map_ext_in. intros k Hk. apply filter_In in Hk.
  apply filter_has_key_block_key. apply Hk.
Qed.

Lemma leaf_layout_writes_keys save (kept1 kept2 : list (list entry)) index layout :
  map (block_key idx) kept1 = map (block_key idx) kept2 ->
  leaf_layout_writes save kept1 index layout = leaf_layout_writes save kept2 index layout.
Proof.
  revert kept2 index layout.
  induction kept1 as [|b1 kept1 IH]; intros [|b2 kept2] index layout H;
    try discriminate; [reflexivity|].
  simpl in H. injection H as Hb H. simpl. rewrite Hb.
  destruct (if save then store LeafLayoutSubscript layout (block_key idx b2) (i32 index)
            else Ok layout); cbn [bind]; try reflexivity.
  apply IH. exact H.
Qed.

(** *** The first pass, in closed form *)

(** The entry the first pass makes for a candidate, if it makes one. *)
Definition entries_for (this : VoxelGridPartition PointT) (cloud : PointCloud PointT)
    (raw : Z) : list entry :=
  match vec_get (points cloud) (i32 raw) with
  | Some p =>
      match classify this cloud p with
      | Ok (Some c) => [mkEntry c (i32 raw)]
      | _ => []
      end
  | None => []
  end.

(** X13: The first pass fills [index_vector] with one entry for each candidate
    it admits, in the order of [indices_]; the cell index of an entry fits
    an [unsigned int] and its point index is the candidate's. *)
Theorem first_pass_keeps_the_order_of_the_candidates this (cloud : PointCloud PointT) iv :
  snd (first_pass this cloud) = Ok iv ->
  iv = flat_map (entries_for this cloud) (indices_ this) /\
  Forall (fun e => 0 <= idx e < 2 ^ 32 /\
                   0 <= cloud_point_index e < vec_size (points cloud)) iv.
Proof.
  rewrite first_pass_visit. intros Hiv. split.
  - revert iv Hiv. induction (indices_ this) as [|raw its IH]; intros iv H.
    + simpl in H. injection H as <-. reflexivity.
    + simpl in H.
      destruct (visit this cloud raw) as [o| |] eqn:Hv; try discriminate. cbn [bind] in H.
      destruct (for_each_index (visit this cloud) its) as [iv'| |]; try discriminate.
      cbn [bind] in H. injection H as <-.
      cbn [flat_map]. rewrite <- (IH iv' eq_refl).
      unfold visit, subscript in Hv. unfold entries_for.
      destruct (vec_get (points cloud) (i32 raw)) as [p|] eqn:Hp; [|discriminate].
      cbn [bind] in Hv.
      destruct (classify this cloud p) as [[c|]| |]; try discriminate;
        cbn [bind option_map] in Hv; injection Hv as <-; [|reflexivity].
      pose proof (vec_get_range _ _ _ Hp). pose proof (i32_range raw).
      rewrite u32_small by lia. reflexivity.
  - pose proof (first_pass_entries _ _ _ _ Hiv) as Hall.
    eapply Forall_impl; [|exact Hall].
    intros e (_ & p & Hp & Hc). split.
    + unfold classify in Hc.
      destruct (negb (is_dense cloud) && negb (point_is_finite p)); [discriminate|].
      destruct (negb (is_empty (filter_field_name_ this))).
      * destruct (subscript FieldsSubscript point_fields _); try discriminate.
        cbn [bind] in Hc. destruct (filter_rejects _ _ _ _); [discriminate|].
        injection Hc as <-. apply u32_range.
      * injection Hc as <-. apply u32_range.
    + apply (vec_get_range _ _ _ Hp).
Qed.

(** *** The invalid field name, when the call returns *)

(** X14: A call that returns with the diagnostic of line 156 returns no
    cluster: it returns only when every candidate was skipped by the
    finiteness check, before [fields] is subscripted. *)
Theorem invalid_field_name_returns_no_cluster this pc r distance_idx :
  applyPartition getMinMax3D getMinMax3D_field this pc = Ok r ->
  log r = [InvalidFilterFieldName distance_idx] ->
  distance_idx = -1 /\ pc_vector r = [].
Proof.
  intros Hrun Hlog.
  destruct (reaches_first_pass' this) as [[this1 cloud]|] eqn:Hreach.
  - destruct (applyPartition_returns _ _ _ _ _ _ _ Hrun Hreach)
      as (iv & layout2 & Hiv & _ & _ & ->).
    cbn [log pc_vector] in *.
    unfold first_pass in Hlog.
    destruct (negb (is_empty (filter_field_name_ this1))) eqn:Hname;
      cbn [fst] in Hlog; [|discriminate].
    destruct (getFieldIndex (filter_field_name_ this1) point_fields 0 =? -1) eqn:Hidx;
      [|discriminate].
    injection Hlog as <-. apply Z.eqb_eq in Hidx. split; [exact Hidx|].
    pose proof (first_pass_entries _ _ _ _ Hiv) as Hall.
    destruct iv as [|e iv].
    + unfold kept_blocks. rewrite sort_nil. reflexivity.
    + apply Forall_cons_iff in Hall. destruct Hall as [(_ & p & _ & Hc) _].
      unfold classify in Hc. rewrite Hname, Hidx in Hc.
      destruct (negb (is_dense cloud) && negb (point_is_finite p)); discriminate.
  - destruct (applyPartition_early _ _ _ Hrun Hreach) as (_ & _ & [H | H]);
      rewrite H in Hlog; discriminate.
Qed.

(** *** The loops end *)

Lemma first_pass_ends this (cloud : PointCloud PointT) its :
  (exists iv, for_each_index (visit this cloud) its = Ok iv) \/
  (exists f, for_each_index (visit this cloud) its = Undefined f).
Proof.
  induction its as [|raw its IH]; [left; exists []; reflexivity|].
  simpl.
  assert (Hv : (exists o, visit this cloud raw = Ok o) \/
               (exists f, visit this cloud raw = Undefined f)).
  { unfold visit, subscript.
    destruct (vec_get (points cloud) (i32 raw)) as [p|]; cbn [bind];
      [|right; eexists; reflexivity].
    unfold classify.
    destruct (negb (is_dense cloud) && negb (point_is_finite p));
      [left; eexists; reflexivity|].
    destruct (negb (is_empty (filter_field_name_ this))); [|left; eexists; reflexivity].
    unfold subscript. destruct (vec_get point_fields _); cbn [bind];
      [|right; eexists; reflexivity].
    destruct (filter_rejects _ _ _ _); left; eexists; reflexivity. }
  destruct Hv as [(o & ->) | (f & ->)]; cbn [bind]; [|right; eexists; reflexivity].
  destruct IH as [(iv & ->) | (f & ->)]; cbn [bind];
    [left | right]; eexists; reflexivity.
Qed.

Lemma leaf_layout_writes_ends save (kept : list (list entry)) index layout :
  (exists layout', leaf_layout_writes save kept index layout = Ok layout') \/
  (exists f, leaf_layout_writes save kept index layout = Undefined f).
Proof.
  revert index layout. induction kept as [|b kept IH]; intros index layout.
  - left. eexists. reflexivity.
  - simpl. destruct save.
    + unfold store. destruct (vec_get layout (block_key idx b)); cbn [bind].
      * apply IH.
      * right. eexists. reflexivity.
    + cbn [bind]. apply IH.
Qed.

(** X15: With fewer than 2^32 candidate indices every loop of the call ends:
    the call returns or stops at a subscript out of range. *)
Theorem call_ends_below_uint32_candidates this pc :
  vec_size (indices_ this) < 2 ^ 32 ->
  (exists r, applyPartition' this pc = Ok r) \/
  (exists f, applyPartition' this pc = Undefined f).
Proof.
  intros Hsz. rewrite applyPartition_spec.
  destruct (input_ this) as [cloud|] eqn:Hin; [|left; eexists; reflexivity].
  destruct (reaches_first_pass' this) as [[this1 cloud1]|] eqn:Hreach;
    [|left; eexists; reflexivity].
  destruct (reaches_first_pass_frame _ _ _ _ _ Hreach) as (Hind & _).
  rewrite first_pass_visit.
  destruct (first_pass_ends this1 cloud (indices_ this1)) as [(iv & Hiv) | (f & Hf)].
  - rewrite Hiv. cbn [bind]. unfold later_passes. cbv zeta. rewrite sort_size.
    pose proof (first_pass_length _ _ _ _ Hiv) as Hlen. rewrite Hind in Hlen.
    destruct (vec_size iv <? 2 ^ 32) eqn:E; [|apply Z.ltb_ge in E; lia].
    destruct (leaf_layout_writes_ends (save_leaf_layout_ this1)
                (filter (survives (min_points_per_voxel_ this1)) (blocks idx (sort iv))) 0
                (if save_leaf_layout_ this1
                 then reset_leaf_layout (div_b_ this1) (leaf_layout_ this1)
                 else leaf_layout_ this1)) as [(l & ->) | (f & ->)]; cbn [bind];
      [left | right]; eexists; reflexivity.
  - rewrite Hf. right. eexists. reflexivity.
Qed.

(** *** The table after lines 283-291 *)

(** X16: The reset gives the table the new size whatever it held; it holds -1
    everywhere when its old size fits an [unsigned int]. *)
Theorem reset_gives_the_table_its_size (div_b : Vector4i) (layout : list Z) :
  vec_size (reset_leaf_layout div_b layout) =
    (c0 div_b * c1 div_b * c2 div_b) mod 2 ^ 32 /\
  (vec_size layout < 2 ^ 32 ->
   Forall (fun v => v = -1) (reset_leaf_layout div_b layout)).
Proof.
  split.
  - unfold reset_leaf_layout. cbv zeta. rewrite layout_size_mod.
    set (n := (c0 div_b * c1 div_b * c2 div_b) mod 2 ^ 32).
    assert (Hn : 0 <= n < 2 ^ 32) by (apply Z.mod_pos_bound; lia).
    unfold vec_resize, vec_size.
    rewrite length_app, length_firstn, repeat_length, length_reinit. lia.
  - intros Hold. rewrite (reset_leaf_layout_fresh _ _ Hold).
    apply Forall_forall. intros v Hv. apply repeat_spec in Hv. exact Hv.
Qed.

End Coverage.

(** *** The sort *)

(** X17: What [std::sort] leaves open, the order of entries of one cell, shows
    in the order of the points of a cluster and nowhere else: with any two
    sorts that meet the contract the call returns with the one if it does
    with the other, with the same object, the same diagnostics, and
    clusters that hold the same points position by position. *)
Theorem result_does_not_depend_on_the_sort {PointT : Type} {point_type : PointType PointT}
    (sort1 sort2 : IndexSort)
    (getMinMax3D : PointCloud PointT -> list Z -> Vector4f * Vector4f)
    (getMinMax3D_field :
       PointCloud PointT -> list Z -> String.string -> F32.t -> F32.t -> bool ->
       Vector4f * Vector4f)
    this pc r1 :
  @applyPartition PointT point_type sort1 getMinMax3D getMinMax3D_field this pc = Ok r1 ->
  exists r2,
    @applyPartition PointT point_type sort2 getMinMax3D getMinMax3D_field this pc = Ok r2 /\
    self r1 = self r2 /\ log r1 = log r2 /\
    Forall2 (fun c1 c2 => Permutation (points c1) (points c2))
      (pc_vector r1) (pc_vector r2).
Proof.
  intros Hrun1.
  destruct (reaches_first_pass getMinMax3D getMinMax3D_field this)
    as [[this1 cloud]|] eqn:Hreach.
  - destruct (@applyPartition_returns _ _ sort1 _ _ _ _ _ _ _ Hrun1 Hreach)
      as (iv & layout2 & Hiv & Hsz & Hw & Hr1).
    assert (Hkeys : map (block_key idx) (@kept_blocks sort1 (min_points_per_voxel_ this1) iv) =
                    map (block_key idx) (@kept_blocks sort2 (min_points_per_voxel_ this1) iv)).
    { rewrite !kept_keys. f_equal.
      apply ukeys_permutation; try apply sort_key_sorted.
      apply (perm_trans (Permutation_sym (@sort_perm sort1 iv))). apply (@sort_perm sort2). }
    rewrite (leaf_layout_writes_keys _ _ _ _ _ Hkeys) in Hw.
    pose proof (@applyPartition_runs _ _ sort2 getMinMax3D getMinMax3D_field this pc
                  this1 cloud iv layout2 Hreach Hiv Hsz Hw) as Hrun2.
    eexists. split; [exact Hrun2|].
    destruct (@clusters_by_cell _ _ sort1 _ _ _ _ _ _ _ Hrun1 Hreach)
      as (ps & cells & Hps & Hs & Hin & Hall).
    destruct (@clusters_by_cell _ _ sort2 _ _ _ _ _ _ _ Hrun2 Hreach)
      as (ps' & cells' & Hps' & Hs' & Hin' & Hall').
    rewrite Hps in Hps'. apply map_some_inj in Hps'. subst ps'.
    assert (Hcells : cells = cells').
    { apply strictly_sorted_ext; [exact Hs | exact Hs' |].
      intros k. rewrite Hin, Hin'. reflexivity. }
    subst cells'. rewrite Hr1. cbn [self log].
    split; [reflexivity|]. split; [reflexivity|].
    rewrite Hr1 in Hall. cbn [pc_vector] in Hall, Hall' |- *.
    apply (Forall2_join _ _ _ cells _ _) with (2 := Hall) (3 := Hall').
    intros k c c' Hc Hc'. cbv beta in Hc, Hc'.
    apply (perm_trans Hc). apply Permutation_sym. exact Hc'.
  - exists r1. rewrite (@applyPartition_spec _ _ sort1) in Hrun1.
    rewrite (@applyPartition_spec _ _ sort2). rewrite Hreach in Hrun1 |- *.
    split; [exact Hrun1|]. split; [reflexivity|]. split; [reflexivity|].
    destruct (input_ this); injection Hrun1 as <-; constructor.
Qed.

(** ** [compute] (lines 64-69) *)

Section Compute.

Context {PointT : Type} {point_type : PointType PointT}.
Context {std_sort : IndexSort}.
Variable getMinMax3D : PointCloud PointT -> list Z -> Vector4f * Vector4f.
Variable getMinMax3D_field :
  PointCloud PointT -> list Z -> String.string -> F32.t -> F32.t -> bool ->
  Vector4f * Vector4f.

(** [pcl::PCLBase::initCompute] and [deinitCompute] are PCL's: the former
    answers whether the object is ready and may set [indices_], the latter
    tidies up; its answer is not looked at. *)
Variable initCompute : VoxelGridPartition PointT -> bool * VoxelGridPartition PointT.
Variable deinitCompute : VoxelGridPartition PointT -> VoxelGridPartition PointT.

Definition compute (this : VoxelGridPartition PointT) (pc : list (PointCloud PointT))
    : outcome (returned PointT) :=
  let (ready, this0) := initCompute this in
  if negb ready then Ok (mkReturned this0 pc [])
  else
    r <- applyPartition getMinMax3D getMinMax3D_field this0 pc ;;
    Ok (mkReturned (deinitCompute (self r)) (pc_vector r) (log r)).

(** X18: [compute] hands the vector back as it got it when [initCompute]
    refuses, clusters of an earlier call included; otherwise what it
    returns does not depend on what the vector held. *)
Theorem compute_keeps_or_replaces_the_vector this pc pc' :
  (fst (initCompute this) = false ->
   compute this pc = Ok (mkReturned (snd (initCompute this)) pc [])) /\
  (fst (initCompute this) = true -> compute this pc = compute this pc').
Proof.
  unfold compute. destruct (initCompute this) as [ready this0]. cbn [fst snd].
  split; intros ->; cbn [negb]; [reflexivity|].
  rewrite !applyPartition_spec. reflexivity.
Qed.

End Compute.

(** ** The loops one by one *)

Lemma vec_get_slice {A : Type} (pre b post : list A) (i : Z) (a : A) :
  vec_size pre <= i < vec_size pre + vec_size b ->
  vec_get (pre ++ b ++ post) i = Some a -> In a b.
Proof.
  unfold vec_get, vec_size. intros Hi.
  destruct (i <? 0) eqn:E; [discriminate|].
  rewrite nth_error_app2 by lia. rewrite nth_error_app1 by lia.
  apply nth_error_In.
Qed.

Section Loops.

Context {PointT : Type} {point_type : PointType PointT}.
Context {std_sort : IndexSort}.
Variable getMinMax3D : PointCloud PointT -> list Z -> Vector4f * Vector4f.
Variable getMinMax3D_field :
  PointCloud PointT -> list Z -> String.string -> F32.t -> F32.t -> bool ->
  Vector4f * Vector4f.

Abbreviation entry := cloud_point_index_idx (only parsing).

(** A pair of the third pass: a range of [index_vector] that is not
    empty, lies within the vector, holds at least [min_points] entries,
    all of one cell. *)
Definition run_of (iv : list entry) (min_points : Z) (ab : Z * Z) : Prop :=
  0 <= fst ab < snd ab /\ snd ab <= vec_size iv /\
  min_points <= snd ab - fst ab /\
  forall i j a b,
    fst ab <= i < snd ab -> fst ab <= j < snd ab ->
    vec_get iv i = Some a -> vec_get iv j = Some b -> idx a = idx b.

Lemma blocks_homogeneous (v : list entry) :
  Forall (fun b => forall a, In a b -> idx a = block_key idx b) (blocks idx v).
Proof.
  induction v as [|a v IH]; [constructor|].
  simpl. destruct (blocks idx v) as [|[|b bl] bs].
  - constructor; [|constructor]. intros x [<- | []]. reflexivity.
  - constructor; [|constructor]. intros x [<- | []]. reflexivity.
  - apply Forall_cons_iff in IH. destruct IH as [Hb Hbs].
    destruct (idx a =? idx b) eqn:E.
    + apply Z.eqb_eq in E. constructor; [|exact Hbs].
      intros x [<- | Hx]; [reflexivity|].
      cbn [block_key]. rewrite E. apply (Hb x Hx).
    + constructor; [|constructor; assumption].
      intros x [<- | []]. reflexivity.
Qed.

Lemma runs_from_shape (iv : list entry) (min_points : Z) :
  forall bs pre,
    iv = pre ++ concat bs ->
    Forall (fun b => b <> []) bs ->
    Forall (fun b => forall a, In a b -> idx a = block_key idx b) bs ->
    Forall (fun ab => vec_size pre <= fst ab /\ run_of iv min_points ab)
      (runs_from min_points (vec_size pre) bs) /\
    StronglySorted (fun x y => snd x <= fst y) (runs_from min_points (vec_size pre) bs).
Proof.
  induction bs as [|b bs IH]; intros pre Hiv Hne Hhom.
  - split; constructor.
  - apply Forall_cons_iff in Hne. destruct Hne as [Hb Hne].
    apply Forall_cons_iff in Hhom. destruct Hhom as [Hbh Hhom].
    simpl concat in Hiv.
    assert (Hiv' : iv = (pre ++ b) ++ concat bs) by (rewrite Hiv, app_assoc; reflexivity).
    destruct (IH (pre ++ b) Hiv' Hne Hhom) as [IHall IHs].
    rewrite vec_size_app in IHall, IHs.
    pose proof (vec_size_nonneg pre) as Hp. pose proof (vec_size_nonneg (concat bs)) as Hc.
    assert (Hbpos : 0 < vec_size b).
    { destruct b; [congruence|]. rewrite vec_size_cons.
      pose proof (vec_size_nonneg b). lia. }
    assert (Hlen : vec_size iv = vec_size pre + vec_size b + vec_size (concat bs)).
    { rewrite Hiv, !vec_size_app. lia. }
    cbn [runs_from].
    assert (Hrest : Forall (fun ab => vec_size pre <= fst ab /\ run_of iv min_points ab)
                      (runs_from min_points (vec_size pre + vec_size b) bs)).
    { eapply Forall_impl; [|exact IHall]. intros ab [H1 H2]. split; [lia | exact H2]. }
    destruct (survives min_points b) eqn:Hs; cbn [app].
    + split.
      * constructor; [|exact Hrest].
        cbn [fst snd]. split; [lia|]. unfold run_of. cbn [fst snd].
        split; [lia|]. split; [lia|]. split.
        -- unfold survives in Hs. apply Z.geb_le in Hs. lia.
        -- intros i j x y Hi Hj Hx Hy. rewrite Hiv in Hx, Hy.
           apply vec_get_slice in Hx; [|lia]. apply vec_get_slice in Hy; [|lia].
           rewrite (Hbh x Hx), (Hbh y Hy). reflexivity.
      * constructor; [exact IHs|].
        eapply Forall_impl; [|exact IHall]. intros ab [H1 _]. cbn [snd]. exact H1.
    + split; [exact Hrest | exact IHs].
Qed.

(** X19: The third pass on an [index_vector] of fewer than 2^32 entries
    returns; [total] is the number of pairs it recorded; every pair is a
    range of the vector with at least [min_points_per_voxel_] entries, all
    of one cell; and the pairs come one after the other without overlap. *)
Theorem third_pass_records_runs (iv : list entry) (min_points : Z) :
  vec_size iv < 2 ^ 32 ->
  exists first_and_last,
    third_pass (S (length iv)) iv min_points 0 0 [] =
      Ok (vec_size first_and_last, first_and_last) /\
    Forall (run_of iv min_points) first_and_last /\
    StronglySorted (fun x y => snd x <= fst y) first_and_last.
Proof.
  intros Hsz.
  pose proof (third_pass_spec iv min_points Hsz (length iv) iv [] (S (length iv)) 0 [])
    as H3.
  specialize (H3 (le_n _) eq_refl (Nat.lt_succ_diag_r _) eq_refl (Z.le_refl _)).
  change (vec_size (@nil cloud_point_index_idx)) with 0 in H3. cbn [app] in H3.
  exists (runs_from min_points 0 (blocks idx iv)). split; [exact H3|].
  destruct (runs_from_shape iv min_points (blocks idx iv) []
              (eq_sym (concat_blocks idx iv)) (blocks_nonempty iv) (blocks_homogeneous iv))
    as [Hall Hs].
  change (vec_size (@nil cloud_point_index_idx)) with 0 in Hall, Hs.
  split; [|exact Hs].
  eapply Forall_impl; [|exact Hall]. intros ab [_ H]. exact H.
Qed.

(** X20: The two loops of the first pass differ by the admission test alone:
    for a candidate the test lets through, the loop with admission filter
    does what the loop without does. *)
Theorem loops_differ_by_the_admission_test (cloud : PointCloud PointT)
    inv min_b divb_mul fields distance_idx negative lo hi raw field :
  vec_get fields distance_idx = Some field ->
  (forall p, vec_get (points cloud) (i32 raw) = Some p ->
             filter_rejects negative lo hi (read_float p (offset field)) = false) ->
  visit_filtered cloud inv min_b divb_mul fields distance_idx negative lo hi raw =
  visit_all cloud inv min_b divb_mul raw.
Proof.
  intros Hfield Hpass. unfold visit_filtered, visit_all, subscript.
  destruct (vec_get (points cloud) (i32 raw)) as [p|] eqn:Hp; [|reflexivity].
  cbn [bind]. rewrite Hfield. cbn [bind]. rewrite (Hpass p eq_refl).
  reflexivity.
Qed.

(** *** Faults *)

Lemma first_pass_fault this (cloud : PointCloud PointT) its f :
  for_each_index (visit this cloud) its = Undefined f ->
  (exists raw, In raw its /\ f = PointsSubscript (i32 raw)) \/
  f = FieldsSubscript (getFieldIndex (filter_field_name_ this) point_fields 0).
Proof.
  induction its as [|raw its IH]; [discriminate|].
  simpl. unfold visit at 1, subscript at 1.
  destruct (vec_get (points cloud) (i32 raw)) as [p|]; cbn [bind].
  - unfold classify.
    destruct (negb (is_dense cloud) && negb (point_is_finite p)); cbn [bind].
    + destruct (for_each_index (visit this cloud) its) as [iv| |]; cbn [bind];
        try discriminate.
      intros H. injection H as <-.
      destruct (IH eq_refl) as [(raw0 & Hin & Hf) | Hf]; [left | right; exact Hf].
      exists raw0. split; [right; exact Hin | exact Hf].
    + destruct (negb (is_empty (filter_field_name_ this))).
      * unfold subscript.
        destruct (vec_get point_fields _) as [field|]; cbn [bind].
        -- assert (Hrest : forall o : option Z,
                     (r <- Ok (option_map (fun c => mkEntry c (u32 (i32 raw))) o) ;;
                      index_vector <- for_each_index (visit this cloud) its ;;
                      Ok match r with
                         | Some e => e :: index_vector
                         | None => index_vector
                         end) = Undefined f ->
                     (exists raw0, In raw0 (raw :: its) /\ f = PointsSubscript (i32 raw0)) \/
                     f = FieldsSubscript
                           (getFieldIndex (filter_field_name_ this) point_fields 0)).
           { intros o. cbn [bind].
             destruct (for_each_index (visit this cloud) its) as [iv| |]; cbn [bind];
               try discriminate.
             intros H. injection H as <-.
             destruct (IH eq_refl) as [(raw0 & Hin & Hf) | Hf]; [left | right; exact Hf].
             exists raw0. split; [right; exact Hin | exact Hf]. }
           destruct (filter_rejects _ _ _ _); cbn [bind]; apply Hrest.
        -- intros H. injection H as <-. right. reflexivity.
      * cbn [bind option_map].
        destruct (for_each_index (visit this cloud) its) as [iv| |]; cbn [bind];
          try discriminate.
        intros H. injection H as <-.
        destruct (IH eq_refl) as [(raw0 & Hin & Hf) | Hf]; [left | right; exact Hf].
        exists raw0. split; [right; exact Hin | exact Hf].
  - intros H. injection H as <-. left. exists raw. split; [left|]; reflexivity.
Qed.

Lemma leaf_layout_writes_fault save (kept : list (list entry)) index layout f :
  leaf_layout_writes save kept index layout = Undefined f ->
  save = true /\
  exists k, f = LeafLayoutSubscript k /\ (k < 0 \/ vec_size layout <= k).
Proof.
  revert index layout. induction kept as [|b kept IH]; intros index layout; [discriminate|].
  simpl. destruct save.
  - unfold store at 1.
    destruct (vec_get layout (block_key idx b)) as [old|] eqn:Hget; cbn [bind].
    + intros H. destruct (IH _ _ H) as (_ & k & Hf & Hk).
      split; [reflexivity|]. exists k. split; [exact Hf|].
      unfold vec_size in *. rewrite length_vec_set in Hk. exact Hk.
    + intros H. injection H as <-. split; [reflexivity|].
      exists (block_key idx b). split; [reflexivity|].
      unfold vec_get in Hget.
      destruct (block_key idx b <? 0) eqn:E; [left; apply Z.ltb_lt; exact E|].
      right. apply Z.ltb_ge in E. apply nth_error_None in Hget.
      unfold vec_size. lia.
  - cbn [bind]. intros H. destruct (IH _ _ H) as (Hs & _). discriminate.
Qed.

(** X21: The vectors the call builds itself, [index_vector], the pairs of the
    third pass and [pc_vector], are never subscripted out of range.  A call
    that stops at a subscript stops at [input_->points] with a candidate
    index, at [fields] with the index the field lookup gave, or, the leaf
    layout being saved, at [leaf_layout_] with a cell index that is not
    below the size the table was given. *)
Theorem faults_come_from_the_inputs this pc f :
  applyPartition getMinMax3D getMinMax3D_field this pc = Undefined f ->
  (exists raw, In raw (indices_ this) /\ f = PointsSubscript (i32 raw)) \/
  f = FieldsSubscript (getFieldIndex (filter_field_name_ this) point_fields 0) \/
  (save_leaf_layout_ this = true /\
   exists this1 cloud k,
     reaches_first_pass getMinMax3D getMinMax3D_field this = Some (this1, cloud) /\
     f = LeafLayoutSubscript k /\
     (k < 0 \/ vec_size (reset_leaf_layout (div_b_ this1) (leaf_layout_ this)) <= k)).
Proof.
  rewrite applyPartition_spec.
  destruct (input_ this) as [cloud|] eqn:Hin; [|discriminate].
  destruct (reaches_first_pass getMinMax3D getMinMax3D_field this)
    as [[this1 cloud1]|] eqn:Hreach; [|discriminate].
  destruct (reaches_first_pass_frame _ _ _ _ _ Hreach)
    as (Hind & _ & Hsave & Hlayout & _).
  destruct (reaches_first_pass_input _ _ _ _ _ Hreach) as [_ Hthis1].
  rewrite first_pass_visit.
  destruct (for_each_index (visit this1 cloud) (indices_ this1)) as [iv| |] eqn:Hiv;
    cbn [bind]; try discriminate.
  - unfold later_passes. cbv zeta.
    destruct (vec_size (sort iv) <? 2 ^ 32); [|discriminate].
    destruct (leaf_layout_writes _ _ _ _) as [l| |] eqn:Hw; cbn [bind]; try discriminate.
    intros H. injection H as <-.
    destruct (leaf_layout_writes_fault _ _ _ _ _ Hw) as (Hs & k & Hf & Hk).
    right. right. rewrite <- Hsave. split; [exact Hs|].
    exists this1, cloud1, k. split; [reflexivity|]. split; [exact Hf|].
    rewrite Hs, Hlayout in Hk. exact Hk.
  - intros H. injection H as <-.
    destruct (first_pass_fault _ _ _ _ Hiv) as [(raw & Hraw & Hf) | Hf].
    + left. exists raw. rewrite <- Hind. auto.
    + right. left. rewrite Hf, Hthis1. reflexivity.
Qed.

End Loops.

(** ** On concrete clouds *)

Module MoreExamples.

Import XYZI InsertionSort Examples.

(** Points at 0 and 2000 on every axis, leaf size 1. *)
Definition too_fine : VoxelGridPartition PointXYZI :=
  filter_on [quarters 0 0 0; quarters 8000 8000 8000] true 1 false EmptyString.

Definition too_fine_cloud : PointCloud PointXYZI :=
  mkCloud [quarters 0 0 0; quarters 8000 8000 8000] true.

Definition with_layout_cloud : PointCloud PointXYZI :=
  mkCloud [quarters 5 1 1; quarters 1 1 1; quarters 6 1 1] true.

(** A point whose intensity is not a number. *)
Definition no_intensity : PointXYZI :=
  mkPoint (F32.lit 1 0) (F32.lit 1 0) (F32.lit 1 0) F32.nan.

Definition only_nan_bogus : VoxelGridPartition PointXYZI :=
  filter_on [no_number] false 1 false "bogus"%string.

(** Insertion sort of the reversed vector: a sort that orders the entries
    of one cell the other way round. *)
Definition reversed_insertion : IndexSort := {|
  sort := fun v => insertion_sort (rev v);
  sort_perm := fun v => perm_trans (Permutation_rev v) (insertion_sort_perm (rev v));
  sort_sorted := fun v => insertion_sort_sorted (rev v)
|}.

Lemma overflow_guard_is_exact_without_wrap_witness :
  let box := bounding_box minmax minmax_field too_fine too_fine_cloud in
  let inv := inverse_leaf_size_ too_fine in
  let dx := candidate_divisions (c0 (fst box)) (c0 (snd box)) (c0 inv) in
  let dy := candidate_divisions (c1 (fst box)) (c1 (snd box)) (c1 inv) in
  let dz := candidate_divisions (c2 (fst box)) (c2 (snd box)) (c2 inv) in
  indices_would_overflow dx dy dz = (dx * dy * dz >? INT32_MAX) /\
  (INT32_MAX < dx * dy * dz ->
   applyPartition minmax minmax_field too_fine []
   = Ok (mkReturned too_fine [] [LeafSizeTooSmall])) /\
  (dx * dy * dz <= INT32_MAX ->
   reaches_first_pass minmax minmax_field too_fine
   = Some (set_grid too_fine (fst box) (snd box), too_fine_cloud)).
Proof.
  apply (overflow_guard_is_exact_without_wrap minmax minmax_field too_fine []
           too_fine_cloud); vm_compute; reflexivity.
Defined.

Lemma call_keeps_the_settings_witness :
  input_ (self (result_of with_layout)) = input_ with_layout /\
  indices_ (self (result_of with_layout)) = indices_ with_layout /\
  inverse_leaf_size_ (self (result_of with_layout)) = inverse_leaf_size_ with_layout /\
  save_leaf_layout_ (self (result_of with_layout)) = save_leaf_layout_ with_layout /\
  filter_field_name_ (self (result_of with_layout)) = filter_field_name_ with_layout /\
  filter_limit_min_ (self (result_of with_layout)) = filter_limit_min_ with_layout /\
  filter_limit_max_ (self (result_of with_layout)) = filter_limit_max_ with_layout /\
  filter_limit_negative_ (self (result_of with_layout))
    = filter_limit_negative_ with_layout /\
  min_points_per_voxel_ (self (result_of with_layout))
    = min_points_per_voxel_ with_layout /\
  (save_leaf_layout_ with_layout = false ->
   leaf_layout_ (self (result_of with_layout)) = leaf_layout_ with_layout).
Proof.
  apply (call_keeps_the_settings minmax minmax_field with_layout []).
  vm_compute. reflexivity.
Defined.

Lemma clusters_are_dense_and_long_enough_witness :
  Forall (fun c => is_dense c = true /\ 1 <= vec_size (points c) /\
                   min_points_per_voxel_ pairs_only <= vec_size (points c))
    (pc_vector (result_of pairs_only)).
Proof.
  apply (clusters_are_dense_and_long_enough minmax minmax_field pairs_only []).
  vm_compute. reflexivity.
Defined.

Lemma clusters_hold_candidate_points_only_witness :
  Forall (fun c => Forall (fun p => exists raw, In raw (indices_ pairs_only) /\
                                     vec_get (points near_and_far_cloud) (i32 raw) = Some p)
                     (points c))
    (pc_vector (result_of pairs_only)).
Proof.
  apply (clusters_hold_candidate_points_only minmax minmax_field pairs_only []).
  - vm_compute. reflexivity.
  - reflexivity.
Defined.

Lemma no_candidate_is_lost_without_threshold_witness :
  exists iv, snd (first_pass (grid_of with_layout) with_layout_cloud) = Ok iv /\
             Permutation (flat_map points (pc_vector (result_of with_layout)))
               (points_of with_layout_cloud iv).
Proof.
  apply (no_candidate_is_lost_without_threshold minmax minmax_field with_layout []).
  - vm_compute. reflexivity.
  - vm_compute. reflexivity.
  - vm_compute. discriminate.
Defined.

Lemma cluster_count_bound_witness :
  vec_size (pc_vector (result_of pairs_only))
    * Z.max 1 (min_points_per_voxel_ pairs_only) <= vec_size (indices_ pairs_only) /\
  (vec_size (indices_ pairs_only) < min_points_per_voxel_ pairs_only ->
   pc_vector (result_of pairs_only) = []).
Proof.
  apply (cluster_count_bound minmax minmax_field pairs_only []).
  vm_compute. reflexivity.
Defined.

Lemma clusters_are_the_cells_with_enough_candidates_witness :
  exists ps cells,
    candidates pairs_only near_and_far_cloud = map Some ps /\
    StronglySorted Z.lt cells /\
    (forall k, In k cells <->
       0 < vec_size (class_points (grid_of pairs_only) near_and_far_cloud k ps) /\
       min_points_per_voxel_ pairs_only
         <= vec_size (class_points (grid_of pairs_only) near_and_far_cloud k ps)) /\
    Forall2 (fun k c => Permutation (points c)
                          (class_points (grid_of pairs_only) near_and_far_cloud k ps))
      cells (pc_vector (result_of pairs_only)).
Proof.
  apply (clusters_are_the_cells_with_enough_candidates minmax minmax_field pairs_only []).
  - vm_compute. reflexivity.
  - vm_compute. reflexivity.
Defined.

Lemma call_returns_on_valid_input_witness :
  exists r, applyPartition minmax minmax_field pairs_only [] = Ok r.
Proof.
  apply (call_returns_on_valid_input minmax minmax_field pairs_only [] near_and_far_cloud).
  - reflexivity.
  - repeat constructor; vm_compute; discriminate.
  - vm_compute. reflexivity.
  - left. reflexivity.
  - reflexivity.
Defined.

Lemma third_pass_never_ends_past_uint32_witness :
  third_pass (S (length (repeat (mkEntry 0 0) (Z.to_nat (2 ^ 32)))))
    (repeat (mkEntry 0 0) (Z.to_nat (2 ^ 32))) 1 0 0 [] = Diverges.
Proof.
  apply third_pass_never_ends_past_uint32.
  unfold vec_size. rewrite repeat_length. lia.
Defined.

Lemma second_call_changes_nothing_witness :
  applyPartition minmax minmax_field (self (result_of with_layout))
    (pc_vector (result_of with_layout)) = Ok (result_of with_layout).
Proof.
  apply (second_call_changes_nothing minmax minmax_field with_layout []).
  - vm_compute. reflexivity.
  - intros _. vm_compute. reflexivity.
Defined.

Lemma nan_field_value_passes_the_filter_witness :
  visit_filtered (mkCloud [no_intensity] true) ones zeros zeros point_fields 3
    false (F64.lit 0 0) (F64.lit 1 0) 0 =
  Ok (Some (make_entry (leaf_index ones zeros zeros no_intensity) (i32 0))).
Proof.
  apply (nan_field_value_passes_the_filter (mkCloud [no_intensity] true)
           ones zeros zeros point_fields 3 false (F64.lit 0 0) (F64.lit 1 0) 0
           no_intensity (mkField "intensity"%string 16)).
  - reflexivity.
  - left. reflexivity.
  - reflexivity.
  - reflexivity.
Defined.

Lemma result_does_not_depend_on_the_sort_witness :
  exists r2,
    @applyPartition PointXYZI PointXYZI_type reversed_insertion minmax minmax_field
      with_layout [] = Ok r2 /\
    self (result_of with_layout) = self r2 /\ log (result_of with_layout) = log r2 /\
    Forall2 (fun c1 c2 => Permutation (points c1) (points c2))
      (pc_vector (result_of with_layout)) (pc_vector r2).
Proof.
  apply (result_does_not_depend_on_the_sort insertion reversed_insertion
           minmax minmax_field with_layout []).
  vm_compute. reflexivity.
Defined.

Lemma first_pass_keeps_the_order_of_the_candidates_witness :
  [mkEntry 0 0; mkEntry 0 1; mkEntry 215 2]
  = flat_map (entries_for (grid_of pairs_only) near_and_far_cloud)
      (indices_ (grid_of pairs_only)) /\
  Forall (fun e => 0 <= idx e < 2 ^ 32 /\
                   0 <= cloud_point_index e < vec_size (points near_and_far_cloud))
    [mkEntry 0 0; mkEntry 0 1; mkEntry 215 2].
Proof.
  apply (first_pass_keeps_the_order_of_the_candidates (grid_of pairs_only)
           near_and_far_cloud).
  vm_compute. reflexivity.
Defined.

Lemma invalid_field_name_returns_no_cluster_witness :
  -1 = -1 /\ pc_vector (result_of only_nan_bogus) = [].
Proof.
  apply (invalid_field_name_returns_no_cluster minmax minmax_field only_nan_bogus []).
  - vm_compute. reflexivity.
  - vm_compute. reflexivity.
Defined.

Lemma call_ends_below_uint32_candidates_witness :
  (exists r, applyPartition minmax minmax_field bogus_field [] = Ok r) \/
  (exists f, applyPartition minmax minmax_field bogus_field [] = Undefined f).
Proof.
  apply (call_ends_below_uint32_candidates minmax minmax_field bogus_field []).
  vm_compute. reflexivity.
Defined.

Lemma third_pass_records_runs_witness :
  exists first_and_last,
    third_pass (S (length [mkEntry 0 0; mkEntry 0 1; mkEntry 215 2]))
      [mkEntry 0 0; mkEntry 0 1; mkEntry 215 2] 2 0 0 [] =
      Ok (vec_size first_and_last, first_and_last) /\
    Forall (run_of [mkEntry 0 0; mkEntry 0 1; mkEntry 215 2] 2) first_and_last /\
    StronglySorted (fun x y => snd x <= fst y) first_and_last.
Proof.
  apply (third_pass_records_runs [mkEntry 0 0; mkEntry 0 1; mkEntry 215 2] 2).
  vm_compute. reflexivity.
Defined.

Lemma loops_differ_by_the_admission_test_witness :
  visit_filtered (mkCloud [quarters 1 1 1] true) ones zeros zeros point_fields 3
    false (F64.lit 0 0) (F64.lit 1 0) 0 =
  visit_all (mkCloud [quarters 1 1 1] true) ones zeros zeros 0.
Proof.
  apply (loops_differ_by_the_admission_test (mkCloud [quarters 1 1 1] true)
           ones zeros zeros point_fields 3 false (F64.lit 0 0) (F64.lit 1 0) 0
           (mkField "intensity"%string 16)).
  - reflexivity.
  - intros p Hp. vm_compute in Hp. injection Hp as <-. vm_compute. reflexivity.
Defined.

Lemma faults_come_from_the_inputs_witness :
  (exists raw, In raw (indices_ bogus_field) /\ FieldsSubscript (-1) = PointsSubscript (i32 raw)) \/
  FieldsSubscript (-1)
    = FieldsSubscript (getFieldIndex (filter_field_name_ bogus_field) point_fields 0) \/
  (save_leaf_layout_ bogus_field = true /\
   exists this1 cloud k,
     reaches_first_pass minmax minmax_field bogus_field = Some (this1, cloud) /\
     FieldsSubscript (-1) = LeafLayoutSubscript k /\
     (k < 0 \/ vec_size (reset_leaf_layout (div_b_ this1) (leaf_layout_ bogus_field)) <= k)).
Proof.
  apply (faults_come_from_the_inputs minmax minmax_field bogus_field []).
  vm_compute. reflexivity.
Defined.

(** C1, as the spec has it, fails on a call that stops at the overflow
    guard: the candidate 0 of [too_fine] has finite coordinates, there is
    no admission filter and the threshold is one point, yet the call
    returns no cluster at all. *)
Lemma guard_return_leaves_every_candidate_out :
  In 0 (indices_ too_fine) /\
  vec_get (points too_fine_cloud) (i32 0) = Some (quarters 0 0 0) /\
  point_is_finite (quarters 0 0 0) = true /\
  is_empty (filter_field_name_ too_fine) = true /\
  min_points_per_voxel_ too_fine = 1 /\
  reaches_first_pass minmax minmax_field too_fine = None /\
  applyPartition minmax minmax_field too_fine []
    = Ok (mkReturned too_fine [] [LeafSizeTooSmall]) /\
  pc_vector (result_of too_fine) = [].
Proof. vm_compute. repeat split; try reflexivity. left. reflexivity. Qed.

End MoreExamples.
